(** * sjtu::map — a red-black tree with parent pointers

    Shallow embedding of [src/map.hpp].  Nodes live in a heap indexed by
    addresses, map objects live in an object store, and every member
    function is a computation over that world which may return, throw one
    of the two exceptions of [exceptions.hpp], or run into undefined
    behaviour (a null or dangling pointer is dereferenced).  Loops and
    recursive helpers take a fuel argument. *)

From stdpp Require Import gmap list sorting.
From Stdlib Require Import ZArith Lia.

Local Open Scope Z_scope.

(** ** Pointers, exceptions, results *)

Definition loc := positive.

(** A C++ pointer: [None] is [nullptr]. *)
Definition ptr := option loc.

Definition ptr_eqb (p q : ptr) : bool := bool_decide (p = q).

Inductive exn := invalid_iterator | index_out_of_bound.

(** [size_t] arithmetic wraps around. *)
Definition size_t_mod : Z := 2 ^ 64.
Definition size_t_wrap (z : Z) : Z := z mod size_t_mod.

(** The outcome of a call on a state of type [S]: normal return, an
    exception, undefined behaviour, or fuel exhausted. *)
Inductive res (S A : Type) :=
| Ok (a : A) (w : S)
| Throw (e : exn) (w : S)
| Undef
| OutOfFuel.
Arguments Ok {S A} a w.
Arguments Throw {S A} e w.
Arguments Undef {S A}.
Arguments OutOfFuel {S A}.

Section map.

Context {Key T : Type}.

(** [Compare comp] and the value-initialised [T()]. *)
Variable comp : Key → Key → bool.
Variable T_default : T.

(** ** Data model *)

(** [struct Node]; [color] is [true] for red and [false] for black. *)
Record Node := mkNode {
  data : Key * T;
  left : ptr;
  right : ptr;
  parent : ptr;
  color : bool
}.

(** The fields of a [map] object ([comp] is stateless). *)
Record map := mkMap {
  root : ptr;
  tree_size : Z
}.

(** [iterator] and [const_iterator] have the same fields and the same
    member functions; one record models both. *)
Record iterator := mkIter {
  node : ptr;
  container : ptr
}.

Record world := mkWorld {
  heap : gmap loc Node;
  objs : gmap loc map
}.

Definition W (A : Type) : Type := world → res world A.

Definition ret {A} (a : A) : W A := λ w, Ok a w.

Definition bind {A B} (m : W A) (k : A → W B) : W B :=
  λ w, match m w with
       | Ok a w' => k a w'
       | Throw e w' => Throw e w'
       | Undef => Undef
       | OutOfFuel => OutOfFuel
       end.

Definition throw {A} (e : exn) : W A := λ w, Throw e w.
Definition undef {A} : W A := λ _, Undef.
Definition timeout {A} : W A := λ _, OutOfFuel.

Notation "'let*' x := m 'in' k" := (bind m (λ x, k))
  (at level 10, x name, m at level 100, k at level 200).
Notation "m ;; k" := (bind m (λ _, k))
  (at level 100, k at level 200, right associativity).

(** Short-circuit [&&] and [||]. *)
Definition andW (a b : W bool) : W bool :=
  let* x := a in if x then b else ret false.
Definition orW (a b : W bool) : W bool :=
  let* x := a in if x then ret true else b.

(** ** Memory accesses *)

(** [*p]: undefined when [p] is null or not allocated. *)
Definition deref (p : ptr) : W Node :=
  λ w, match p with
       | Some a => match heap w !! a with
                   | Some n => Ok n w
                   | None => Undef
                   end
       | None => Undef
       end.

Definition modify (p : ptr) (f : Node → Node) : W unit :=
  λ w, match p with
       | Some a => match heap w !! a with
                   | Some n => Ok tt (mkWorld (<[a := f n]> (heap w)) (objs w))
                   | None => Undef
                   end
       | None => Undef
       end.

Definition get_data (p : ptr) : W (Key * T) := let* n := deref p in ret (data n).
Definition get_left (p : ptr) : W ptr := let* n := deref p in ret (left n).
Definition get_right (p : ptr) : W ptr := let* n := deref p in ret (right n).
Definition get_parent (p : ptr) : W ptr := let* n := deref p in ret (parent n).
Definition get_color (p : ptr) : W bool := let* n := deref p in ret (color n).

Definition with_left (v : ptr) (n : Node) : Node :=
  mkNode (data n) v (right n) (parent n) (color n).
Definition with_right (v : ptr) (n : Node) : Node :=
  mkNode (data n) (left n) v (parent n) (color n).
Definition with_parent (v : ptr) (n : Node) : Node :=
  mkNode (data n) (left n) (right n) v (color n).
Definition with_color (v : bool) (n : Node) : Node :=
  mkNode (data n) (left n) (right n) (parent n) v.

Definition set_left (p v : ptr) : W unit := modify p (with_left v).
Definition set_right (p v : ptr) : W unit := modify p (with_right v).
Definition set_parent (p v : ptr) : W unit := modify p (with_parent v).
Definition set_color (p : ptr) (v : bool) : W unit := modify p (with_color v).

(** [new Node(val, p)]: a node at an unused address, red, without children. *)
Definition new_Node (val : Key * T) (p : ptr) : W ptr :=
  λ w, let a := fresh (dom (heap w)) in
       Ok (Some a) (mkWorld (<[a := mkNode val None None p true]> (heap w)) (objs w)).

(** [delete p] *)
Definition delete_Node (p : ptr) : W unit :=
  λ w, match p with
       | None => Ok tt w
       | Some a => match heap w !! a with
                   | Some _ => Ok tt (mkWorld (delete a (heap w)) (objs w))
                   | None => Undef
                   end
       end.

(** Fields of the object [this]. *)
Definition this_obj (this : loc) : W map :=
  λ w, match objs w !! this with
       | Some m => Ok m w
       | None => Undef
       end.

(** [*c] for a pointer to a map object. *)
Definition deref_obj (c : ptr) : W map :=
  match c with
  | Some a => this_obj a
  | None => undef
  end.

Definition put_obj (this : loc) (f : map → map) : W unit :=
  λ w, match objs w !! this with
       | Some m => Ok tt (mkWorld (heap w) (<[this := f m]> (objs w)))
       | None => Undef
       end.

Definition get_root (this : loc) : W ptr := let* m := this_obj this in ret (root m).
Definition get_tree_size (this : loc) : W Z := let* m := this_obj this in ret (tree_size m).
Definition set_root (this : loc) (v : ptr) : W unit :=
  put_obj this (λ m, mkMap v (tree_size m)).
Definition set_tree_size (this : loc) (v : Z) : W unit :=
  put_obj this (λ m, mkMap (root m) v).

(** ** Tree engine *)

Definition leftRotate (this : loc) (x : ptr) : W unit :=
  let* y := get_right x in
  let* yl := get_left y in
  set_right x yl ;;
  let* yl := get_left y in
  (if ptr_eqb yl None then ret tt else set_parent yl x) ;;
  let* xp := get_parent x in
  set_parent y xp ;;
  let* xp := get_parent x in
  (if ptr_eqb xp None then set_root this y
   else
     let* xpl := get_left xp in
     if ptr_eqb x xpl then set_left xp y else set_right xp y) ;;
  set_left y x ;;
  set_parent x y.

Definition rightRotate (this : loc) (x : ptr) : W unit :=
  let* y := get_left x in
  let* yr := get_right y in
  set_left x yr ;;
  let* yr := get_right y in
  (if ptr_eqb yr None then ret tt else set_parent yr x) ;;
  let* xp := get_parent x in
  set_parent y xp ;;
  let* xp := get_parent x in
  (if ptr_eqb xp None then set_root this y
   else
     let* xpr := get_right xp in
     if ptr_eqb x xpr then set_right xp y else set_left xp y) ;;
  set_right y x ;;
  set_parent x y.

(** [p != nullptr && p->color] *)
Definition is_red (p : ptr) : W bool :=
  if ptr_eqb p None then ret false else get_color p.

(** [p == nullptr || !p->color] *)
Definition is_black (p : ptr) : W bool :=
  if ptr_eqb p None then ret true else let* c := get_color p in ret (negb c).

(** [p->parent->parent] *)
Definition get_grandparent (p : ptr) : W ptr :=
  let* pp := get_parent p in get_parent pp.

Fixpoint fixInsert_loop (fuel : nat) (this : loc) (z : ptr) : W unit :=
  match fuel with
  | O => timeout
  | S fuel =>
    let* go :=
      andW (let* r := get_root this in ret (negb (ptr_eqb z r)))
           (let* zp := get_parent z in get_color zp) in
    if negb go then ret tt else
    let* zp := get_parent z in
    let* zpp := get_grandparent z in
    let* zppl := get_left zpp in
    if ptr_eqb zp zppl then
      let* zpp := get_grandparent z in
      let* y := get_right zpp in
      let* yred := is_red y in
      if yred then
        let* zp := get_parent z in
        set_color zp false ;;
        set_color y false ;;
        let* zpp := get_grandparent z in
        set_color zpp true ;;
        let* zpp := get_grandparent z in
        fixInsert_loop fuel this zpp
      else
        let* zp := get_parent z in
        let* zpr := get_right zp in
        let* z := (if ptr_eqb z zpr
                   then let* zp := get_parent z in
                        leftRotate this zp ;; ret zp
                   else ret z) in
        let* zp := get_parent z in
        set_color zp false ;;
        let* zpp := get_grandparent z in
        set_color zpp true ;;
        let* zpp := get_grandparent z in
        rightRotate this zpp ;;
        fixInsert_loop fuel this z
    else
      let* zpp := get_grandparent z in
      let* y := get_left zpp in
      let* yred := is_red y in
      if yred then
        let* zp := get_parent z in
        set_color zp false ;;
        set_color y false ;;
        let* zpp := get_grandparent z in
        set_color zpp true ;;
        let* zpp := get_grandparent z in
        fixInsert_loop fuel this zpp
      else
        let* zp := get_parent z in
        let* zpl := get_left zp in
        let* z := (if ptr_eqb z zpl
                   then let* zp := get_parent z in
                        rightRotate this zp ;; ret zp
                   else ret z) in
        let* zp := get_parent z in
        set_color zp false ;;
        let* zpp := get_grandparent z in
        set_color zpp true ;;
        let* zpp := get_grandparent z in
        leftRotate this zpp ;;
        fixInsert_loop fuel this z
  end.

Definition fixInsert (fuel : nat) (this : loc) (z : ptr) : W unit :=
  fixInsert_loop fuel this z ;;
  let* r := get_root this in
  set_color r false.

Definition transplant (this : loc) (u v : ptr) : W unit :=
  let* up := get_parent u in
  (if ptr_eqb up None then set_root this v
   else
     let* upl := get_left up in
     if ptr_eqb u upl then set_left up v else set_right up v) ;;
  if ptr_eqb v None then ret tt
  else let* up := get_parent u in set_parent v up.

(** [if (p != nullptr) p->color = false] *)
Definition blacken (p : ptr) : W unit :=
  if ptr_eqb p None then ret tt else set_color p false.

Fixpoint fixDelete_loop (fuel : nat) (this : loc) (x : ptr) : W ptr :=
  match fuel with
  | O => timeout
  | S fuel =>
    let* go :=
      andW (let* r := get_root this in ret (negb (ptr_eqb x r)))
           (is_black x) in
    if negb go then ret x else
    let* xp := get_parent x in
    let* xpl := get_left xp in
    if ptr_eqb x xpl then
      let* xp := get_parent x in
      let* w := get_right xp in
      let* wc := get_color w in
      let* w := (if wc then
                   set_color w false ;;
                   let* xp := get_parent x in
                   set_color xp true ;;
                   let* xp := get_parent x in
                   leftRotate this xp ;;
                   let* xp := get_parent x in
                   get_right xp
                 else ret w) in
      let* both :=
        andW (let* wl := get_left w in is_black wl)
             (let* wr := get_right w in is_black wr) in
      if both then
        set_color w true ;;
        let* xp := get_parent x in
        fixDelete_loop fuel this xp
      else
        let* wr := get_right w in
        let* far_black := is_black wr in
        let* w := (if far_black then
                     let* wl := get_left w in
                     blacken wl ;;
                     set_color w true ;;
                     rightRotate this w ;;
                     let* xp := get_parent x in
                     get_right xp
                   else ret w) in
        let* xp := get_parent x in
        let* xpc := get_color xp in
        set_color w xpc ;;
        let* xp := get_parent x in
        set_color xp false ;;
        let* wr := get_right w in
        blacken wr ;;
        let* xp := get_parent x in
        leftRotate this xp ;;
        let* r := get_root this in
        fixDelete_loop fuel this r
    else
      let* xp := get_parent x in
      let* w := get_left xp in
      let* wc := get_color w in
      let* w := (if wc then
                   set_color w false ;;
                   let* xp := get_parent x in
                   set_color xp true ;;
                   let* xp := get_parent x in
                   rightRotate this xp ;;
                   let* xp := get_parent x in
                   get_left xp
                 else ret w) in
      let* both :=
        andW (let* wr := get_right w in is_black wr)
             (let* wl := get_left w in is_black wl) in
      if both then
        set_color w true ;;
        let* xp := get_parent x in
        fixDelete_loop fuel this xp
      else
        let* wl := get_left w in
        let* far_black := is_black wl in
        let* w := (if far_black then
                     let* wr := get_right w in
                     blacken wr ;;
                     set_color w true ;;
                     leftRotate this w ;;
                     let* xp := get_parent x in
                     get_left xp
                   else ret w) in
        let* xp := get_parent x in
        let* xpc := get_color xp in
        set_color w xpc ;;
        let* xp := get_parent x in
        set_color xp false ;;
        let* wl := get_left w in
        blacken wl ;;
        let* xp := get_parent x in
        rightRotate this xp ;;
        let* r := get_root this in
        fixDelete_loop fuel this r
  end.

Definition fixDelete (fuel : nat) (this : loc) (x : ptr) : W unit :=
  let* x := fixDelete_loop fuel this x in
  blacken x.

Fixpoint findNode_loop (fuel : nat) (key : Key) (current : ptr) : W ptr :=
  match fuel with
  | O => timeout
  | S fuel =>
    if ptr_eqb current None then ret None else
    let* d := get_data current in
    if comp key (fst d) then
      let* l := get_left current in findNode_loop fuel key l
    else if comp (fst d) key then
      let* r := get_right current in findNode_loop fuel key r
    else ret current
  end.

Definition findNode (fuel : nat) (this : loc) (key : Key) : W ptr :=
  let* current := get_root this in
  findNode_loop fuel key current.

Fixpoint minimum (fuel : nat) (node : ptr) : W ptr :=
  match fuel with
  | O => timeout
  | S fuel =>
    let* go := andW (ret (negb (ptr_eqb node None)))
                    (let* l := get_left node in ret (negb (ptr_eqb l None))) in
    if go then let* l := get_left node in minimum fuel l
    else ret node
  end.

Fixpoint maximum (fuel : nat) (node : ptr) : W ptr :=
  match fuel with
  | O => timeout
  | S fuel =>
    let* go := andW (ret (negb (ptr_eqb node None)))
                    (let* r := get_right node in ret (negb (ptr_eqb r None))) in
    if go then let* r := get_right node in maximum fuel r
    else ret node
  end.

Fixpoint clearTree (fuel : nat) (node : ptr) : W unit :=
  match fuel with
  | O => timeout
  | S fuel =>
    if ptr_eqb node None then ret tt else
    let* l := get_left node in
    clearTree fuel l ;;
    let* r := get_right node in
    clearTree fuel r ;;
    delete_Node node
  end.

Fixpoint copyTree (fuel : nat) (node parent : ptr) : W ptr :=
  match fuel with
  | O => timeout
  | S fuel =>
    if ptr_eqb node None then ret None else
    let* d := get_data node in
    let* newNode := new_Node d parent in
    let* c := get_color node in
    set_color newNode c ;;
    let* l := get_left node in
    let* l' := copyTree fuel l newNode in
    set_left newNode l' ;;
    let* r := get_right node in
    let* r' := copyTree fuel r newNode in
    set_right newNode r' ;;
    ret newNode
  end.

(** ** Iterators *)

(** [iterator()] *)
Definition iterator_default : iterator := mkIter None None.

(** [while (node->left != nullptr) node = node->left;] *)
Fixpoint descend_left (fuel : nat) (node : ptr) : W ptr :=
  match fuel with
  | O => timeout
  | S fuel =>
    let* l := get_left node in
    if ptr_eqb l None then ret node else descend_left fuel l
  end.

(** [while (node->right != nullptr) node = node->right;] *)
Fixpoint descend_right (fuel : nat) (node : ptr) : W ptr :=
  match fuel with
  | O => timeout
  | S fuel =>
    let* r := get_right node in
    if ptr_eqb r None then ret node else descend_right fuel r
  end.

(** [while (parent != nullptr && node == parent->right)
       { node = parent; parent = parent->parent; }]; the value of [parent]
    at the exit is returned. *)
Fixpoint climb_right (fuel : nat) (node parent : ptr) : W ptr :=
  match fuel with
  | O => timeout
  | S fuel =>
    let* go := andW (ret (negb (ptr_eqb parent None)))
                    (let* pr := get_right parent in ret (ptr_eqb node pr)) in
    if go then let* pp := get_parent parent in climb_right fuel parent pp
    else ret parent
  end.

Fixpoint climb_left (fuel : nat) (node parent : ptr) : W ptr :=
  match fuel with
  | O => timeout
  | S fuel =>
    let* go := andW (ret (negb (ptr_eqb parent None)))
                    (let* pl := get_left parent in ret (ptr_eqb node pl)) in
    if go then let* pp := get_parent parent in climb_left fuel parent pp
    else ret parent
  end.

(** [++it]: the iterator after the call is returned. *)
Definition iter_incr (fuel : nat) (it : iterator) : W iterator :=
  if ptr_eqb (node it) None then throw invalid_iterator else
  let* r := get_right (node it) in
  if negb (ptr_eqb r None) then
    let* n := descend_left fuel r in
    ret (mkIter n (container it))
  else
    let* p := get_parent (node it) in
    let* n := climb_right fuel (node it) p in
    ret (mkIter n (container it)).

(** [it++]: the returned copy, then the iterator after the call. *)
Definition iter_post_incr (fuel : nat) (it : iterator) : W (iterator * iterator) :=
  let temp := it in
  let* it' := iter_incr fuel it in
  ret (temp, it').

(** [--it] *)
Definition iter_decr (fuel : nat) (it : iterator) : W iterator :=
  let* n :=
    (if ptr_eqb (node it) None then
       let* bad := orW (ret (ptr_eqb (container it) None))
                       (let* m := deref_obj (container it) in
                        ret (ptr_eqb (root m) None)) in
       if bad then throw invalid_iterator else
       let* m := deref_obj (container it) in
       maximum fuel (root m)
     else
       let* l := get_left (node it) in
       if negb (ptr_eqb l None) then descend_right fuel l
       else
         let* p := get_parent (node it) in
         climb_left fuel (node it) p) in
  if ptr_eqb n None then throw invalid_iterator
  else ret (mkIter n (container it)).

(** [it--] *)
Definition iter_post_decr (fuel : nat) (it : iterator) : W (iterator * iterator) :=
  let temp := it in
  let* it' := iter_decr fuel it in
  ret (temp, it').

(** [*it]: a reference to [node->data], given as the node's address. *)
Definition iter_deref (it : iterator) : W loc :=
  match node it with
  | None => throw invalid_iterator
  | Some a => ret a
  end.

(** [it->]: the address of [node->data]. *)
Definition iter_arrow (it : iterator) : W loc :=
  match node it with
  | None => throw invalid_iterator
  | Some a => ret a
  end.

(** [operator==] and [operator!=], for every combination of [iterator]
    and [const_iterator]. *)
Definition iter_eq (a b : iterator) : bool :=
  ptr_eqb (node a) (node b) && ptr_eqb (container a) (container b).
Definition iter_ne (a b : iterator) : bool := negb (iter_eq a b).

(** Reading through a reference to a stored entry. *)
Definition read_entry (r : loc) : W (Key * T) := get_data (Some r).
Definition read_mapped (r : loc) : W T := let* d := get_data (Some r) in ret (snd d).

(** ** Map facade *)

(** [map()]: the object is placed at an unused object address. *)
Definition map_ctor : W loc :=
  λ w, let this := fresh (dom (objs w)) in
       Ok this (mkWorld (heap w) (<[this := mkMap None 0]> (objs w))).

(** [map(const map &other)] *)
Definition map_copy_ctor (fuel : nat) (other : loc) : W loc :=
  let* this := map_ctor in
  let* o := this_obj other in
  let* r := copyTree fuel (root o) None in
  set_root this r ;;
  let* o := this_obj other in
  set_tree_size this (tree_size o) ;;
  ret this.

(** [operator=] *)
Definition map_assign (fuel : nat) (this other : loc) : W unit :=
  if negb (bool_decide (this = other)) then
    let* r := get_root this in
    clearTree fuel r ;;
    let* o := this_obj other in
    let* r := copyTree fuel (root o) None in
    set_root this r ;;
    let* o := this_obj other in
    set_tree_size this (tree_size o)
  else ret tt.

(** [~map()] *)
Definition map_dtor (fuel : nat) (this : loc) : W unit :=
  let* r := get_root this in
  clearTree fuel r ;;
  λ w, Ok tt (mkWorld (heap w) (delete this (objs w))).

(** [at], both overloads: a reference to [node->data.second], given as
    the node's address. *)
Definition at_ (fuel : nat) (this : loc) (key : Key) : W loc :=
  let* n := findNode fuel this key in
  match n with
  | None => throw index_out_of_bound
  | Some a => ret a
  end.

Definition begin_ (fuel : nat) (this : loc) : W iterator :=
  let* r := get_root this in
  let* n := minimum fuel r in
  ret (mkIter n (Some this)).

Definition cbegin (fuel : nat) (this : loc) : W iterator := begin_ fuel this.

Definition end_ (this : loc) : iterator := mkIter None (Some this).
Definition cend (this : loc) : iterator := mkIter None (Some this).

Definition empty (this : loc) : W bool :=
  let* n := get_tree_size this in ret (n =? 0).

Definition size (this : loc) : W Z := get_tree_size this.

Definition clear (fuel : nat) (this : loc) : W unit :=
  let* r := get_root this in
  clearTree fuel r ;;
  set_root this None ;;
  set_tree_size this 0.

(** The descent of [insert]: [inl current] when the key already exists
    (the function returns from inside the loop), [inr parent] when the
    loop runs to its end. *)
Fixpoint insert_loop (fuel : nat) (value : Key * T) (parent current : ptr)
  : W (ptr + ptr) :=
  match fuel with
  | O => timeout
  | S fuel =>
    if ptr_eqb current None then ret (inr parent) else
    let* d := get_data current in
    if comp (fst value) (fst d) then
      let* l := get_left current in insert_loop fuel value current l
    else if comp (fst d) (fst value) then
      let* r := get_right current in insert_loop fuel value current r
    else ret (inl current)
  end.

Definition insert (fuel : nat) (this : loc) (value : Key * T) : W (iterator * bool) :=
  let* current := get_root this in
  let* found := insert_loop fuel value None current in
  match found with
  | inl current => ret (mkIter current (Some this), false)
  | inr parent =>
    let* newNode := new_Node value parent in
    (if ptr_eqb parent None then set_root this newNode
     else
       let* d := get_data parent in
       if comp (fst value) (fst d) then set_left parent newNode
       else set_right parent newNode) ;;
    fixInsert fuel this newNode ;;
    let* n := get_tree_size this in
    set_tree_size this (size_t_wrap (n + 1)) ;;
    ret (mkIter newNode (Some this), true)
  end.

(** [operator[]], mutable overload. *)
Definition subscript (fuel : nat) (this : loc) (key : Key) : W loc :=
  let* n := findNode fuel this key in
  match n with
  | Some a => ret a
  | None =>
    let default_value := T_default in
    let* result := insert fuel this (key, default_value) in
    iter_arrow (fst result)
  end.

(** [operator[]], const overload. *)
Definition subscript_const (fuel : nat) (this : loc) (key : Key) : W loc :=
  at_ fuel this key.

Definition erase (fuel : nat) (this : loc) (pos : iterator) : W unit :=
  if negb (ptr_eqb (container pos) (Some this)) || ptr_eqb (node pos) None
  then throw invalid_iterator else
  let z := node pos in
  let y := z in
  let* y_original_color := get_color y in
  let* zl := get_left z in
  let* xc :=
    (if ptr_eqb zl None then
       let* x := get_right z in
       let* zr := get_right z in
       transplant this z zr ;;
       ret (x, y_original_color)
     else
       let* zr := get_right z in
       if ptr_eqb zr None then
         let* x := get_left z in
         let* zl := get_left z in
         transplant this z zl ;;
         ret (x, y_original_color)
       else
         let* zr := get_right z in
         let* y := minimum fuel zr in
         let* y_original_color := get_color y in
         let* x := get_right y in
         let* yp := get_parent y in
         (if ptr_eqb yp z then
            if ptr_eqb x None then ret tt else set_parent x y
          else
            let* yr := get_right y in
            transplant this y yr ;;
            let* zr := get_right z in
            set_right y zr ;;
            let* yr := get_right y in
            set_parent yr y) ;;
         transplant this z y ;;
         let* zl := get_left z in
         set_left y zl ;;
         let* yl := get_left y in
         set_parent yl y ;;
         let* zc := get_color z in
         set_color y zc ;;
         ret (x, y_original_color)) in
  let x := fst xc in
  let y_original_color := snd xc in
  (if negb y_original_color then fixDelete fuel this x else ret tt) ;;
  delete_Node z ;;
  let* n := get_tree_size this in
  set_tree_size this (size_t_wrap (n - 1)).

Definition count (fuel : nat) (this : loc) (key : Key) : W Z :=
  let* n := findNode fuel this key in
  ret (if negb (ptr_eqb n None) then 1 else 0).

Definition find (fuel : nat) (this : loc) (key : Key) : W iterator :=
  let* n := findNode fuel this key in
  ret (mkIter n (Some this)).

(** A full forward traversal, as a client writes it:
    [for (it = m.begin(); it != m.end(); ++it) out.push_back( *it );] *)
Fixpoint traverse_loop (fuel : nat) (this : loc) (it : iterator)
  : W (list (Key * T)) :=
  match fuel with
  | O => timeout
  | S fuel =>
    if iter_ne it (end_ this) then
      let* r := iter_deref it in
      let* d := read_entry r in
      let* it := iter_incr fuel it in
      let* rest := traverse_loop fuel this it in
      ret (d :: rest)
    else ret []
  end.

Definition traverse (fuel : nat) (this : loc) : W (list (Key * T)) :=
  let* it := begin_ fuel this in
  traverse_loop fuel this it.

(** A sequence of insertions, as a client writes it:
    [for (auto &v : vs) m.insert(v);] *)
Fixpoint insert_all (fuel : nat) (this : loc) (vs : list (Key * T)) : W unit :=
  match vs with
  | [] => ret tt
  | v :: vs => insert fuel this v ;; insert_all fuel this vs
  end.

End map.

Notation "'let*' x := m 'in' k" := (bind m (λ x, k))
  (at level 10, x name, m at level 100, k at level 200).
Notation "m ;; k" := (bind m (λ _, k))
  (at level 100, k at level 200, right associativity).

Local Close Scope Z_scope.

(** ** The tree a heap represents *)

Section abstraction.

Context {Key T : Type}.
Variable comp : Key → Key → bool.
Variable T_default : T.

Local Abbreviation Node := (@Node Key T).
Local Abbreviation world := (@world Key T).

(** A binary tree whose nodes carry their address, colour and entry. *)
Inductive tree :=
| Leaf
| Tr (a : loc) (c : bool) (l : tree) (d : Key * T) (r : tree).

Definition tptr (t : tree) : ptr :=
  match t with
  | Leaf => None
  | Tr a _ _ _ _ => Some a
  end.

(** [rep h par t]: the heap [h] holds the nodes of [t], linked as the
    code links them, with [par] as the parent of the root of [t]. *)
Fixpoint rep (h : gmap loc Node) (par : ptr) (t : tree) : Prop :=
  match t with
  | Leaf => True
  | Tr a c l d r =>
    h !! a = Some (mkNode d (tptr l) (tptr r) par c)
    ∧ rep h (Some a) l ∧ rep h (Some a) r
  end.

(** In-order sequences. *)
Fixpoint addrs (t : tree) : list loc :=
  match t with
  | Leaf => []
  | Tr a _ l _ r => addrs l ++ a :: addrs r
  end.

Fixpoint entries (t : tree) : list (Key * T) :=
  match t with
  | Leaf => []
  | Tr _ _ l d r => entries l ++ d :: entries r
  end.

Definition keys (t : tree) : list Key := fst <$> entries t.

(** The nodes in order, each address with its entry. *)
Fixpoint nodes (t : tree) : list (loc * (Key * T)) :=
  match t with
  | Leaf => []
  | Tr a _ l d r => nodes l ++ (a, d) :: nodes r
  end.

Fixpoint node_count (t : tree) : nat :=
  match t with
  | Leaf => 0
  | Tr _ _ l _ r => S (node_count l + node_count r)
  end.

(** The number of nodes on a longest path from the root to a leaf. *)
Fixpoint height (t : tree) : nat :=
  match t with
  | Leaf => 0
  | Tr _ _ l _ r => S (Nat.max (height l) (height r))
  end.

(** *** The invariants of the data model *)

Definition key_lt (x y : Key) : Prop := comp x y = true.

(** Equivalent keys: neither compares less than the other. *)
Definition key_equiv (x y : Key) : Prop := comp x y = false ∧ comp y x = false.

(** The comparator is a strict weak ordering. *)
Record strict_weak_order : Prop := {
  swo_irrefl : ∀ x, comp x x = false;
  swo_trans : ∀ x y z, comp x y = true → comp y z = true → comp x z = true;
  swo_equiv_trans : ∀ x y z, key_equiv x y → key_equiv y z → key_equiv x z
}.

(** Invariants 1 and 2: the keys are strictly increasing in order. *)
Definition ordered (t : tree) : Prop := StronglySorted key_lt (keys t).

Definition red (t : tree) : bool :=
  match t with
  | Tr _ true _ _ _ => true
  | _ => false
  end.

(** No red node has a red child. *)
Fixpoint no_red_red (t : tree) : Prop :=
  match t with
  | Leaf => True
  | Tr _ c l _ r =>
    (c = true → red l = false ∧ red r = false) ∧ no_red_red l ∧ no_red_red r
  end.

(** Every path from the root of [t] to a null child passes [n] black nodes. *)
Fixpoint black_height (t : tree) (n : nat) : Prop :=
  match t with
  | Leaf => n = 0%nat
  | Tr _ c l _ r =>
    if c then black_height l n ∧ black_height r n
    else match n with
         | O => False
         | S m => black_height l m ∧ black_height r m
         end
  end.

(** Invariant 3. *)
Definition red_black (t : tree) : Prop :=
  red t = false ∧ no_red_red t ∧ ∃ n, black_height t n.

(** *** Contexts: a tree with a hole *)

Inductive frame :=
| FL (a : loc) (c : bool) (d : Key * T) (r : tree)
| FR (a : loc) (c : bool) (l : tree) (d : Key * T).

Definition fill (f : frame) (t : tree) : tree :=
  match f with
  | FL a c d r => Tr a c t d r
  | FR a c l d => Tr a c l d t
  end.

(** Frames are listed from the hole upwards. *)
Fixpoint plug (t : tree) (c : list frame) : tree :=
  match c with
  | [] => t
  | f :: up => plug (fill f t) up
  end.

Definition faddr (f : frame) : loc :=
  match f with
  | FL a _ _ _ => a
  | FR a _ _ _ => a
  end.

Definition fcolor (f : frame) : bool :=
  match f with
  | FL _ c _ _ => c
  | FR _ c _ _ => c
  end.

Definition fsib (f : frame) : tree :=
  match f with
  | FL _ _ _ r => r
  | FR _ _ l _ => l
  end.

Definition fdata (f : frame) : Key * T :=
  match f with
  | FL _ _ d _ => d
  | FR _ _ _ d => d
  end.

(** The parent of the hole. *)
Definition cptr (c : list frame) : ptr :=
  match c with
  | [] => None
  | f :: _ => Some (faddr f)
  end.

(** The root of [plug t c] when [hole] is the root of [t]. *)
Fixpoint croot (hole : ptr) (c : list frame) : ptr :=
  match c with
  | [] => hole
  | f :: up => croot (Some (faddr f)) up
  end.

Fixpoint crep (h : gmap loc Node) (hole : ptr) (c : list frame) : Prop :=
  match c with
  | [] => True
  | f :: up =>
    match f with
    | FL a col d r =>
      h !! a = Some (mkNode d hole (tptr r) (cptr up) col) ∧ rep h (Some a) r
    | FR a col l d =>
      h !! a = Some (mkNode d (tptr l) hole (cptr up) col) ∧ rep h (Some a) l
    end ∧ crep h (Some (faddr f)) up
  end.

Fixpoint caddrs (c : list frame) : list loc :=
  match c with
  | [] => []
  | f :: up => faddr f :: addrs (fsib f) ++ caddrs up
  end.

(** What precedes and what follows the hole in order. *)
Fixpoint caddrs_before (c : list frame) : list loc :=
  match c with
  | [] => []
  | FL _ _ _ _ :: up => caddrs_before up
  | FR a _ l _ :: up => caddrs_before up ++ addrs l ++ [a]
  end.

Fixpoint caddrs_after (c : list frame) : list loc :=
  match c with
  | [] => []
  | FL a _ _ r :: up => a :: addrs r ++ caddrs_after up
  | FR _ _ _ _ :: up => caddrs_after up
  end.

Fixpoint cnodes_before (c : list frame) : list (loc * (Key * T)) :=
  match c with
  | [] => []
  | FL _ _ _ _ :: up => cnodes_before up
  | FR a _ l d :: up => cnodes_before up ++ nodes l ++ [(a, d)]
  end.

Fixpoint cnodes_after (c : list frame) : list (loc * (Key * T)) :=
  match c with
  | [] => []
  | FL a _ d r :: up => (a, d) :: nodes r ++ cnodes_after up
  | FR _ _ _ _ :: up => cnodes_after up
  end.

Fixpoint centries_before (c : list frame) : list (Key * T) :=
  match c with
  | [] => []
  | FL _ _ _ _ :: up => centries_before up
  | FR _ _ l d :: up => centries_before up ++ entries l ++ [d]
  end.

Fixpoint centries_after (c : list frame) : list (Key * T) :=
  match c with
  | [] => []
  | FL _ _ d r :: up => d :: entries r ++ centries_after up
  | FR _ _ _ _ :: up => centries_after up
  end.

(** *** The search descent *)

(** The descent shared by [findNode] and [insert]: it stops at the node
    whose key is equivalent to [key], or at the null child where such a
    node would be. *)
Fixpoint descend (key : Key) (t : tree) (c : list frame) : tree * list frame :=
  match t with
  | Leaf => (Leaf, c)
  | Tr a col l d r =>
    if comp key (fst d) then descend key l (FL a col d r :: c)
    else if comp (fst d) key then descend key r (FR a col l d :: c)
    else (t, c)
  end.

(** The comparisons that led the descent through a frame. *)
Definition frame_side (key : Key) (f : frame) : Prop :=
  match f with
  | FL _ _ d _ => comp key (fst d) = true
  | FR _ _ _ d => comp key (fst d) = false ∧ comp (fst d) key = true
  end.

(** *** The red-black invariant, seen from a hole *)

Definition parent_black (c : list frame) : Prop :=
  match c with
  | [] => True
  | f :: _ => fcolor f = false
  end.

(** [ctx_ok c m]: the frames of [c] satisfy the red-black rules around a
    hole that stands for a subtree of black height [m]; nothing is asked
    of the colours of the hole and of its parent taken together. *)
Fixpoint ctx_ok (c : list frame) (m : nat) : Prop :=
  match c with
  | [] => True
  | f :: up =>
    no_red_red (fsib f) ∧ black_height (fsib f) m
    ∧ (fcolor f = true → red (fsib f) = false ∧ parent_black up)
    ∧ ctx_ok up (if fcolor f then m else S m)
  end.

(** The root of [plug t c] is black when [c] is not empty. *)
Definition top_black (c : list frame) : Prop :=
  match last c with
  | Some f => fcolor f = false
  | None => True
  end.

(** *** What [fixInsert] computes *)

Definition set_black (t : tree) : tree :=
  match t with
  | Leaf => Leaf
  | Tr a _ l d r => Tr a false l d r
  end.

(** The subtree that replaces the grandparent when the uncle is black:
    [zt] is the subtree at [z], [p] the frame of its parent and [g] the
    frame of its grandparent. *)
Definition rotate_fix (zt : tree) (p g : frame) : tree :=
  match g, p with
  | FL ga _ dg u, FL pa _ dp pr =>
    Tr pa false zt dp (Tr ga true pr dg u)
  | FL ga _ dg u, FR pa _ pl dp =>
    match zt with
    | Tr z _ zl dz zr => Tr z false (Tr pa true pl dp zl) dz (Tr ga true zr dg u)
    | Leaf => Leaf
    end
  | FR ga _ u dg, FR pa _ pl dp =>
    Tr pa false (Tr ga true u dg pl) dp zt
  | FR ga _ u dg, FL pa _ dp pr =>
    match zt with
    | Tr z _ zl dz zr => Tr z false (Tr ga true u dg zl) dz (Tr pa true zr dp pr)
    | Leaf => Leaf
    end
  end.

(** The subtree at the grandparent after the red-uncle recolouring. *)
Definition recolor_fix (zt : tree) (p g : frame) : tree :=
  match g with
  | FL ga _ dg u => Tr ga true (set_black (fill p zt)) dg (set_black u)
  | FR ga _ u dg => Tr ga true (set_black u) dg (set_black (fill p zt))
  end.

(** The tree the loop of [fixInsert] leaves, started at the root of [zt]
    under the frames [c]. *)
Fixpoint fixInsert_tree (zt : tree) (c : list frame) : tree :=
  match c with
  | [] => zt
  | p :: rest =>
    if fcolor p then
      match rest with
      | [] => plug zt c
      | g :: up =>
        if red (fsib g) then fixInsert_tree (recolor_fix zt p g) up
        else plug (rotate_fix zt p g) up
      end
    else plug zt c
  end.

(** The tree after [insert] of an entry whose node is placed at [z]. *)
Definition insert_tree (z : loc) (value : Key * T) (t : tree) : tree :=
  match descend (fst value) t [] with
  | (Leaf, c) => set_black (fixInsert_tree (Tr z true Leaf value Leaf) c)
  | (Tr _ _ _ _ _, _) => t
  end.

(** *** What [erase] computes *)

(** What stays at the replacement position when a node of colour [col]
    is spliced out and no rotation is needed: the replacement is
    blackened when the node was black. *)
Definition splice (col : bool) (t : tree) : tree :=
  if col then t else set_black t.

(** The leftmost node of [t], the one [minimum] stops at, with the path
    to it. *)
Fixpoint leftmost (t : tree) (c : list frame) : tree * list frame :=
  match t with
  | Leaf => (Leaf, c)
  | Tr a col l d r =>
    match l with
    | Leaf => (t, c)
    | Tr _ _ _ _ _ => leftmost l (FL a col d r :: c)
    end
  end.

(** The first half of [erase] at a node of colour [cz] with subtrees
    [l] and [r] under the context [c]: the original colour of the node
    that is spliced out, the subtree [x] that takes its place, and the
    context of [x] once the successor, if it is used, has taken the
    place of the erased node. *)
Definition erase_plan (cz : bool) (l r : tree) (c : list frame)
    : bool * tree * list frame :=
  match l, r with
  | Leaf, _ => (cz, r, c)
  | _, Leaf => (cz, l, c)
  | _, _ =>
    match leftmost r [] with
    | (Tr y cy _ dy yr, cr) => (cy, yr, cr ++ FR y cz l dy :: c)
    | (Leaf, _) => (cz, Leaf, c)
    end
  end.

(** [fixDelete] returns at once: nothing to repair, or [x] is the root,
    or [x] is red. *)
Definition fix_ok (yoc : bool) (x : tree) (cx : list frame) : bool :=
  yoc || bool_decide (cx = []) || red x.

(** The tree after [erase], when [fixDelete] has no loop to run. *)
Definition erase_zip (cz : bool) (l r : tree) (c : list frame) : option tree :=
  let '(yoc, x, cx) := erase_plan cz l r c in
  if fix_ok yoc x cx then Some (plug (splice yoc x) cx) else None.

(** The end of [erase], from the test of [y_original_color] on. *)
Definition erase_tail (fuel : nat) (this : loc) (z x : ptr)
    (y_original_color : bool) : @W Key T unit :=
  (if negb y_original_color then fixDelete fuel this x else ret tt) ;;
  delete_Node z ;;
  let* n := get_tree_size this in
  set_tree_size this (size_t_wrap (n - 1)).

(** *** A map object and its tree *)

(** The object [this] has the tree [plug t c] with [n] in [tree_size]. *)
Definition zip_at (w : world) (this : loc) (t : tree) (c : list frame) (n : Z) : Prop :=
  objs w !! this = Some (mkMap (croot (tptr t) c) n)
  ∧ rep (heap w) (cptr c) t
  ∧ crep (heap w) (tptr t) c
  ∧ NoDup (addrs t ++ caddrs c).

(** Invariant 4 included: [tree_size] is the number of nodes (as a [size_t]). *)
Definition owns (w : world) (this : loc) (t : tree) : Prop :=
  zip_at w this t [] (size_t_wrap (Z.of_nat (node_count t))).

(** The heap is unchanged outside the addresses [S]. *)
Definition heap_frame (S : list loc) (h h' : gmap loc Node) : Prop :=
  ∀ a, a ∉ S → h' !! a = h !! a.

(** Every other map object is unchanged. *)
Definition objs_frame (this : loc) (o o' : gmap loc map) : Prop :=
  ∀ a, a ≠ this → o' !! a = o !! a.

(** Two trees that differ in the addresses of their nodes only. *)
Fixpoint same_shape (t t' : tree) : Prop :=
  match t, t' with
  | Leaf, Leaf => True
  | Tr _ c l d r, Tr _ c' l' d' r' =>
    c = c' ∧ d = d' ∧ same_shape l l' ∧ same_shape r r'
  | _, _ => False
  end.

(** What an operation on [this] leaves alone: the heap outside [S], the
    other objects, and the set of allocated nodes. *)
Definition world_frame (this : loc) (S : list loc) (w w' : world) : Prop :=
  heap_frame S (heap w) (heap w')
  ∧ objs_frame this (objs w) (objs w')
  ∧ dom (heap w') = dom (heap w).

(** The same for [erase], which frees the node [z]. *)
Definition erase_frame (this z : loc) (S : list loc) (w w' : world) : Prop :=
  heap_frame S (heap w) (heap w')
  ∧ objs_frame this (objs w) (objs w')
  ∧ dom (heap w') = dom (heap w) ∖ {[z]}.

(** Entries in strictly increasing key order. *)
Definition entries_sorted (es : list (Key * T)) : Prop :=
  StronglySorted key_lt (fst <$> es).

(** What an operation that turns the tree [t] of [this] into [t'] does
    to the rest: the other nodes that exist stay as they are, the nodes
    of [t'] are nodes of [t] or new ones, the other objects stay. *)
Definition updates (this : loc) (t t' : tree) (w w' : world) : Prop :=
  (∀ a, is_Some (heap w !! a) → a ∉ addrs t → heap w' !! a = heap w !! a)
  ∧ (∀ a, a ∈ addrs t' → a ∈ addrs t ∨ heap w !! a = None)
  ∧ objs_frame this (objs w) (objs w').

(** The nodes that are allocated after an operation that turns the tree
    [t] into [t']: the nodes of [t'], and the nodes that were allocated
    and are not nodes of [t]. *)
Definition allocated_after (t t' : tree) (w w' : world) : Prop :=
  ∀ a, is_Some (heap w' !! a) →
       a ∈ addrs t' ∨ (is_Some (heap w !! a) ∧ a ∉ addrs t).

(** *** Programs over the public interface *)

(** [m], run with enough fuel, ends in [r]. *)
Definition returns {A} (m : nat → @W Key T A) (w : world) (r : res world A) : Prop :=
  ∃ f0, ∀ fuel, (f0 ≤ fuel)%nat → m fuel w = r.

(** The operations that change a map. *)
Inductive op :=
| OpNew
| OpCopy (other : loc)
| OpAssign (this other : loc)
| OpInsert (this : loc) (value : Key * T)
| OpErase (this : loc) (pos : iterator)
| OpSubscript (this : loc) (key : Key)
| OpClear (this : loc).

Definition run_op (o : op) (fuel : nat) : @W Key T unit :=
  match o with
  | OpNew => map_ctor ;; ret tt
  | OpCopy other => map_copy_ctor fuel other ;; ret tt
  | OpAssign this other => map_assign fuel this other
  | OpInsert this value => insert comp fuel this value ;; ret tt
  | OpErase this pos => erase fuel this pos
  | OpSubscript this key => subscript comp T_default fuel this key ;; ret tt
  | OpClear this => clear fuel this
  end.

(** The iterators [erase] may be given: [end()], an iterator of another
    map, or an iterator at a node of the map.  An iterator at a node
    that has been erased is invalid and must not be used. *)
Definition valid_pos (w : world) (this : loc) (pos : iterator) : Prop :=
  container pos ≠ Some this ∨ node pos = None
  ∨ ∃ t z, owns w this t ∧ node pos = Some z ∧ z ∈ addrs t.

(** What the language asks of the arguments: the argument of the copy
    constructor is an object that exists, the one of [erase] is a valid
    iterator. *)
Definition valid_op (w : world) (o : op) : Prop :=
  match o with
  | OpCopy other => is_Some (objs w !! other)
  | OpErase this pos => valid_pos w this pos
  | _ => True
  end.

(** The object an operation writes to, if it exists already. *)
Definition touches (o : op) (j : loc) : Prop :=
  match o with
  | OpNew | OpCopy _ => False
  | OpAssign this _ | OpInsert this _ | OpErase this _
  | OpSubscript this _ | OpClear this => this = j
  end.

(** One operation that returns, normally or with an exception. *)
Definition step (w : world) (o : op) (w' : world) : Prop :=
  valid_op w o
  ∧ (returns (run_op o) w (Ok tt w') ∨ ∃ e, returns (run_op o) w (Throw e w')).

Inductive steps : world → list op → world → Prop :=
| steps_nil w : steps w [] w
| steps_cons w o w1 os w2 :
    step w o w1 → steps w1 os w2 → steps w (o :: os) w2.

(** The state after the operations [os], each run with [fuel]; an
    operation that does not return ends the run. *)
Fixpoint run_ops (fuel : nat) (os : list op) (w : world) : world :=
  match os with
  | [] => w
  | o :: os =>
    match run_op o fuel w with
    | Ok _ w' | Throw _ w' => run_ops fuel os w'
    | _ => w
    end
  end.

(** The states a program reaches from no map at all. *)
Definition reachable (w : world) : Prop :=
  ∃ os, steps (mkWorld ∅ ∅) os w.

(** Every map object owns a red-black search tree, and no two maps
    share a node; [M] names the tree of each object. *)
Definition world_inv (M : gmap loc tree) (w : world) : Prop :=
  dom M = dom (objs w)
  ∧ (∀ i t, M !! i = Some t → owns w i t ∧ red_black t ∧ ordered t)
  ∧ (∀ i j ti tj, i ≠ j → M !! i = Some ti → M !! j = Some tj →
       ∀ a, a ∈ addrs ti → a ∉ addrs tj).

End abstraction.

(** ** An example: a map from integers to integers *)

(** The map after [m[10] = 1; m[20] = 2; m[5] = 3; m[15] = 4]: the
    nodes are numbered in the order of their allocation. *)
Definition ex_right : @tree Z Z :=
  Tr 2%positive false (Tr 4%positive true Leaf (15, 4)%Z Leaf) (20, 2)%Z Leaf.

Definition ex_tree : @tree Z Z :=
  Tr 1%positive false (Tr 3%positive false Leaf (5, 3)%Z Leaf) (10, 1)%Z ex_right.

Definition ex_heap : gmap loc (@Node Z Z) :=
  <[1%positive := mkNode (10, 1)%Z (Some 3%positive) (Some 2%positive) None false]>
  (<[2%positive := mkNode (20, 2)%Z (Some 4%positive) None (Some 1%positive) false]>
  (<[3%positive := mkNode (5, 3)%Z None None (Some 1%positive) false]>
  (<[4%positive := mkNode (15, 4)%Z None None (Some 2%positive) true]> ∅))).

Definition ex_world : @world Z Z :=
  mkWorld ex_heap (<[1%positive := mkMap (Some 1%positive) 4%Z]> ∅).

Definition ex_entries : list (Z * Z) := [(10, 1); (20, 2); (5, 3); (15, 4)]%Z.

Definition ex_ops : list (@op Z Z) :=
  [OpNew; OpInsert 1%positive (10, 1)%Z; OpInsert 1%positive (20, 2)%Z;
   OpInsert 1%positive (5, 3)%Z; OpInsert 1%positive (15, 4)%Z].

(** The program goes on: [m.erase(m.find(15)); map c(m); c[7]; m = c;
    c.clear(); m.erase(m.end())], the last call throwing. *)
Definition ex_more : list (@op Z Z) :=
  [OpErase 1%positive (mkIter (Some 4%positive) (Some 1%positive));
   OpCopy 1%positive;
   OpSubscript 2%positive 7%Z;
   OpAssign 1%positive 2%positive;
   OpClear 2%positive;
   OpErase 1%positive (mkIter None (Some 1%positive))].

Definition ex_world2 : @world Z Z :=
  Eval vm_compute in run_ops Z.ltb 0%Z 8 ex_more ex_world.

(** The example map after [m.erase(m.find(15))]. *)
Definition ex_world_erased : @world Z Z :=
  Eval vm_compute in
    run_ops Z.ltb 0%Z 5
      [OpErase 1%positive (mkIter (Some 4%positive) (Some 1%positive))] ex_world.

(** The path from the node of key 15 to the root of the example. *)
Definition ex_path : list (@frame Z Z) :=
  [FL 2%positive false (20, 2)%Z Leaf;
   FR 1%positive false (Tr 3%positive false Leaf (5, 3)%Z Leaf) (10, 1)%Z].

(** The program of the failing input: four insertions, then [erase] of
    the entry of key 5. *)
Definition ex_erase_5 (fuel : nat) : @W Z Z unit :=
  let* m := map_ctor in
  insert_all Z.ltb fuel m ex_entries ;;
  let* it := find Z.ltb fuel m 5%Z in
  erase fuel m it.


(** ** Heap representation lemmas *)

(** Membership in a list built from [::] and [++]. *)
Ltac elem_tac :=
  solve [ assumption
        | apply list_elem_of_here
        | apply list_elem_of_further; elem_tac
        | apply elem_of_app; left; elem_tac
        | apply elem_of_app; right; elem_tac ].

Ltac elem_split H :=
  repeat first
    [ apply elem_of_nil in H; destruct H
    | apply elem_of_app in H as [H|H]
    | apply elem_of_cons in H as [H|H]; [subst|] ].

Ltac find_contra :=
  match goal with
  | H : ?a ∉ _ |- _ => apply H; elem_tac
  | H : ∀ y, y ∈ _ → y ∉ _ , a : loc |- _ => apply (H a); elem_tac
  | H : ∀ y, y ∈ _ → y ∉ _ , a : positive |- _ => apply (H a); elem_tac
  end.

(** Separation facts that follow from the [NoDup] hypotheses at hand. *)
Ltac wne :=
  solve [ done
        | let Hx := fresh "Hx" in
          intros Hx; first [ progress subst | elem_split Hx ]; find_contra ].

Section rep_lemmas.

Context {Key T : Type}.

Local Abbreviation Node := (@Node Key T).
Local Abbreviation world := (@world Key T).
Local Abbreviation tree := (@tree Key T).
Local Abbreviation frame := (@frame Key T).
Local Abbreviation W := (@W Key T).

Implicit Types (h : gmap loc Node) (t l r : tree) (c : list frame) (w : world).

Lemma ptr_eqb_refl (p : ptr) : ptr_eqb p p = true.
Proof. unfold ptr_eqb. by rewrite bool_decide_eq_true. Qed.

Lemma ptr_eqb_ne (p q : ptr) : p ≠ q → ptr_eqb p q = false.
Proof. intros. unfold ptr_eqb. by rewrite bool_decide_eq_false. Qed.

Lemma ptr_eqb_Some_None a : ptr_eqb (Some a) None = false.
Proof. done. Qed.

Lemma tptr_Some_elem t a : tptr t = Some a → a ∈ addrs t.
Proof. destruct t; simpl; [done|]. intros [= ->]. set_solver. Qed.

Lemma tptr_ne t a : a ∉ addrs t → Some a ≠ tptr t.
Proof. intros Ha Heq. apply Ha, tptr_Some_elem. done. Qed.

Lemma tptr_ne_sym t a : a ∉ addrs t → tptr t ≠ Some a.
Proof. intros Ha Heq. apply Ha, tptr_Some_elem. done. Qed.

Lemma Some_ne (a b : loc) : a ≠ b → Some a ≠ Some b.
Proof. congruence. Qed.

Lemma rep_frame h h' par t :
  (∀ a, a ∈ addrs t → h' !! a = h !! a) → rep h par t → rep h' par t.
Proof.
  revert par. induction t as [|a c l IHl d r IHr]; simpl; [done|].
  intros par Hag (Ha & Hl & Hr). split_and!.
  - rewrite Hag; [done|]. set_solver.
  - apply IHl; [|done]. intros; apply Hag. set_solver.
  - apply IHr; [|done]. intros; apply Hag. set_solver.
Qed.

Lemma rep_insert_ne h par t a n :
  a ∉ addrs t → rep h par t → rep (<[a := n]> h) par t.
Proof.
  intros Ha. apply rep_frame. intros b Hb.
  apply lookup_insert_ne. set_solver.
Qed.

Lemma rep_delete_ne h par t a :
  a ∉ addrs t → rep h par t → rep (delete a h) par t.
Proof.
  intros Ha. apply rep_frame. intros b Hb.
  apply lookup_delete_ne. set_solver.
Qed.

Lemma rep_dom h par t a : rep h par t → a ∈ addrs t → is_Some (h !! a).
Proof.
  revert par. induction t as [|b c l IHl d r IHr]; simpl; [set_solver|].
  intros par (Hb & Hl & Hr) Ha.
  apply elem_of_app in Ha as [Ha|Ha]; [by eapply IHl|].
  apply elem_of_cons in Ha as [->|Ha]; [by eexists|by eapply IHr].
Qed.

(** Re-parenting the root of a subtree. *)
Lemma rep_set_parent h par par' t a n :
  tptr t = Some a → h !! a = Some n → NoDup (addrs t) →
  rep h par t → rep (<[a := with_parent par' n]> h) par' t.
Proof.
  destruct t as [|b c l d r]; simpl; [done|].
  intros [= ->] Hn Hnd (Ha & Hl & Hr).
  rewrite Ha in Hn. injection Hn as <-.
  apply NoDup_app in Hnd as (Hndl & Hd & Hndr).
  apply NoDup_cons in Hndr as [Har Hndr].
  split_and!.
  - by rewrite lookup_insert_eq.
  - apply rep_insert_ne; [|done]. set_solver.
  - apply rep_insert_ne; [|done]. set_solver.
Qed.

Lemma crep_frame h h' hole c :
  (∀ a, a ∈ caddrs c → h' !! a = h !! a) → crep h hole c → crep h' hole c.
Proof.
  revert hole. induction c as [|f up IH]; simpl; [done|].
  intros hole Hag (Hf & Hup). split.
  - destruct f; simpl in *; destruct Hf as [Ha Hs]; (split;
      [rewrite Hag; [done|set_solver] | eapply rep_frame; [|done]; intros; apply Hag; set_solver]).
  - apply IH; [|done]. intros; apply Hag. set_solver.
Qed.

Lemma crep_insert_ne h hole c a n :
  a ∉ caddrs c → crep h hole c → crep (<[a := n]> h) hole c.
Proof.
  intros Ha. apply crep_frame. intros b Hb.
  apply lookup_insert_ne. set_solver.
Qed.

Lemma crep_dom h hole c a : crep h hole c → a ∈ caddrs c → is_Some (h !! a).
Proof.
  revert hole. induction c as [|f up IH]; simpl; [set_solver|].
  intros hole (Hf & Hup) Ha.
  apply elem_of_cons in Ha as [->|Ha].
  { destruct f; simpl in *; destruct Hf as [Hf _]; by eexists. }
  apply elem_of_app in Ha as [Ha|Ha]; [|by eapply IH].
  destruct f; simpl in *; destruct Hf as [_ Hf]; by eapply rep_dom.
Qed.

Lemma fresh_not_in_rep h par t : fresh (dom h) ∉ addrs t ∨ ¬ rep h par t.
Proof.
  destruct (decide (fresh (dom h) ∈ addrs t)) as [Hin|]; [right|by left].
  intros Hrep. destruct (rep_dom _ _ _ _ Hrep Hin) as [n Hn].
  apply (is_fresh (dom h)). apply elem_of_dom. by eexists.
Qed.

Lemma fresh_rep h par t : rep h par t → fresh (dom h) ∉ addrs t.
Proof. intros Hrep. by destruct (fresh_not_in_rep h par t). Qed.

Lemma fresh_crep h hole c : crep h hole c → fresh (dom h) ∉ caddrs c.
Proof.
  intros Hrep Hin. destruct (crep_dom _ _ _ _ Hrep Hin) as [n Hn].
  apply (is_fresh (dom h)). apply elem_of_dom. by eexists.
Qed.

Lemma fresh_lookup h : h !! fresh (dom h) = None.
Proof. apply not_elem_of_dom, is_fresh. Qed.

Lemma tptr_fill f t : tptr (fill f t) = Some (faddr f).
Proof. by destruct f. Qed.

Lemma tptr_plug t c : tptr (plug t c) = croot (tptr t) c.
Proof.
  revert t. induction c as [|f up IH]; simpl; [done|].
  intros t. by rewrite IH, tptr_fill.
Qed.

Lemma croot_ne (a b : loc) c : a ≠ b → a ∉ caddrs c → Some a ≠ croot (Some b) c.
Proof.
  revert b. induction c as [|f up IH]; intros b Hab Hc; simpl.
  - congruence.
  - apply IH; set_solver.
Qed.

Lemma croot_ne_sym (a b : loc) c : a ≠ b → a ∉ caddrs c → croot (Some b) c ≠ Some a.
Proof. intros. apply not_eq_sym. by apply croot_ne. Qed.

Lemma caddrs_app c1 c2 : caddrs (c1 ++ c2) = caddrs c1 ++ caddrs c2.
Proof.
  induction c1 as [|f c1 IH]; simpl; [done|]. by rewrite IH, <- app_assoc.
Qed.

Lemma cptr_ne (a : loc) c : a ∉ caddrs c → Some a ≠ cptr c.
Proof. destruct c as [|f up]; simpl; [done|]. intros Ha [= ->]. set_solver. Qed.

Lemma cptr_ne_sym (a : loc) c : a ∉ caddrs c → cptr c ≠ Some a.
Proof. intros. apply not_eq_sym. by apply cptr_ne. Qed.

Lemma rep_plug h t c :
  rep h None (plug t c) ↔ rep h (cptr c) t ∧ crep h (tptr t) c.
Proof.
  revert t. induction c as [|f up IH]; intros t; simpl; [naive_solver|].
  rewrite IH, tptr_fill. destruct f; simpl; naive_solver.
Qed.

Lemma addrs_plug t c :
  addrs (plug t c) = caddrs_before c ++ addrs t ++ caddrs_after c.
Proof.
  revert t. induction c as [|f up IH]; intros t; simpl.
  - by rewrite app_nil_r.
  - rewrite IH. destruct f; simpl; by rewrite <- ?app_assoc.
Qed.

Lemma entries_plug t c :
  entries (plug t c) = centries_before c ++ entries t ++ centries_after c.
Proof.
  revert t. induction c as [|f up IH]; intros t; simpl.
  - by rewrite app_nil_r.
  - rewrite IH. destruct f; simpl; by rewrite <- ?app_assoc.
Qed.

Lemma caddrs_perm c : caddrs c ≡ₚ caddrs_before c ++ caddrs_after c.
Proof.
  induction c as [|f up IH]; simpl; [done|].
  destruct f; simpl; rewrite IH; solve_Permutation.
Qed.

Lemma addrs_plug_perm t c : addrs (plug t c) ≡ₚ addrs t ++ caddrs c.
Proof. rewrite addrs_plug, caddrs_perm. solve_Permutation. Qed.

Lemma count_length t : node_count t = length (addrs t).
Proof.
  induction t as [|a c l IHl d r IHr]; simpl; [done|].
  rewrite length_app. simpl. lia.
Qed.

Lemma entries_length t : length (entries t) = length (addrs t).
Proof.
  induction t as [|a c l IHl d r IHr]; simpl; [done|].
  rewrite !length_app. simpl. lia.
Qed.

Lemma submseteq_NoDup (l k : list loc) : l ⊆+ k → NoDup k → NoDup l.
Proof.
  intros (k' & Hk)%submseteq_Permutation Hnd. rewrite Hk in Hnd.
  by apply NoDup_app in Hnd as (? & _).
Qed.

Lemma crep_delete_ne h hole c a :
  a ∉ caddrs c → crep h hole c → crep (delete a h) hole c.
Proof.
  intros Ha. apply crep_frame. intros b Hb.
  apply lookup_delete_ne. set_solver.
Qed.

Lemma heap_frame_perm (S S' : list loc) h h' :
  S ≡ₚ S' → heap_frame S h h' → heap_frame S' h h'.
Proof. intros HS Hf a Ha. apply Hf. by rewrite HS. Qed.

Lemma heap_frame_trans (S : list loc) h1 h2 h3 :
  heap_frame S h1 h2 → heap_frame S h2 h3 → heap_frame S h1 h3.
Proof. intros H1 H2 a Ha. rewrite H2, H1; done. Qed.

Lemma heap_frame_refl (S : list loc) h : heap_frame S h h.
Proof. by intros a Ha. Qed.

Lemma heap_frame_mono (S S' : list loc) h h' :
  (∀ a, a ∈ S → a ∈ S') → heap_frame S h h' → heap_frame S' h h'.
Proof. intros HS Hf a Ha. apply Hf. naive_solver. Qed.

Lemma heap_frame_insert (S : list loc) h h' a n :
  a ∈ S → heap_frame S h h' → heap_frame S h (<[a := n]> h').
Proof.
  intros HS Hf b Hb. rewrite lookup_insert_ne; [by apply Hf|]. congruence.
Qed.

Lemma objs_frame_trans this (o1 o2 o3 : gmap loc map) :
  objs_frame this o1 o2 → objs_frame this o2 o3 → objs_frame this o1 o3.
Proof. intros H1 H2 a Ha. rewrite H2, H1; done. Qed.

Lemma objs_frame_refl this (o : gmap loc map) : objs_frame this o o.
Proof. by intros a Ha. Qed.

End rep_lemmas.

(** ** Rotations *)

Ltac nodup_split H :=
  repeat match type of H with
  | NoDup (_ ++ _) => let H1 := fresh "Hnd" in let H2 := fresh "Hdj" in
        apply NoDup_app in H as (H1 & H2 & H); try nodup_split H1
  | NoDup (_ :: _) => let H1 := fresh "Hni" in
        apply NoDup_cons in H as (H1 & H)
  end.

(** Unfolds the memory primitives. *)
Ltac wunfold_core :=
  unfold get_grandparent, andW, orW,
    get_data, get_right, get_left, get_parent, get_color,
    set_left, set_right, set_parent, set_color,
    get_root, get_tree_size, set_root, set_tree_size,
    modify, deref, deref_obj, this_obj, put_obj, delete_Node, bind, ret.

Ltac wunfold :=
  unfold get_grandparent, is_red, is_black, blacken, andW, orW,
    get_data, get_right, get_left, get_parent, get_color,
    set_left, set_right, set_parent, set_color,
    get_root, get_tree_size, set_root, set_tree_size,
    modify, deref, deref_obj, this_obj, put_obj, delete_Node, bind, ret.


Ltac pne :=
  solve [ done
        | apply Some_ne; wne
        | apply tptr_ne; wne
        | apply tptr_ne_sym; wne
        | apply croot_ne; wne
        | apply croot_ne_sym; wne
        | apply cptr_ne; wne
        | apply cptr_ne_sym; wne ].

Ltac wlookup :=
  first
    [ rewrite lookup_insert_eq
    | rewrite lookup_insert_ne by wne
    | rewrite lookup_delete_ne by wne
    | match goal with H : _ !! _ = Some _ |- _ => rewrite H end
    | rewrite ptr_eqb_refl
    | rewrite ptr_eqb_ne by pne
    | match goal with
      | H : ?x = true |- context [if ?x then _ else _] => rewrite H
      | H : ?x = false |- context [if ?x then _ else _] => rewrite H
      end ].

(** Runs straight-line code on a world whose cells are known. *)
Ltac wexec := wunfold; simpl; repeat (wlookup; simpl).
Ltac wexec_core := wunfold_core; simpl; repeat (wlookup; simpl).

Ltac solve_rep :=
  repeat first [ apply rep_insert_ne; [wne|] | apply rep_delete_ne; [wne|] ];
  assumption.

Ltac solve_crep :=
  repeat first [ apply crep_insert_ne; [wne|] | apply crep_delete_ne; [wne|] ];
  assumption.

Ltac solve_cell :=
  simpl; repeat wlookup; unfold with_left, with_right, with_parent, with_color;
  simpl; reflexivity.

Ltac solve_dom :=
  simpl; repeat (rewrite dom_insert_lookup_L; [|repeat wlookup; by eexists]);
  reflexivity.

Ltac solve_heap_frame :=
  let a := fresh "a" in let Ha := fresh "Ha" in
  intros a Ha; simpl; repeat (rewrite lookup_insert_ne by wne); reflexivity.

Ltac solve_objs_frame :=
  let a := fresh "a" in let Ha := fresh "Ha" in
  intros a Ha; simpl; rewrite ?lookup_insert_ne by done; reflexivity.

(** [NoDup] of a rearrangement of a list known to be [NoDup]. *)
Ltac solve_nodup :=
  match goal with
  | H : NoDup ?l |- NoDup ?l' =>
    first [ refine (proj1 (NoDup_Permutation_proper l l' _) H); solve_Permutation
          | refine (submseteq_NoDup l' l _ H); solve_submseteq ]
  end.

Ltac solve_post :=
  simpl;
  try solve
    [ exact I
    | match goal with
      | |- NoDup _ => solve_nodup
      | |- rep _ _ _ => solve_rep
      | |- crep _ _ _ => solve_crep
      | |- _ !! _ = Some _ => solve_cell
      | |- heap_frame _ _ _ => solve_heap_frame
      | |- objs_frame _ _ _ => solve_objs_frame
      | |- dom _ = dom _ => solve_dom
      end ].

Section rotations.

Context {Key T : Type}.

Local Abbreviation Node := (@Node Key T).
Local Abbreviation world := (@world Key T).
Local Abbreviation tree := (@tree Key T).
Local Abbreviation frame := (@frame Key T).
Local Abbreviation W := (@W Key T).

Implicit Types (h : gmap loc Node) (t l r : tree) (c : list frame) (w : world).

Lemma leftRotate_zip w this n c x cx a dx y cy b dy g :
  zip_at w this (Tr x cx a dx (Tr y cy b dy g)) c n →
  ∃ w', leftRotate this (Some x) w = Ok tt w'
    ∧ zip_at w' this (Tr y cy (Tr x cx a dx b) dy g) c n
    ∧ heap_frame (addrs (Tr x cx a dx (Tr y cy b dy g)) ++ caddrs c) (heap w) (heap w')
    ∧ objs_frame this (objs w) (objs w')
    ∧ dom (heap w') = dom (heap w).
Proof.
  destruct w as [h o]. unfold zip_at. simpl.
  intros (Ho & (Hx & Ha & (Hy & Hb & Hg)) & Hc & Hnd).
  destruct b as [|b0 cb bl db br]; destruct c as [|[pa pc pd pr | pa pc pl pd] up];
    simpl in *; destruct_and?; pose proof Hnd as Hnd'; nodup_split Hnd;
    (eexists; split; [unfold leftRotate; wexec; reflexivity|]);
    split_and!; solve_post.
Qed.

Lemma rightRotate_zip w this n c x cx a dx y cy b dy g :
  zip_at w this (Tr x cx (Tr y cy a dy b) dx g) c n →
  ∃ w', rightRotate this (Some x) w = Ok tt w'
    ∧ zip_at w' this (Tr y cy a dy (Tr x cx b dx g)) c n
    ∧ heap_frame (addrs (Tr x cx (Tr y cy a dy b) dx g) ++ caddrs c) (heap w) (heap w')
    ∧ objs_frame this (objs w) (objs w')
    ∧ dom (heap w') = dom (heap w).
Proof.
  destruct w as [h o]. unfold zip_at. simpl.
  intros (Ho & (Hx & (Hy & Ha & Hb) & Hg) & Hc & Hnd).
  destruct b as [|b0 cb bl db br]; destruct c as [|[pa pc pd pr | pa pc pl pd] up];
    simpl in *; destruct_and?; pose proof Hnd as Hnd'; nodup_split Hnd;
    (eexists; split; [unfold rightRotate; wexec; reflexivity|]);
    split_and!; solve_post.
Qed.

End rotations.

(** ** The red-black invariant and contexts *)

Section rb_context.

Context {Key T : Type}.

Local Abbreviation tree := (@tree Key T).
Local Abbreviation frame := (@frame Key T).

Implicit Types (t zt l r zl zr : tree) (c up : list frame) (f p g : frame).

Lemma black_height_inj t m1 m2 :
  black_height t m1 → black_height t m2 → m1 = m2.
Proof.
  revert m1 m2. induction t as [|a col l IHl d r IHr]; simpl; intros m1 m2.
  - congruence.
  - destruct col.
    + intros [H1 _] [H2 _]. eauto.
    + destruct m1, m2; try done. intros [H1 _] [H2 _]. f_equal. eauto.
Qed.

Lemma red_fill f t : red (fill f t) = fcolor f.
Proof. by destruct f as [? [] ? ?|? [] ? ?]. Qed.

Lemma no_red_red_fill f t :
  no_red_red (fill f t) ↔
  (fcolor f = true → red t = false ∧ red (fsib f) = false)
  ∧ no_red_red t ∧ no_red_red (fsib f).
Proof. destruct f; simpl; naive_solver. Qed.

Lemma black_height_fill f t m :
  black_height t m → black_height (fsib f) m →
  black_height (fill f t) (if fcolor f then m else S m).
Proof. by destruct f as [? [] ? ?|? [] ? ?]; simpl. Qed.

Lemma black_height_fill_inv f t M :
  black_height (fill f t) M →
  ∃ m, black_height t m ∧ black_height (fsib f) m
       ∧ M = (if fcolor f then m else S m).
Proof.
  destruct f as [? [] ? ?|? [] ? ?]; simpl; try naive_solver;
    destruct M; naive_solver.
Qed.

Lemma plug_no_red_red t c m :
  ctx_ok c m → no_red_red t → (red t = true → parent_black c) →
  no_red_red (plug t c).
Proof.
  revert t m. induction c as [|f up IH]; intros t m; simpl; [done|].
  intros (Hs & Hb & Hcol & Hup) Ht Hred.
  eapply IH; [done| |].
  - apply no_red_red_fill. split_and!; [|done..].
    intros Hf. split; [|naive_solver].
    destruct (red t) eqn:Hr; [|done]. specialize (Hred eq_refl). congruence.
  - rewrite red_fill. naive_solver.
Qed.

Lemma plug_black_height t c m :
  ctx_ok c m → black_height t m → ∃ M, black_height (plug t c) M.
Proof.
  revert t m. induction c as [|f up IH]; intros t m; simpl; [eauto|].
  intros (Hs & Hb & Hcol & Hup) Ht.
  eapply IH; [done|]. by apply black_height_fill.
Qed.

Lemma plug_ctx_ok t c M :
  no_red_red (plug t c) → black_height (plug t c) M →
  ∃ m, ctx_ok c m ∧ no_red_red t ∧ black_height t m
       ∧ (red t = true → parent_black c).
Proof.
  revert t. induction c as [|f up IH]; intros t; simpl.
  - intros ??. exists M. done.
  - intros Hn Hb. destruct (IH _ Hn Hb) as (m' & Hup & Hnf & Hbf & Hrf).
    apply no_red_red_fill in Hnf as (Hcol & Hnt & Hns).
    apply black_height_fill_inv in Hbf as (m & Hbt & Hbs & ->).
    rewrite red_fill in Hrf.
    exists m. split_and!; try done.
    + intros Hf. split; [naive_solver|]. by apply Hrf.
    + intros Hr. destruct (fcolor f) eqn:Hf; [|done].
      destruct (Hcol eq_refl). congruence.
Qed.

Lemma red_plug t c : c ≠ [] → top_black c → red (plug t c) = false.
Proof.
  revert t. induction c as [|f up IH]; intros t; [done|]. intros _.
  unfold top_black. simpl. destruct up as [|g up'].
  - simpl. rewrite red_fill. done.
  - intros Hl. apply IH; [done|]. unfold top_black.
    by rewrite last_cons_cons in Hl.
Qed.

Lemma top_black_of_plug t c : c ≠ [] → red (plug t c) = false → top_black c.
Proof.
  revert t. induction c as [|f up IH]; intros t; [done|]. intros _.
  unfold top_black. simpl. destruct up as [|g up'].
  - simpl. by rewrite red_fill.
  - intros Hr. rewrite last_cons_cons. by eapply (IH (fill f t)).
Qed.

Lemma top_black_tail f c : c ≠ [] → top_black (f :: c) → top_black c.
Proof. destruct c; [done|]. unfold top_black. by rewrite last_cons_cons. Qed.

Lemma top_black_single f : top_black [f] → fcolor f = false.
Proof. done. Qed.

(** [height], [node_count] and the balance bound. *)
Lemma black_height_count t m :
  black_height t m → (2 ^ m ≤ node_count t + 1)%nat.
Proof.
  revert m. induction t as [|a col l IHl d r IHr]; simpl; intros m.
  - intros ->. simpl. lia.
  - destruct col.
    + intros [Hl Hr]. apply IHl in Hl. apply IHr in Hr. lia.
    + destruct m; [done|]. intros [Hl Hr].
      apply IHl in Hl. apply IHr in Hr. simpl. lia.
Qed.

Lemma black_height_height t m :
  no_red_red t → black_height t m →
  (height t ≤ 2 * m + (if red t then 1 else 0))%nat.
Proof.
  revert m. induction t as [|a col l IHl d r IHr]; simpl; intros m.
  - lia.
  - intros (Hc & Hnl & Hnr). destruct col.
    + intros [Hl Hr]. destruct (Hc eq_refl) as [Hrl Hrr].
      specialize (IHl _ Hnl Hl). specialize (IHr _ Hnr Hr).
      rewrite Hrl in IHl. rewrite Hrr in IHr. lia.
    + destruct m; [done|]. intros [Hl Hr].
      specialize (IHl _ Hnl Hl). specialize (IHr _ Hnr Hr).
      destruct (red l), (red r); lia.
Qed.

Lemma red_black_height t :
  red_black t → (2 ^ height t ≤ (node_count t + 1) ^ 2)%nat.
Proof.
  intros (Hr & Hn & m & Hb).
  pose proof (black_height_height _ _ Hn Hb) as Hh. rewrite Hr in Hh.
  pose proof (black_height_count _ _ Hb) as Hc.
  transitivity (2 ^ (2 * m))%nat.
  - apply Nat.pow_le_mono_r; lia.
  - rewrite Nat.pow_mul_r. replace (2 ^ 2)%nat with 4%nat by done.
    replace 4%nat with (2 ^ 2)%nat by done.
    rewrite <- Nat.pow_mul_r, (Nat.mul_comm 2 m), Nat.pow_mul_r.
    apply Nat.pow_le_mono_l. done.
Qed.

(** *** The tree computed by the insertion fix-up *)

Lemma addrs_set_black t : addrs (set_black t) = addrs t.
Proof. by destruct t. Qed.

Lemma entries_set_black t : entries (set_black t) = entries t.
Proof. by destruct t. Qed.

Lemma count_set_black t : node_count (set_black t) = node_count t.
Proof. by destruct t. Qed.

Lemma tptr_set_black t : tptr (set_black t) = tptr t.
Proof. by destruct t. Qed.

Lemma no_red_red_set_black t : no_red_red t → no_red_red (set_black t).
Proof. destruct t; simpl; naive_solver. Qed.

Lemma black_height_set_black t m :
  black_height t m → ∃ M, black_height (set_black t) M.
Proof.
  destruct t as [|a [] l d r]; simpl; [eauto| |eauto].
  intros. exists (S m). done.
Qed.

Lemma red_black_set_black t m :
  no_red_red t → black_height t m → red_black (set_black t).
Proof.
  intros Hn Hb. split_and!.
  - by destruct t.
  - by apply no_red_red_set_black.
  - by eapply black_height_set_black.
Qed.

Lemma addrs_fill f t :
  addrs (fill f t) ≡ₚ addrs t ++ faddr f :: addrs (fsib f).
Proof. destruct f; simpl; solve_Permutation. Qed.

Lemma addrs_recolor_fix zt p g :
  addrs (recolor_fix zt p g) = addrs (fill g (fill p zt)).
Proof.
  destruct g; simpl; by rewrite !addrs_set_black.
Qed.

Lemma entries_recolor_fix zt p g :
  entries (recolor_fix zt p g) = entries (fill g (fill p zt)).
Proof.
  destruct g; simpl; by rewrite !entries_set_black.
Qed.

Lemma addrs_rotate_fix zt p g :
  zt ≠ Leaf → addrs (rotate_fix zt p g) = addrs (fill g (fill p zt)).
Proof.
  destruct zt; [done|]. intros _.
  destruct p, g; simpl; by rewrite <- ?app_assoc; simpl; rewrite <- ?app_assoc.
Qed.

Lemma entries_rotate_fix zt p g :
  zt ≠ Leaf → entries (rotate_fix zt p g) = entries (fill g (fill p zt)).
Proof.
  destruct zt; [done|]. intros _.
  destruct p, g; simpl; by rewrite <- ?app_assoc; simpl; rewrite <- ?app_assoc.
Qed.

Lemma addrs_plug_ext t t' c : addrs t = addrs t' → addrs (plug t c) = addrs (plug t' c).
Proof. intros H. by rewrite !addrs_plug, H. Qed.

Lemma entries_plug_ext t t' c :
  entries t = entries t' → entries (plug t c) = entries (plug t' c).
Proof. intros H. by rewrite !entries_plug, H. Qed.

Lemma recolor_fix_not_Leaf zt p g : recolor_fix zt p g ≠ Leaf.
Proof. by destruct g. Qed.

Lemma fixInsert_tree_seq zt c :
  zt ≠ Leaf →
  addrs (fixInsert_tree zt c) = addrs (plug zt c)
  ∧ entries (fixInsert_tree zt c) = entries (plug zt c).
Proof.
  remember (length c) as k eqn:Hk. revert zt c Hk.
  induction k as [k IH] using lt_wf_ind. intros zt c -> Hzt.
  destruct c as [|p [|g up]]; simpl; [done|by destruct (fcolor p)|].
  destruct (fcolor p); [|done]. destruct (red (fsib g)).
  - destruct (IH (length up) ltac:(simpl; lia) (recolor_fix zt p g) up eq_refl
                 (recolor_fix_not_Leaf _ _ _)) as [-> ->].
    split; [apply addrs_plug_ext, addrs_recolor_fix
           |apply entries_plug_ext, entries_recolor_fix].
  - split; [by apply addrs_plug_ext, addrs_rotate_fix
           |by apply entries_plug_ext, entries_rotate_fix].
Qed.

Lemma fixInsert_tree_not_Leaf zt c : zt ≠ Leaf → fixInsert_tree zt c ≠ Leaf.
Proof.
  intros Hzt Heq. destruct (fixInsert_tree_seq zt c Hzt) as [Ha _].
  rewrite Heq, addrs_plug in Ha. destruct zt; [done|]. simpl in Ha.
  symmetry in Ha. apply app_eq_nil in Ha as [_ Ha].
  apply app_eq_nil in Ha as [Ha _]. apply app_eq_nil in Ha as [_ Ha]. done.
Qed.

Lemma fixInsert_tree_rb z zl dz zr c m :
  no_red_red (Tr z true zl dz zr) → black_height (Tr z true zl dz zr) m →
  ctx_ok c m → top_black c →
  no_red_red (fixInsert_tree (Tr z true zl dz zr) c)
  ∧ ∃ M, black_height (fixInsert_tree (Tr z true zl dz zr) c) M.
Proof.
  remember (length c) as k eqn:Hk. revert z zl dz zr c m Hk.
  induction k as [k IH] using lt_wf_ind. intros z zl dz zr c m -> Hn Hb Hc Ht.
  destruct c as [|p [|g up]].
  - simpl. eauto.
  - simpl. apply top_black_single in Ht. rewrite Ht.
    split; [eapply (plug_no_red_red _ [p]); naive_solver
           |eapply (plug_black_height _ [p]); naive_solver].
  - cbn [fixInsert_tree]. destruct (fcolor p) eqn:Hp.
    2:{ split; [eapply plug_no_red_red; [done..|]; simpl; naive_solver
               |by eapply plug_black_height]. }
    destruct Hc as (Hsn & Hsb & Hpc & Hc). rewrite Hp in Hc.
    destruct (Hpc Hp) as [Hsr Hg]. simpl in Hg.
    destruct Hc as (Hun & Hub & _ & Hc). rewrite Hg in Hc.
    assert (top_black up) as Htu.
    { destruct up; [done|]. do 2 eapply top_black_tail in Ht; done. }
    simpl in Hn, Hb. destruct Hn as (Hzc & Hnl & Hnr), Hb as [Hbl Hbr].
    destruct (Hzc eq_refl) as [Hrl Hrr].
    destruct (red (fsib g)) eqn:Hu.
    + destruct g as [ga gc dg u|ga gc u dg]; simpl in *; subst;
        (destruct u as [|ua [] ul du ur]; [done| |done]);
        (eapply (IH (length up)); [lia|done| | |done|done]);
        destruct p as [pa ? dp pr|pa ? pl dp]; simpl in *; subst; naive_solver.
    + destruct g as [ga gc dg u|ga gc u dg], p as [pa ? dp pr|pa ? pl dp];
        simpl in *; subst;
        (split; [eapply plug_no_red_red; [done| |done]
                |eapply plug_black_height; [done|]]); simpl; naive_solver.
Qed.

End rb_context.

(** ** [fixInsert] *)

Section fix_insert.

Context {Key T : Type}.

Local Abbreviation Node := (@Node Key T).
Local Abbreviation world := (@world Key T).
Local Abbreviation tree := (@tree Key T).
Local Abbreviation frame := (@frame Key T).
Local Abbreviation W := (@W Key T).

Implicit Types (h : gmap loc Node) (t l r : tree) (c : list frame) (w : world).

Lemma zip_fill w this t f up n :
  zip_at w this t (f :: up) n ↔ zip_at w this (fill f t) up n.
Proof.
  unfold zip_at. rewrite tptr_fill. simpl.
  assert (addrs t ++ faddr f :: addrs (fsib f) ++ caddrs up
          ≡ₚ addrs (fill f t) ++ caddrs up) as ->.
  { destruct f; simpl; solve_Permutation. }
  destruct f; simpl; naive_solver.
Qed.

Lemma fix_root w this n z cz zl dz zr fuel :
  zip_at w this (Tr z cz zl dz zr) [] n →
  fixInsert_loop (S fuel) this (Some z) w = Ok tt w.
Proof.
  destruct w as [h o]. unfold zip_at. simpl. intros (Ho & (Hz & _) & _).
  wexec. done.
Qed.

Lemma fix_black_parent w this n z cz zl dz zr p up fuel :
  zip_at w this (Tr z cz zl dz zr) (p :: up) n → fcolor p = false →
  fixInsert_loop (S fuel) this (Some z) w = Ok tt w.
Proof.
  destruct w as [h o]. unfold zip_at. simpl. intros (Ho & (Hz & _) & Hc & Hnd) Hp.
  nodup_split Hnd.
  destruct p; simpl in *; destruct_and?; subst; wexec; done.
Qed.

Lemma fix_red_uncle w this n z cz zl dz zr p g up fuel :
  zip_at w this (Tr z cz zl dz zr) (p :: g :: up) n →
  fcolor p = true → red (fsib g) = true →
  ∃ w', fixInsert_loop (S fuel) this (Some z) w
        = fixInsert_loop fuel this (Some (faddr g)) w'
    ∧ zip_at w' this (recolor_fix (Tr z cz zl dz zr) p g) up n
    ∧ world_frame this (addrs (Tr z cz zl dz zr) ++ caddrs (p :: g :: up)) w w'.
Proof.
  destruct w as [h o]. unfold zip_at, world_frame. simpl.
  intros (Ho & (Hz & Hzl & Hzr) & Hc & Hnd) Hp Hu.
  destruct p as [pa pc dp pr|pa pc pl dp], g as [ga gc dg u|ga gc u dg];
    simpl in *; subst; destruct u as [|ua [] ul du ur]; try done;
    simpl in *; destruct_and?; pose proof Hnd as Hnd'; nodup_split Hnd;
    (eexists; split; [wexec; reflexivity|]);
    split_and!; solve_post.
Qed.

Lemma is_red_black_tree h o par u :
  rep h par u → red u = false →
  is_red (tptr u) (mkWorld h o) = Ok false (mkWorld h o).
Proof. destruct u as [|? [] ? ? ?]; try done; simpl; intros; destruct_and?; wexec; done. Qed.

Ltac frame_via Hfr :=
  eapply heap_frame_trans;
  [ | eapply heap_frame_perm; [|exact Hfr]; simpl; solve_Permutation ];
  solve_heap_frame.

Lemma fix_rotate_LL w this n z cz zl dz zr pa pc dp pr ga gc dg u up fuel :
  zip_at w this (Tr z cz zl dz zr) (FL pa pc dp pr :: FL ga gc dg u :: up) n →
  pc = true → red u = false →
  ∃ w', fixInsert_loop (S (S fuel)) this (Some z) w = Ok tt w'
    ∧ zip_at w' this (rotate_fix (Tr z cz zl dz zr) (FL pa pc dp pr) (FL ga gc dg u)) up n
    ∧ world_frame this (addrs (Tr z cz zl dz zr) ++ caddrs (FL pa pc dp pr :: FL ga gc dg u :: up)) w w'.
Proof.
  destruct w as [h o]. unfold zip_at, world_frame.
  intros (Ho & (Hz & Hzl & Hzr) & Hc & Hnd) -> Hu. simpl in *.
  destruct_and?. pose proof Hnd as Hnd'; nodup_split Hnd.
  assert (Hisred := is_red_black_tree h o _ _ ltac:(eassumption) Hu).
  cbn [fixInsert_loop]. wexec_core. rewrite Hisred. simpl. wexec_core.
  match goal with |- context [rightRotate this (Some ga) ?W] =>
    destruct (rightRotate_zip W this n up ga true (Tr z cz zl dz zr) dg pa false pr dp u)
      as (w2 & Hrot & Hz2 & Hfr2 & Hof2 & Hdom2)
  end.
  { unfold zip_at; simpl; split_and!; solve_post. }
  rewrite Hrot. exists w2. split; [|split; [exact Hz2|split_and!]].
  - eapply fix_black_parent;
      [apply (zip_fill _ _ _ (FL pa false dp (Tr ga true pr dg u))); exact Hz2|done].
  - frame_via Hfr2.
  - exact Hof2.
  - rewrite Hdom2. solve_dom.
Qed.

Lemma fix_rotate_RL w this n z cz zl dz zr pa pc pl dp ga gc dg u up fuel :
  zip_at w this (Tr z cz zl dz zr) (FR pa pc pl dp :: FL ga gc dg u :: up) n →
  pc = true → red u = false →
  ∃ w', fixInsert_loop (S (S fuel)) this (Some z) w = Ok tt w'
    ∧ zip_at w' this (rotate_fix (Tr z cz zl dz zr) (FR pa pc pl dp) (FL ga gc dg u)) up n
    ∧ world_frame this (addrs (Tr z cz zl dz zr) ++ caddrs (FR pa pc pl dp :: FL ga gc dg u :: up)) w w'.
Proof.
  intros Hzip -> Hu.
  destruct (leftRotate_zip w this n (FL ga gc dg u :: up) pa true pl dp z cz zl dz zr)
    as (w1 & Hrot1 & Hz1 & Hfr1 & Hof1 & Hdom1).
  { by apply zip_fill in Hzip. }
  revert Hzip Hrot1 Hfr1 Hof1 Hdom1.
  destruct w as [h o]. unfold zip_at, world_frame.
  intros (Ho & (Hz & Hzl & Hzr) & Hc & Hnd) Hrot1 Hfr1 Hof1 Hdom1. simpl in *.
  destruct_and?. nodup_split Hnd.
  assert (Hisred := is_red_black_tree h o _ _ ltac:(eassumption) Hu).
  cbn [fixInsert_loop]. wexec_core. rewrite Hisred. simpl. wexec_core.
  rewrite Hrot1. simpl. clear Hrot1.
  destruct w1 as [h1 o1]. destruct Hz1 as (Ho1 & Hrep1 & Hc1 & Hnd1'). simpl in *.
  destruct_and?. pose proof Hnd1' as Hnd1''. nodup_split Hnd1'.
  wexec_core.
  match goal with |- context [rightRotate this (Some ga) ?W] =>
    destruct (rightRotate_zip W this n up ga true (Tr pa true pl dp zl) dg z false zr dz u)
      as (w2 & Hrot & Hz2 & Hfr2 & Hof2 & Hdom2)
  end.
  { unfold zip_at; simpl; split_and!; solve_post. }
  rewrite Hrot. exists w2. split; [|split; [exact Hz2|split_and!]].
  - eapply fix_black_parent;
      [apply (zip_fill _ _ _ (FL z false dz (Tr ga true zr dg u))); exact Hz2|done].
  - eapply heap_frame_trans; [eapply heap_frame_perm; [|exact Hfr1]; simpl; solve_Permutation|].
    frame_via Hfr2.
  - eapply objs_frame_trans; [exact Hof1|exact Hof2].
  - rewrite Hdom2. simpl in *. rewrite <- Hdom1. solve_dom.
Qed.

Lemma fix_rotate_RR w this n z cz zl dz zr pa pc pl dp ga gc u dg up fuel :
  zip_at w this (Tr z cz zl dz zr) (FR pa pc pl dp :: FR ga gc u dg :: up) n →
  pc = true → red u = false →
  ∃ w', fixInsert_loop (S (S fuel)) this (Some z) w = Ok tt w'
    ∧ zip_at w' this (rotate_fix (Tr z cz zl dz zr) (FR pa pc pl dp) (FR ga gc u dg)) up n
    ∧ world_frame this (addrs (Tr z cz zl dz zr) ++ caddrs (FR pa pc pl dp :: FR ga gc u dg :: up)) w w'.
Proof.
  destruct w as [h o]. unfold zip_at, world_frame.
  intros (Ho & (Hz & Hzl & Hzr) & Hc & Hnd) -> Hu. simpl in *.
  destruct_and?. pose proof Hnd as Hnd'; nodup_split Hnd.
  assert (Hisred := is_red_black_tree h o _ _ ltac:(eassumption) Hu).
  cbn [fixInsert_loop]. wexec_core. rewrite Hisred. simpl. wexec_core.
  match goal with |- context [leftRotate this (Some ga) ?W] =>
    destruct (leftRotate_zip W this n up ga true u dg pa false pl dp (Tr z cz zl dz zr))
      as (w2 & Hrot & Hz2 & Hfr2 & Hof2 & Hdom2)
  end.
  { unfold zip_at; simpl; split_and!; solve_post. }
  rewrite Hrot. exists w2. split; [|split; [exact Hz2|split_and!]].
  - eapply fix_black_parent;
      [apply (zip_fill _ _ _ (FR pa false (Tr ga true u dg pl) dp)); exact Hz2|done].
  - frame_via Hfr2.
  - exact Hof2.
  - rewrite Hdom2. solve_dom.
Qed.

Lemma fix_rotate_LR w this n z cz zl dz zr pa pc dp pr ga gc u dg up fuel :
  zip_at w this (Tr z cz zl dz zr) (FL pa pc dp pr :: FR ga gc u dg :: up) n →
  pc = true → red u = false →
  ∃ w', fixInsert_loop (S (S fuel)) this (Some z) w = Ok tt w'
    ∧ zip_at w' this (rotate_fix (Tr z cz zl dz zr) (FL pa pc dp pr) (FR ga gc u dg)) up n
    ∧ world_frame this (addrs (Tr z cz zl dz zr) ++ caddrs (FL pa pc dp pr :: FR ga gc u dg :: up)) w w'.
Proof.
  intros Hzip -> Hu.
  destruct (rightRotate_zip w this n (FR ga gc u dg :: up) pa true zl dp z cz zr dz pr)
    as (w1 & Hrot1 & Hz1 & Hfr1 & Hof1 & Hdom1).
  { by apply zip_fill in Hzip. }
  revert Hzip Hrot1 Hfr1 Hof1 Hdom1.
  destruct w as [h o]. unfold zip_at, world_frame.
  intros (Ho & (Hz & Hzl & Hzr) & Hc & Hnd) Hrot1 Hfr1 Hof1 Hdom1. simpl in *.
  destruct_and?. nodup_split Hnd.
  assert (Hisred := is_red_black_tree h o _ _ ltac:(eassumption) Hu).
  cbn [fixInsert_loop]. wexec_core. rewrite Hisred. simpl. wexec_core.
  rewrite Hrot1. simpl. clear Hrot1.
  destruct w1 as [h1 o1]. destruct Hz1 as (Ho1 & Hrep1 & Hc1 & Hnd1'). simpl in *.
  destruct_and?. pose proof Hnd1' as Hnd1''. nodup_split Hnd1'.
  wexec_core.
  match goal with |- context [leftRotate this (Some ga) ?W] =>
    destruct (leftRotate_zip W this n up ga true u dg z false zl dz (Tr pa true zr dp pr))
      as (w2 & Hrot & Hz2 & Hfr2 & Hof2 & Hdom2)
  end.
  { unfold zip_at; simpl; split_and!; solve_post. }
  rewrite Hrot. exists w2. split; [|split; [exact Hz2|split_and!]].
  - eapply fix_black_parent;
      [apply (zip_fill _ _ _ (FR z false (Tr ga true u dg zl) dz)); exact Hz2|done].
  - eapply heap_frame_trans; [eapply heap_frame_perm; [|exact Hfr1]; simpl; solve_Permutation|].
    frame_via Hfr2.
  - eapply objs_frame_trans; [exact Hof1|exact Hof2].
  - rewrite Hdom2. simpl in *. rewrite <- Hdom1. solve_dom.
Qed.

Lemma fix_rotate w this n z cz zl dz zr p g up fuel :
  zip_at w this (Tr z cz zl dz zr) (p :: g :: up) n →
  fcolor p = true → red (fsib g) = false →
  ∃ w', fixInsert_loop (S (S fuel)) this (Some z) w = Ok tt w'
    ∧ zip_at w' this (rotate_fix (Tr z cz zl dz zr) p g) up n
    ∧ world_frame this (addrs (Tr z cz zl dz zr) ++ caddrs (p :: g :: up)) w w'.
Proof.
  destruct p, g; simpl fcolor; simpl fsib; intros Hz Hp Hu.
  - eapply fix_rotate_LL; eassumption.
  - eapply fix_rotate_LR; eassumption.
  - eapply fix_rotate_RL; eassumption.
  - eapply fix_rotate_RR; eassumption.
Qed.

Lemma zip_plug w this t c n :
  zip_at w this t c n ↔ zip_at w this (plug t c) [] n.
Proof.
  revert t. induction c as [|f up IH]; intros t; simpl; [done|].
  by rewrite zip_fill, IH.
Qed.

Lemma world_frame_refl this (S : list loc) w : world_frame this S w w.
Proof. split_and!; [apply heap_frame_refl|apply objs_frame_refl|done]. Qed.

Lemma world_frame_trans this (S1 S2 S : list loc) w1 w2 w3 :
  world_frame this S1 w1 w2 → world_frame this S2 w2 w3 →
  (∀ a, a ∈ S1 → a ∈ S) → (∀ a, a ∈ S2 → a ∈ S) →
  world_frame this S w1 w3.
Proof.
  intros (Hh1 & Ho1 & Hd1) (Hh2 & Ho2 & Hd2) HS1 HS2. split_and!.
  - eapply heap_frame_trans.
    + eapply heap_frame_mono; [exact HS1|exact Hh1].
    + eapply heap_frame_mono; [exact HS2|exact Hh2].
  - eapply objs_frame_trans; eauto.
  - congruence.
Qed.

Lemma world_frame_mono this (S1 S : list loc) w1 w2 :
  world_frame this S1 w1 w2 → (∀ a, a ∈ S1 → a ∈ S) → world_frame this S w1 w2.
Proof.
  intros (Hh1 & Ho1 & Hd1) HS1. split_and!; [|done..].
  eapply heap_frame_mono; eauto.
Qed.

Lemma fixInsert_loop_spec fuel w this n zt c :
  zip_at w this zt c n → zt ≠ Leaf → top_black c → (length c < fuel)%nat →
  ∃ w', fixInsert_loop fuel this (tptr zt) w = Ok tt w'
    ∧ zip_at w' this (fixInsert_tree zt c) [] n
    ∧ world_frame this (addrs zt ++ caddrs c) w w'.
Proof.
  revert w zt c. induction fuel as [fuel IH] using lt_wf_ind.
  intros w zt c Hz Hzt Ht Hlen.
  destruct zt as [|z cz zl dz zr]; [done|]. clear Hzt.
  destruct fuel as [|fuel]; [lia|].
  change (tptr (Tr z cz zl dz zr)) with (Some z).
  destruct c as [|p [|g up]].
  - exists w. split; [by eapply fix_root|split; [done|apply world_frame_refl]].
  - apply top_black_single in Ht. exists w. simpl. rewrite Ht.
    split; [by eapply fix_black_parent|].
    split; [by apply (zip_plug _ _ _ [p])|apply world_frame_refl].
  - cbn [fixInsert_tree]. destruct (fcolor p) eqn:Hp.
    2:{ exists w. split; [by eapply fix_black_parent|].
        split; [by apply (zip_plug _ _ _ (p :: g :: up))|apply world_frame_refl]. }
    assert (top_black up) as Htu.
    { destruct up; [done|]. do 2 eapply top_black_tail in Ht; done. }
    destruct (red (fsib g)) eqn:Hu.
    + destruct (fix_red_uncle _ _ _ _ _ _ _ _ _ _ _ fuel Hz Hp Hu)
        as (w1 & Heq & Hz1 & Hf1).
      destruct (IH fuel ltac:(lia) w1 _ up Hz1 (recolor_fix_not_Leaf _ _ _) Htu
                  ltac:(simpl in Hlen; lia)) as (w2 & Heq2 & Hz2 & Hf2).
      exists w2. split; [|split; [done|]].
      * rewrite Heq. rewrite <- Heq2. by destruct g.
      * eapply world_frame_trans; [done..|done|].
        intros a. rewrite elem_of_app, addrs_recolor_fix.
        rewrite !addrs_fill. simpl. set_solver.
    + destruct fuel as [|fuel]; [simpl in Hlen; lia|].
      destruct (fix_rotate _ _ _ _ _ _ _ _ _ _ _ fuel Hz Hp Hu)
        as (w1 & Heq & Hz1 & Hf1).
      exists w1. split; [done|]. split; [by apply (zip_plug _ _ _ up)|done].
Qed.

Lemma fixInsert_spec fuel w this n zt c :
  zip_at w this zt c n → zt ≠ Leaf → top_black c → (length c < fuel)%nat →
  ∃ w', fixInsert fuel this (tptr zt) w = Ok tt w'
    ∧ zip_at w' this (set_black (fixInsert_tree zt c)) [] n
    ∧ world_frame this (addrs zt ++ caddrs c) w w'.
Proof.
  intros Hz Hzt Ht Hlen.
  destruct (fixInsert_loop_spec fuel w this n zt c Hz Hzt Ht Hlen)
    as (w1 & Heq & Hz1 & Hf1).
  pose proof (fixInsert_tree_not_Leaf zt c Hzt) as Hnl.
  pose proof (fixInsert_tree_seq zt c Hzt) as [Hadd _].
  unfold fixInsert. unfold bind at 1. rewrite Heq.
  destruct (fixInsert_tree zt c) as [|a ca l d r] eqn:Htree; [done|].
  destruct w1 as [h1 o1]. destruct Hz1 as (Ho1 & (Ha & Hl & Hr) & _ & Hnd).
  simpl in *. wexec. eexists. split; [done|].
  split.
  - unfold zip_at. simpl. split_and!; try done.
    + solve_cell.
    + apply rep_insert_ne; [|done]. rewrite app_nil_r in Hnd. nodup_split Hnd. wne.
    + apply rep_insert_ne; [|done]. rewrite app_nil_r in Hnd. nodup_split Hnd. wne.
  - eapply world_frame_trans; [exact Hf1| |done|intros ? H; exact H].
    assert (a ∈ addrs zt ++ caddrs c) as Hin.
    { apply (elem_of_Permutation_proper _ _ _ (addrs_plug_perm zt c)).
      rewrite <- Hadd. simpl. set_solver. }
    split_and!; simpl.
    + apply heap_frame_insert; [done|apply heap_frame_refl].
    + apply objs_frame_refl.
    + apply dom_insert_lookup_L. by eexists.
Qed.

End fix_insert.

(** ** The search descent, [findNode] and [insert] *)

Section insert.

Context {Key T : Type}.
Variable comp : Key → Key → bool.

Local Abbreviation Node := (@Node Key T).
Local Abbreviation world := (@world Key T).
Local Abbreviation tree := (@tree Key T).
Local Abbreviation frame := (@frame Key T).
Local Abbreviation W := (@W Key T).

Implicit Types (h : gmap loc Node) (t l r : tree) (c : list frame) (w : world).

Lemma descend_plug key t c t' c' :
  descend comp key t c = (t', c') → plug t' c' = plug t c.
Proof.
  revert c. induction t as [|a col l IHl d r IHr]; intros c; simpl.
  - by intros [= <- <-].
  - destruct (comp key (fst d)); [intros H; by rewrite (IHl _ H)|].
    destruct (comp (fst d) key); [intros H; by rewrite (IHr _ H)|].
    by intros [= <- <-].
Qed.

Lemma descend_plug_top key t t' c' :
  descend comp key t [] = (t', c') → plug t' c' = t.
Proof. apply descend_plug. Qed.

Lemma descend_side key t c t' c' :
  descend comp key t c = (t', c') →
  Forall (frame_side comp key) c → Forall (frame_side comp key) c'.
Proof.
  revert c. induction t as [|a col l IHl d r IHr]; intros c; simpl.
  - by intros [= <- <-].
  - destruct (comp key (fst d)) eqn:H1.
    { intros H Hc. apply (IHl _ H). by constructor. }
    destruct (comp (fst d) key) eqn:H2.
    { intros H Hc. apply (IHr _ H). by constructor. }
    by intros [= <- <-].
Qed.

Lemma descend_found key t c a col l d r c' :
  descend comp key t c = (Tr a col l d r, c') →
  comp key (fst d) = false ∧ comp (fst d) key = false.
Proof.
  revert c. induction t as [|a0 col0 l0 IHl d0 r0 IHr]; intros c; simpl; [done|].
  destruct (comp key (fst d0)) eqn:H1; [by apply IHl|].
  destruct (comp (fst d0) key) eqn:H2; [by apply IHr|].
  by intros [= -> -> -> -> -> <-].
Qed.

Lemma descend_length key t c t' c' :
  descend comp key t c = (t', c') →
  (length c' + height t' ≤ length c + height t)%nat.
Proof.
  revert c. induction t as [|a col l IHl d r IHr]; intros c; simpl.
  - intros [= <- <-]. simpl. lia.
  - destruct (comp key (fst d)); [intros H; apply IHl in H; simpl in H; lia|].
    destruct (comp (fst d) key); [intros H; apply IHr in H; simpl in H; lia|].
    intros [= <- <-]. simpl. lia.
Qed.

Lemma findNode_loop_spec fuel key h o t c :
  rep h (cptr c) t → (height t < fuel)%nat →
  findNode_loop comp fuel key (tptr t) (mkWorld h o)
  = Ok (tptr (descend comp key t c).1) (mkWorld h o).
Proof.
  revert fuel c. induction t as [|a col l IHl d r IHr]; intros fuel c Hrep Hf;
    (destruct fuel as [|fuel]; [simpl in Hf; lia|]).
  - done.
  - simpl in *. destruct Hrep as (Ha & Hl & Hr).
    wexec. destruct (comp key (fst d)).
    { wexec. apply (IHl fuel (FL a col d r :: c)); [done|lia]. }
    destruct (comp (fst d) key).
    { wexec. apply (IHr fuel (FR a col l d :: c)); [done|lia]. }
    done.
Qed.

Lemma insert_loop_spec fuel value h o t c :
  rep h (cptr c) t → (height t < fuel)%nat →
  insert_loop comp fuel value (cptr c) (tptr t) (mkWorld h o)
  = Ok (match descend comp (fst value) t c with
        | (Leaf, c') => inr (cptr c')
        | (t', _) => inl (tptr t')
        end) (mkWorld h o).
Proof.
  revert fuel c. induction t as [|a col l IHl d r IHr]; intros fuel c Hrep Hf;
    (destruct fuel as [|fuel]; [simpl in Hf; lia|]).
  - done.
  - simpl in *. destruct Hrep as (Ha & Hl & Hr).
    wexec. destruct (comp (fst value) (fst d)).
    { wexec. apply (IHl fuel (FL a col d r :: c)); [done|lia]. }
    destruct (comp (fst d) (fst value)).
    { wexec. apply (IHr fuel (FR a col l d :: c)); [done|lia]. }
    done.
Qed.

Lemma insert_loop_top fuel value h o t :
  rep h None t → (height t < fuel)%nat →
  insert_loop comp fuel value None (tptr t) (mkWorld h o)
  = Ok (match descend comp (fst value) t [] with
        | (Leaf, c') => inr (cptr c')
        | (t', _) => inl (tptr t')
        end) (mkWorld h o).
Proof. apply (insert_loop_spec fuel value h o t []). Qed.

Lemma findNode_spec fuel key w this t n :
  zip_at w this t [] n → (height t < fuel)%nat →
  findNode comp fuel this key w = Ok (tptr (descend comp key t []).1) w.
Proof.
  destruct w as [h o]. intros (Ho & Hrep & _ & _) Hf. simpl in *.
  unfold findNode, get_root, this_obj, bind, ret. simpl. rewrite Ho. simpl.
  apply (findNode_loop_spec fuel key h o t []); done.
Qed.

Lemma insert_found_spec fuel w this n t c value a col l d r :
  zip_at w this t [] n → descend comp (fst value) t [] = (Tr a col l d r, c) →
  (height t < fuel)%nat →
  insert comp fuel this value w = Ok (mkIter (Some a) (Some this), false) w.
Proof.
  destruct w as [h o]. intros (Ho & Hrep & _ & _) Hd Hf. simpl in *.
  unfold insert, get_root, this_obj, bind, ret. simpl. rewrite Ho. simpl.
  rewrite (insert_loop_top fuel value h o t); [|done..].
  by rewrite Hd.
Qed.

Lemma insert_new_spec fuel w this n t c value :
  zip_at w this t [] n → descend comp (fst value) t [] = (Leaf, c) →
  top_black c → (height t < fuel)%nat →
  ∃ w', insert comp fuel this value w
        = Ok (mkIter (Some (fresh (dom (heap w)))) (Some this), true) w'
    ∧ zip_at w' this (insert_tree comp (fresh (dom (heap w))) value t) []
             (size_t_wrap (n + 1))
    ∧ heap_frame (fresh (dom (heap w)) :: addrs t) (heap w) (heap w')
    ∧ objs_frame this (objs w) (objs w')
    ∧ dom (heap w') = {[fresh (dom (heap w))]} ∪ dom (heap w).
Proof.
  intros Hz Hd Ht Hf.
  pose proof (descend_plug _ _ _ _ _ Hd) as Hplug. simpl in Hplug.
  pose proof (descend_side _ _ _ _ _ Hd (Forall_nil_2 _)) as Hside.
  pose proof (descend_length _ _ _ _ _ Hd) as Hlen. simpl in Hlen.
  unfold insert_tree. rewrite Hd.
  pose proof Hz as Hz0.
  rewrite <- Hplug in Hz. apply zip_plug in Hz.
  assert (addrs t ≡ₚ caddrs c) as Hperm.
  { rewrite <- Hplug. by rewrite addrs_plug_perm. }
  destruct w as [h o]. simpl.
  remember (fresh (dom h)) as z eqn:Heqz.
  assert (∃ w1,
    (let* newNode := new_Node value (cptr c) in
     (if ptr_eqb (cptr c) None then set_root this newNode
      else
        let* d := get_data (cptr c) in
        if comp (fst value) (fst d) then set_left (cptr c) newNode
        else set_right (cptr c) newNode) ;;
     ret newNode) (mkWorld h o) = Ok (Some z) w1
    ∧ zip_at w1 this (Tr z true Leaf value Leaf) c n
    ∧ heap_frame (z :: caddrs c) h (heap w1)
    ∧ objs_frame this o (objs w1)
    ∧ dom (heap w1) = {[z]} ∪ dom h) as (w1 & Hrun & Hz1 & Hfr1 & Hof1 & Hdom1).
  { destruct Hz as (Ho & _ & Hc & Hnd). simpl in *.
    pose proof (fresh_crep _ _ _ Hc) as Hzc. rewrite <- Heqz in Hzc.
    pose proof (fresh_lookup h) as Hzn. rewrite <- Heqz in Hzn.
    destruct c as [|[pa pc dp pr|pa pc pl dp] up]; simpl in *;
      destruct_and?; pose proof Hnd as Hnd'; nodup_split Hnd;
      try (apply Forall_cons in Hside as [Hs _]; simpl in Hs; destruct_and?);
      (eexists; split;
       [unfold new_Node; wunfold; simpl; rewrite <- Heqz;
        repeat (wlookup; simpl); reflexivity|]);
      (split; [unfold zip_at; simpl; split_and!; solve_post;
               try (constructor; [wne|done])|]);
      (split_and!; simpl; [solve_heap_frame|solve_objs_frame|]).
      all: rewrite ?dom_insert_L; try reflexivity.
      all: match goal with H : ?h !! ?pa = Some _ |- _ =>
             let Hin := fresh in
             assert (pa ∈ dom h) as Hin by (apply elem_of_dom; by eexists);
             clear -Hin; set_solver
           end. }
  destruct (fixInsert_spec fuel w1 this n _ c Hz1 ltac:(done) Ht ltac:(lia))
    as (w2 & Hfix & Hz2 & Hfr2 & Hof2 & Hdom2).
  simpl tptr in Hfix.
  assert (insert comp fuel this value (mkWorld h o)
          = (fixInsert fuel this (Some z) ;;
             let* n := get_tree_size this in
             set_tree_size this (size_t_wrap (n + 1)) ;;
             ret (mkIter (Some z) (Some this), true)) w1) as ->.
  { destruct Hz0 as (Ho & Hrep & _). simpl in *.
    unfold insert, get_root, this_obj. unfold bind at 1 2. simpl. rewrite Ho. simpl.
    unfold bind at 1.
    rewrite (insert_loop_top fuel value h o t); [|done|lia].
    rewrite Hd. revert Hrun. unfold bind. simpl.
    destruct (ptr_eqb (cptr c) None); simpl.
    - destruct (set_root _ _ _); try done. by intros [= -> ->].
    - destruct (get_data _ _) as [dd ?| | |]; try done.
      destruct (comp _ _).
      + destruct (set_left _ _ _); try done. by intros [= -> ->].
      + destruct (set_right _ _ _); try done. by intros [= -> ->]. }
  unfold bind at 1. rewrite Hfix.
  destruct w2 as [h2 o2]. pose proof Hz2 as (Ho2 & _). simpl in *.
  wexec. eexists. split; [done|]. split_and!.
  - destruct Hz2 as (_ & ? & ? & ?). unfold zip_at. simpl.
    split_and!; try done. solve_cell.
  - simpl. intros a Ha. rewrite Hperm in Ha. rewrite Hfr2, Hfr1; done.
  - simpl. intros a Ha. rewrite lookup_insert_ne by done. rewrite Hof2, Hof1; done.
  - simpl. congruence.
Qed.

End insert.

(** ** Order and balance after [insert] *)

Section insert_order.

Context {Key T : Type}.
Variable comp : Key → Key → bool.
Hypothesis comp_swo : strict_weak_order comp.

Local Abbreviation tree := (@tree Key T).
Local Abbreviation frame := (@frame Key T).
Local Abbreviation entries_sorted := (entries_sorted comp).

Implicit Types (t l r : tree) (c : list frame) (k : Key) (e d : Key * T).

Lemma key_lt_trans x y z : key_lt comp x y → key_lt comp y z → key_lt comp x z.
Proof. apply (swo_trans comp comp_swo). Qed.

Lemma key_equiv_refl k : key_equiv comp k k.
Proof. split; apply (swo_irrefl comp comp_swo). Qed.

Lemma key_lt_not_equiv x y : key_lt comp x y → ¬ key_equiv comp x y.
Proof. unfold key_lt. intros H [H1 _]. congruence. Qed.

Lemma key_gt_not_equiv x y : key_lt comp y x → ¬ key_equiv comp x y.
Proof. unfold key_lt. intros H [_ H1]. congruence. Qed.

Lemma entries_sorted_app es1 es2 :
  entries_sorted (es1 ++ es2) ↔
  (∀ e1 e2, e1 ∈ es1 → e2 ∈ es2 → key_lt comp e1.1 e2.1)
  ∧ entries_sorted es1 ∧ entries_sorted es2.
Proof.
  unfold entries_sorted. rewrite fmap_app, StronglySorted_app.
  split; intros (H & Hs1 & Hs2); split_and!; try done.
  - intros e1 e2 He1 He2. apply H; by apply list_elem_of_fmap_2.
  - intros x1 x2 (e1 & -> & ?)%list_elem_of_fmap (e2 & -> & ?)%list_elem_of_fmap. eauto.
Qed.

Lemma entries_sorted_cons e es :
  entries_sorted (e :: es) ↔
  (∀ e2, e2 ∈ es → key_lt comp e.1 e2.1) ∧ entries_sorted es.
Proof.
  unfold entries_sorted. rewrite fmap_cons, StronglySorted_cons, Forall_forall.
  split; intros [H ?]; split; try done.
  - intros e2 H2. apply H. by apply list_elem_of_fmap_2.
  - intros x (e2 & -> & ?)%list_elem_of_fmap. eauto.
Qed.

Lemma ordered_entries t : ordered comp t ↔ entries_sorted (entries t).
Proof. done. Qed.

(** Everything before the hole is below the key, everything after it is
    above, when the descent went through the frames of [c]. *)
Lemma centries_before_lt k c :
  Forall (frame_side comp k) c →
  entries_sorted (centries_before c) →
  ∀ e, e ∈ centries_before c → key_lt comp e.1 k.
Proof.
  induction c as [|f up IH]; simpl; [set_solver|].
  intros [Hf Hup]%Forall_cons. destruct f as [a col d r|a col l d]; simpl; [by auto|].
  rewrite app_assoc. intros (Hlt & Hs1 & Hs2)%entries_sorted_app e.
  destruct Hf as [_ Hdk].
  intros [He|He%list_elem_of_singleton]%elem_of_app.
  - eapply key_lt_trans; [|exact Hdk]. apply Hlt; [done|set_solver].
  - by subst.
Qed.

Lemma centries_after_gt k c :
  Forall (frame_side comp k) c →
  entries_sorted (centries_after c) →
  ∀ e, e ∈ centries_after c → key_lt comp k e.1.
Proof.
  induction c as [|f up IH]; simpl; [set_solver|].
  intros [Hf Hup]%Forall_cons. destruct f as [a col d r|a col l d]; simpl; [|by auto].
  intros (Hlt & Hs)%entries_sorted_cons e.
  intros [->|He]%elem_of_cons; [done|].
  eapply key_lt_trans; [exact Hf|]. by apply Hlt.
Qed.

Lemma descend_Leaf_entries k t c :
  descend comp k t [] = (Leaf, c) →
  entries t = centries_before c ++ centries_after c.
Proof.
  intros Hd. rewrite <- (descend_plug_top _ _ _ _ _ Hd). by rewrite entries_plug.
Qed.

Lemma descend_Leaf_addrs k t c :
  descend comp k t [] = (Leaf, c) → addrs t ≡ₚ caddrs c.
Proof.
  intros Hd. rewrite <- (descend_plug_top _ _ _ _ _ Hd). by rewrite addrs_plug_perm.
Qed.

Lemma insert_tree_new_entries z e t c :
  descend comp e.1 t [] = (Leaf, c) →
  entries (insert_tree comp z e t) = centries_before c ++ e :: centries_after c.
Proof.
  intros Hd. unfold insert_tree. rewrite Hd, entries_set_black.
  destruct (fixInsert_tree_seq (Tr z true Leaf e Leaf) c ltac:(done)) as [_ ->].
  by rewrite entries_plug.
Qed.

Lemma insert_tree_new_addrs z e t c :
  descend comp e.1 t [] = (Leaf, c) →
  addrs (insert_tree comp z e t) ≡ₚ z :: addrs t.
Proof.
  intros Hd. unfold insert_tree. rewrite Hd, addrs_set_black.
  destruct (fixInsert_tree_seq (Tr z true Leaf e Leaf) c ltac:(done)) as [-> _].
  rewrite addrs_plug_perm. simpl. by rewrite (descend_Leaf_addrs _ _ _ Hd).
Qed.

Lemma insert_tree_found z e t a col l d r c :
  descend comp e.1 t [] = (Tr a col l d r, c) → insert_tree comp z e t = t.
Proof. intros Hd. unfold insert_tree. by rewrite Hd. Qed.

Lemma insert_tree_ordered z e t : ordered comp t → ordered comp (insert_tree comp z e t).
Proof.
  intros Ho. destruct (descend comp e.1 t []) as [[|a col l d r] c] eqn:Hd.
  2:{ by erewrite insert_tree_found. }
  change (entries_sorted (entries (insert_tree comp z e t))).
  rewrite (insert_tree_new_entries _ _ _ _ Hd).
  change (entries_sorted (entries t)) in Ho.
  rewrite (descend_Leaf_entries _ _ _ Hd) in Ho.
  pose proof (descend_side _ _ _ _ _ _ Hd (Forall_nil_2 _)) as Hside.
  apply entries_sorted_app in Ho as (Hlt & Hs1 & Hs2).
  apply entries_sorted_app. split_and!; [|done|].
  - intros e1 e2 H1 [->|H2]%elem_of_cons; [|by auto].
    by eapply centries_before_lt.
  - apply entries_sorted_cons. split; [|done].
    intros e2 H2. by eapply centries_after_gt.
Qed.

Lemma red_black_descend k t t' c :
  red_black t → descend comp k t [] = (t', c) →
  top_black c ∧ ∃ m, ctx_ok c m ∧ no_red_red t' ∧ black_height t' m.
Proof.
  intros (Hr & Hn & M & Hb) Hd.
  pose proof (descend_plug_top _ _ _ _ _ Hd) as Hplug.
  rewrite <- Hplug in Hr, Hn, Hb. split.
  - destruct c; [done|]. by eapply top_black_of_plug.
  - destruct (plug_ctx_ok _ _ _ Hn Hb) as (m & ? & ? & ? & ?). eauto.
Qed.

Lemma insert_tree_red_black z e t : red_black t → red_black (insert_tree comp z e t).
Proof.
  intros Hrb. destruct (descend comp e.1 t []) as [[|a col l d r] c] eqn:Hd.
  2:{ by erewrite insert_tree_found. }
  destruct (red_black_descend _ _ _ _ Hrb Hd) as (Htb & m & Hc & _ & Hm).
  simpl in Hm. subst m. unfold insert_tree. rewrite Hd.
  destruct (fixInsert_tree_rb z Leaf e Leaf c 0) as (Hn & M & Hb); try done.
  by eapply red_black_set_black.
Qed.

(** *** Searching an ordered tree *)

Lemma descend_elem k t c t' c' a col l d r :
  descend comp k t c = (t', c') → t' = Tr a col l d r → d ∈ entries (plug t c).
Proof.
  intros Hd ->. rewrite <- (descend_plug _ _ _ _ _ _ Hd), entries_plug. simpl.
  set_solver.
Qed.

Lemma descend_absent k t c :
  (∀ e, e ∈ entries t → ¬ key_equiv comp k e.1) →
  (descend comp k t c).1 = Leaf.
Proof.
  revert c. induction t as [|a col l IHl d r IHr]; intros c Habs; simpl; [done|].
  destruct (comp k d.1) eqn:H1.
  { apply IHl. intros e He. apply Habs. simpl. set_solver. }
  destruct (comp d.1 k) eqn:H2.
  { apply IHr. intros e He. apply Habs. simpl. set_solver. }
  exfalso. apply (Habs d); [simpl; set_solver|done].
Qed.

Lemma descend_present k t c e :
  entries_sorted (entries t) → e ∈ entries t → key_equiv comp k e.1 →
  ∃ a col l d r c', descend comp k t c = (Tr a col l d r, c')
                    ∧ key_equiv comp k d.1.
Proof.
  revert c. induction t as [|a col l IHl d r IHr]; intros c Hs He Hk; simpl in *.
  { by apply elem_of_nil in He. }
  apply entries_sorted_app in Hs as (Hlt & Hsl & Hsr).
  apply entries_sorted_cons in Hsr as (Hdr & Hsr).
  destruct (comp k d.1) eqn:H1.
  { apply IHl; [done| |done].
    apply elem_of_app in He as [He|He]; [done|]. exfalso.
    apply elem_of_cons in He as [->|He]; [destruct Hk; congruence|].
    eapply key_lt_not_equiv; [|exact Hk].
    eapply key_lt_trans; [exact H1|]. by apply Hdr. }
  destruct (comp d.1 k) eqn:H2.
  { apply IHr; [done| |done].
    apply elem_of_app in He as [He|He].
    - exfalso. eapply key_gt_not_equiv; [|exact Hk].
      eapply key_lt_trans; [|exact H2]. apply Hlt; [done|set_solver].
    - apply elem_of_cons in He as [->|He]; [destruct Hk; congruence|done]. }
  by eexists _, _, _, _, _, _.
Qed.

(** Equivalent keys of an ordered tree belong to the same entry. *)
Lemma entries_sorted_equiv_eq es e1 e2 :
  entries_sorted es → e1 ∈ es → e2 ∈ es → key_equiv comp e1.1 e2.1 → e1 = e2.
Proof.
  induction es as [|e es IH]; [by intros _ ?%elem_of_nil|].
  intros (Hlt & Hs)%entries_sorted_cons.
  intros [->|H1]%elem_of_cons [->|H2]%elem_of_cons Heq; try done.
  - exfalso. eapply key_lt_not_equiv; [|exact Heq]. by apply Hlt.
  - exfalso. eapply key_gt_not_equiv; [|exact Heq]. by apply Hlt.
  - by apply IH.
Qed.

End insert_order.

(** ** Iterators *)

Section iterators.

Context {Key T : Type}.

Local Abbreviation Node := (@Node Key T).
Local Abbreviation world := (@world Key T).
Local Abbreviation tree := (@tree Key T).
Local Abbreviation frame := (@frame Key T).
Local Abbreviation W := (@W Key T).

Implicit Types (h : gmap loc Node) (t l r : tree) (c : list frame) (w : world).

Lemma nodes_addrs t : (nodes t).*1 = addrs t.
Proof.
  induction t as [|a col l IHl d r IHr]; simpl; [done|].
  by rewrite fmap_app, fmap_cons, IHl, IHr.
Qed.

Lemma nodes_entries t : (nodes t).*2 = entries t.
Proof.
  induction t as [|a col l IHl d r IHr]; simpl; [done|].
  by rewrite fmap_app, fmap_cons, IHl, IHr.
Qed.

Lemma cnodes_before_addrs c : (cnodes_before c).*1 = caddrs_before c.
Proof.
  induction c as [|[a col d r|a col l d] up IH]; simpl; [done..|].
  by rewrite !fmap_app, IH, nodes_addrs.
Qed.

Lemma cnodes_after_addrs c : (cnodes_after c).*1 = caddrs_after c.
Proof.
  induction c as [|[a col d r|a col l d] up IH]; simpl; [done| |done].
  by rewrite !fmap_app, IH, nodes_addrs.
Qed.

Lemma nodes_plug t c :
  nodes (plug t c) = cnodes_before c ++ nodes t ++ cnodes_after c.
Proof.
  revert t. induction c as [|f up IH]; intros t; simpl.
  - by rewrite app_nil_r.
  - rewrite IH. destruct f; simpl; by rewrite <- ?app_assoc.
Qed.

Lemma plug_app t c1 c2 : plug t (c1 ++ c2) = plug (plug t c1) c2.
Proof. revert t. induction c1 as [|f c1 IH]; intros t; simpl; [done|]. apply IH. Qed.

(** Every node of a tree is the focus of a zipper. *)
Lemma elem_of_addrs_plug t a :
  a ∈ addrs t → ∃ c col l d r, t = plug (Tr a col l d r) c.
Proof.
  induction t as [|b col l IHl d r IHr]; simpl; [by intros ?%elem_of_nil|].
  intros [Ha|[->|Ha]%elem_of_cons]%elem_of_app.
  - destruct (IHl Ha) as (c & col' & l' & d' & r' & ->).
    exists (c ++ [FL b col d r]), col', l', d', r'. by rewrite plug_app.
  - by exists [], col, l, d, r.
  - destruct (IHr Ha) as (c & col' & l' & d' & r' & ->).
    exists (c ++ [FR b col l d]), col', l', d', r'. by rewrite plug_app.
Qed.

(** With distinct addresses, a node splits the order in one way only. *)
Lemma nodes_split_unique (ns A B A' B' : list (loc * (Key * T))) a d d' :
  NoDup (A ++ (a, d) :: B).*1 →
  A ++ (a, d) :: B = A' ++ (a, d') :: B' →
  A = A' ∧ d = d' ∧ B = B'.
Proof.
  revert A'. induction A as [|x A IH]; intros A' Hnd Heq.
  - destruct A' as [|y A']; simpl in *.
    + by injection Heq as -> ->.
    + injection Heq as <- ->. exfalso.
      rewrite fmap_app, fmap_cons in Hnd. simpl in Hnd.
      apply NoDup_cons in Hnd as [Hnd _]. apply Hnd. set_solver.
  - destruct A' as [|y A']; simpl in *.
    + injection Heq as -> <-. exfalso.
      apply NoDup_cons in Hnd as [Hnd _]. apply Hnd.
      rewrite fmap_app, fmap_cons. set_solver.
    + injection Heq as -> Heq. apply NoDup_cons in Hnd as [_ Hnd].
      destruct (IH _ Hnd Heq) as (-> & -> & ->). done.
Qed.

(** *** The navigation loops *)

Lemma head_addrs_Tr a col l d r :
  head (addrs (Tr a col l d r)) = Some (default a (head (addrs l))).
Proof. simpl. by destruct (addrs l). Qed.

Lemma last_addrs_Tr a col l d r :
  last (addrs (Tr a col l d r)) = Some (default a (last (addrs r))).
Proof.
  simpl. rewrite last_app, last_cons. by destruct (last (addrs r)).
Qed.

Lemma descend_left_spec fuel h o par a col l d r :
  rep h par (Tr a col l d r) → (height (Tr a col l d r) ≤ fuel)%nat →
  descend_left fuel (Some a) (mkWorld h o)
  = Ok (head (addrs (Tr a col l d r))) (mkWorld h o).
Proof.
  revert fuel par a col d r. induction l as [|b colb bl IHl db br _];
    intros fuel par a col d r (Ha & Hl & Hr) Hf;
    (destruct fuel as [|fuel]; [simpl in Hf; lia|]).
  - simpl. wexec. done.
  - cbn [descend_left]. wexec.
    rewrite (IHl fuel (Some a) b colb db br Hl); [|simpl in *; lia].
    simpl. by destruct (addrs bl).
Qed.

Lemma descend_right_spec fuel h o par a col l d r :
  rep h par (Tr a col l d r) → (height (Tr a col l d r) ≤ fuel)%nat →
  descend_right fuel (Some a) (mkWorld h o)
  = Ok (last (addrs (Tr a col l d r))) (mkWorld h o).
Proof.
  revert fuel par a col d l. induction r as [|b colb bl _ db br IHr];
    intros fuel par a col d l (Ha & Hl & Hr) Hf;
    (destruct fuel as [|fuel]; [simpl in Hf; lia|]).
  - simpl. wexec. by rewrite last_snoc.
  - cbn [descend_right]. wexec.
    rewrite (IHr fuel (Some a) b colb db bl Hr); [|simpl in *; lia].
    simpl. repeat (rewrite last_app || rewrite last_cons).
    by destruct (last (addrs br)).
Qed.

Lemma minimum_spec fuel h o par t :
  rep h par t → (height t < fuel)%nat →
  minimum fuel (tptr t) (mkWorld h o) = Ok (head (addrs t)) (mkWorld h o).
Proof.
  revert fuel par. induction t as [|a col l IHl d r _];
    intros fuel par Hrep Hf; (destruct fuel as [|fuel]; [simpl in Hf; lia|]).
  - done.
  - destruct Hrep as (Ha & Hl & Hr).
    cbn [minimum]. wexec. destruct l as [|b colb bl db br]; simpl; [done|].
    wexec. change (Some b) with (tptr (Tr b colb bl db br)).
    rewrite (IHl fuel (Some a)); [|done|simpl in *; lia].
    simpl. by destruct (addrs bl).
Qed.

Lemma maximum_spec fuel h o par t :
  rep h par t → (height t < fuel)%nat →
  maximum fuel (tptr t) (mkWorld h o) = Ok (last (addrs t)) (mkWorld h o).
Proof.
  revert fuel par. induction t as [|a col l _ d r IHr];
    intros fuel par Hrep Hf; (destruct fuel as [|fuel]; [simpl in Hf; lia|]).
  - done.
  - destruct Hrep as (Ha & Hl & Hr).
    cbn [maximum]. wexec. destruct r as [|b colb bl db br]; simpl.
    { by rewrite last_snoc. }
    wexec. change (Some b) with (tptr (Tr b colb bl db br)).
    rewrite (IHr fuel (Some a)); [|done|simpl in *; lia].
    simpl. repeat (rewrite last_app || rewrite last_cons).
    by destruct (last (addrs br)).
Qed.

Lemma climb_right_spec fuel h o (a : loc) c :
  crep h (Some a) c → NoDup (a :: caddrs c) → (length c < fuel)%nat →
  climb_right fuel (Some a) (cptr c) (mkWorld h o)
  = Ok (head (caddrs_after c)) (mkWorld h o).
Proof.
  revert fuel a. induction c as [|[b col d r|b col l d] up IH];
    intros fuel a Hc Hnd Hf; (destruct fuel as [|fuel]; [simpl in Hf; lia|]).
  - done.
  - simpl in *. destruct_and?. nodup_split Hnd. wexec. done.
  - simpl in *. destruct_and?. nodup_split Hnd. wexec.
    apply IH; [done| |lia]. constructor; [wne|done].
Qed.

Lemma climb_left_spec fuel h o (a : loc) c :
  crep h (Some a) c → NoDup (a :: caddrs c) → (length c < fuel)%nat →
  climb_left fuel (Some a) (cptr c) (mkWorld h o)
  = Ok (last (caddrs_before c)) (mkWorld h o).
Proof.
  revert fuel a. induction c as [|[b col d r|b col l d] up IH];
    intros fuel a Hc Hnd Hf; (destruct fuel as [|fuel]; [simpl in Hf; lia|]).
  - done.
  - simpl in *. destruct_and?. nodup_split Hnd. wexec.
    apply IH; [done| |lia]. constructor; [wne|done].
  - simpl in *. destruct_and?. nodup_split Hnd. wexec.
    by rewrite app_assoc, last_snoc.
Qed.

Lemma plug_height t c : (length c + height t ≤ height (plug t c))%nat.
Proof.
  revert t. induction c as [|f up IH]; intros t; simpl; [lia|].
  specialize (IH (fill f t)). destruct f; simpl in *; lia.
Qed.

(** *** [++] and [--] at the focus of a zipper *)

Lemma iter_incr_zip fuel w this n a col l d r c cont :
  zip_at w this (Tr a col l d r) c n →
  (height (plug (Tr a col l d r) c) < fuel)%nat →
  iter_incr fuel (mkIter (Some a) cont) w
  = Ok (mkIter (head (addrs r ++ caddrs_after c)) cont) w.
Proof.
  destruct w as [h o]. intros (Ho & (Ha & Hl & Hr) & Hc & Hnd) Hf.
  pose proof (plug_height (Tr a col l d r) c) as Hh. simpl in *.
  unfold iter_incr. simpl. destruct r as [|b colb bl db br].
  - wexec. rewrite (climb_right_spec fuel h o a c); [done|done| |].
    2:{ lia. }
    nodup_split Hnd. constructor; [wne|done].
  - wexec. rewrite (descend_left_spec fuel h o _ b colb bl db br Hr); [|simpl in *; lia].
    simpl. by destruct (addrs bl).
Qed.

Lemma iter_decr_zip fuel w this n a col l d r c cont :
  zip_at w this (Tr a col l d r) c n →
  (height (plug (Tr a col l d r) c) < fuel)%nat →
  iter_decr fuel (mkIter (Some a) cont) w
  = match last (caddrs_before c ++ addrs l) with
    | Some b => Ok (mkIter (Some b) cont) w
    | None => Throw invalid_iterator w
    end.
Proof.
  destruct w as [h o]. intros (Ho & (Ha & Hl & Hr) & Hc & Hnd) Hf.
  pose proof (plug_height (Tr a col l d r) c) as Hh. simpl in *.
  unfold iter_decr. simpl. destruct l as [|b colb bl db br].
  - wexec. rewrite (climb_left_spec fuel h o a c); [|done| |lia].
    2:{ nodup_split Hnd. constructor; [wne|done]. }
    rewrite app_nil_r. simpl. by destruct (last (caddrs_before c)).
  - wexec. rewrite (descend_right_spec fuel h o _ b colb bl db br Hl); [|simpl in *; lia].
    simpl. repeat (rewrite last_app || rewrite last_cons).
    by destruct (last (addrs br)).
Qed.

Lemma iter_decr_end fuel w this n t :
  zip_at w this t [] n → (height t < fuel)%nat →
  iter_decr fuel (mkIter None (Some this)) w
  = match last (addrs t) with
    | Some b => Ok (mkIter (Some b) (Some this)) w
    | None => Throw invalid_iterator w
    end.
Proof.
  destruct w as [h o]. intros (Ho & Hrep & _) Hf. simpl in *.
  unfold iter_decr. simpl. destruct t as [|a col l d r].
  - simpl in *. wexec. done.
  - pose proof (maximum_spec fuel h o None _ Hrep Hf) as Hmax.
    simpl in *. wexec. rewrite Hmax.
    rewrite last_app, last_cons. by destruct (last (addrs r)).
Qed.

(** *** [++] and [--] in terms of the order *)

Lemma zip_at_node w this n t a d A B :
  zip_at w this t [] n → nodes t = A ++ (a, d) :: B →
  ∃ c col l r, t = plug (Tr a col l d r) c
    ∧ A = cnodes_before c ++ nodes l ∧ B = nodes r ++ cnodes_after c.
Proof.
  intros (_ & _ & _ & Hnd) Hn. rewrite app_nil_r in Hnd.
  assert (a ∈ addrs t) as Ha.
  { rewrite <- nodes_addrs, Hn, fmap_app, fmap_cons. set_solver. }
  destruct (elem_of_addrs_plug _ _ Ha) as (c & col & l & d' & r & ->).
  rewrite nodes_plug in Hn. simpl in Hn.
  assert (cnodes_before c ++ (nodes l ++ (a, d') :: nodes r) ++ cnodes_after c
          = (cnodes_before c ++ nodes l) ++ (a, d') :: (nodes r ++ cnodes_after c))
    as Heq by (by rewrite <- !app_assoc).
  rewrite Heq in Hn.
  rewrite <- nodes_addrs, nodes_plug in Hnd. simpl in Hnd.
  rewrite Heq, Hn in Hnd.
  symmetry in Hn. apply nodes_split_unique in Hn as (-> & -> & ->); [|exact []|done].
  by exists c, col, l, r.
Qed.

Lemma iter_incr_nodes fuel w this n t a d A B cont :
  zip_at w this t [] n → nodes t = A ++ (a, d) :: B → (height t < fuel)%nat →
  iter_incr fuel (mkIter (Some a) cont) w = Ok (mkIter (head B.*1) cont) w.
Proof.
  intros Hz Hn Hf.
  destruct (zip_at_node _ _ _ _ _ _ _ _ Hz Hn) as (c & col & l & r & -> & -> & ->).
  apply zip_plug in Hz.
  rewrite (iter_incr_zip fuel w this n a col l d r c cont Hz Hf).
  by rewrite fmap_app, nodes_addrs, cnodes_after_addrs.
Qed.

Lemma iter_decr_nodes fuel w this n t a d A B cont :
  zip_at w this t [] n → nodes t = A ++ (a, d) :: B → (height t < fuel)%nat →
  iter_decr fuel (mkIter (Some a) cont) w
  = match last A.*1 with
    | Some b => Ok (mkIter (Some b) cont) w
    | None => Throw invalid_iterator w
    end.
Proof.
  intros Hz Hn Hf.
  destruct (zip_at_node _ _ _ _ _ _ _ _ Hz Hn) as (c & col & l & r & -> & -> & ->).
  apply zip_plug in Hz.
  rewrite (iter_decr_zip fuel w this n a col l d r c cont Hz Hf).
  by rewrite fmap_app, nodes_addrs, cnodes_before_addrs.
Qed.

Lemma node_data w this n t a d A B :
  zip_at w this t [] n → nodes t = A ++ (a, d) :: B →
  ∃ nd, heap w !! a = Some nd ∧ data nd = d.
Proof.
  intros Hz Hn.
  destruct (zip_at_node _ _ _ _ _ _ _ _ Hz Hn) as (c & col & l & r & -> & -> & ->).
  apply zip_plug in Hz. destruct Hz as (_ & (Ha & _) & _). by eexists.
Qed.

Lemma begin_spec fuel w this n t :
  zip_at w this t [] n → (height t < fuel)%nat →
  begin_ fuel this w = Ok (mkIter (head (addrs t)) (Some this)) w.
Proof.
  destruct w as [h o]. intros (Ho & Hrep & _) Hf. simpl in *.
  unfold begin_. wexec. by rewrite (minimum_spec fuel h o None t Hrep Hf).
Qed.

Lemma traverse_loop_spec fuel w this n t A B :
  zip_at w this t [] n → nodes t = A ++ B →
  (height t + length B < fuel)%nat →
  traverse_loop fuel this (mkIter (head B.*1) (Some this)) w = Ok B.*2 w.
Proof.
  intros Hz. revert fuel A. induction B as [|[a d] B IH]; intros fuel A Hn Hf;
    (destruct fuel as [|fuel]; [lia|]).
  - cbn [traverse_loop]. unfold iter_ne, iter_eq, end_. simpl.
    by rewrite !ptr_eqb_refl.
  - cbn [traverse_loop]. simpl.
    destruct (node_data _ _ _ _ _ _ _ _ Hz Hn) as (nd & Hnd & Hd).
    unfold iter_ne, iter_eq, end_. simpl.
    unfold iter_deref, read_entry. simpl. simpl in Hf.
    pose proof (iter_incr_nodes fuel w this n t a d A B (Some this) Hz Hn
                  ltac:(lia)) as Hinc.
    replace (A ++ (a, d) :: B) with ((A ++ [(a, d)]) ++ B) in Hn
      by by rewrite <- app_assoc.
    pose proof (IH fuel _ Hn ltac:(lia)) as Hrest.
    destruct w as [h o]. unfold get_data, bind, ret, deref. simpl in *.
    rewrite Hnd, Hinc, Hrest. by rewrite Hd.
Qed.

Lemma traverse_spec fuel w this n t :
  zip_at w this t [] n → (height t + node_count t < fuel)%nat →
  traverse fuel this w = Ok (entries t) w.
Proof.
  intros Hz Hf. unfold traverse, bind.
  rewrite (begin_spec fuel w this n t Hz ltac:(lia)).
  rewrite <- nodes_addrs, <- nodes_entries.
  apply (traverse_loop_spec fuel w this n t []); [done|done|].
  rewrite count_length, <- nodes_addrs, length_fmap in Hf. done.
Qed.

End iterators.

(** ** [erase] *)

Section erase.

Context {Key T : Type}.

Local Abbreviation Node := (@Node Key T).
Local Abbreviation world := (@world Key T).
Local Abbreviation tree := (@tree Key T).
Local Abbreviation frame := (@frame Key T).
Local Abbreviation W := (@W Key T).

Implicit Types (h : gmap loc Node) (t l r : tree) (c : list frame) (w : world).

Lemma zip_app w this t c1 c2 n :
  zip_at w this t (c1 ++ c2) n ↔ zip_at w this (plug t c1) c2 n.
Proof.
  revert t. induction c1 as [|f up IH]; intros t; simpl; [done|].
  by rewrite zip_fill, IH.
Qed.

Lemma tptr_plug_cons t f c : tptr (plug t (f :: c)) = croot (Some (faddr f)) c.
Proof. by rewrite tptr_plug. Qed.

Lemma croot_app hole c1 c2 : croot hole (c1 ++ c2) = croot (croot hole c1) c2.
Proof. revert hole. induction c1 as [|f c1 IH]; intros hole; simpl; [done|]. apply IH. Qed.

(** The leftmost node of a tree, as the focus of a zipper. *)
Lemma leftmost_plug r :
  r ≠ Leaf →
  ∃ y cy dy yr cr, r = plug (Tr y cy Leaf dy yr) cr ∧ head (addrs r) = Some y.
Proof.
  induction r as [|a col l IHl d r _]; [done|]. intros _.
  destruct l as [|b colb bl db br].
  - by exists a, col, d, r, [].
  - destruct IHl as (y & cy & dy & yr & cr & Heq & Hhd); [done|].
    exists y, cy, dy, yr, (cr ++ [FL a col d r]). split.
    + by rewrite plug_app, <- Heq.
    + simpl in *. destruct (addrs bl ++ b :: addrs br); [done|]. by simpl in *.
Qed.

(** *** [transplant] *)

Lemma transplant_spec w this n (u : loc) nu c tv parv :
  objs w !! this = Some (mkMap (croot (Some u) c) n) →
  heap w !! u = Some nu → parent nu = cptr c →
  crep (heap w) (Some u) c → rep (heap w) parv tv →
  NoDup (u :: addrs tv ++ caddrs c) →
  ∃ w', transplant this (Some u) (tptr tv) w = Ok tt w'
    ∧ objs w' = <[this := mkMap (croot (tptr tv) c) n]> (objs w)
    ∧ crep (heap w') (tptr tv) c
    ∧ rep (heap w') (cptr c) tv
    ∧ heap w' !! u = Some nu
    ∧ (∀ a, Some a ≠ tptr tv → Some a ≠ cptr c → heap w' !! a = heap w !! a)
    ∧ dom (heap w') = dom (heap w).
Proof.
  destruct w as [h o]. simpl. intros Ho Hu Hpar Hc Htv Hnd.
  destruct nu as [du lu ru pu cu]. simpl in Hpar. subst pu.
  destruct tv as [|v cv vl dv vr]; destruct c as [|[pa pc pd pr | pa pc pl pd] up];
    simpl in *; destruct_and?; pose proof Hnd as Hnd'; nodup_split Hnd;
    (eexists; split; [unfold transplant; wexec; reflexivity|]);
    simpl; split_and!; solve_post;
    try (intros a0 Ha1 Ha2; rewrite ?lookup_insert_ne by congruence; done);
    try reflexivity; symmetry; by apply insert_id.
Qed.

(** *** The cases of [fixDelete] that [erase] reaches on a red-black tree *)

Lemma fixDelete_absorb fuel w this m (x : loc) nx :
  objs w !! this = Some m → heap w !! x = Some nx →
  root m = Some x ∨ color nx = true →
  fixDelete (S fuel) this (Some x) w = set_color (Some x) false w.
Proof.
  destruct w as [h o]. simpl. intros Ho Hx Hcase.
  unfold fixDelete. cbn [fixDelete_loop]. wexec.
  destruct (decide (root m = Some x)) as [->|Hne].
  - rewrite ptr_eqb_refl. simpl. by rewrite Hx.
  - rewrite ptr_eqb_ne by done. destruct Hcase as [?|Hc]; [done|].
    simpl. rewrite Hx. simpl. rewrite Hc. simpl. by rewrite Hx.
Qed.

Lemma fixDelete_empty fuel w this m :
  objs w !! this = Some m → root m = None →
  fixDelete (S fuel) this None w = Ok tt w.
Proof.
  destruct w as [h o]. simpl. intros Ho Hr.
  unfold fixDelete. cbn [fixDelete_loop]. wexec. by rewrite Hr.
Qed.

(** With a null [x] that is not the root, the loop body dereferences
    [x->parent]. *)
Lemma fixDelete_null_undef fuel w this m :
  objs w !! this = Some m → root m ≠ None →
  fixDelete (S fuel) this None w = Undef.
Proof.
  destruct w as [h o]. simpl. intros Ho Hr.
  unfold fixDelete. cbn [fixDelete_loop]. wexec.
  rewrite ?ptr_eqb_ne by done. done.
Qed.

(** *** The end of [erase] *)

Lemma erase_tail_spec fuel w this n (z : loc) nz t c yoc :
  zip_at w this t c n → heap w !! z = Some nz → z ∉ addrs t ++ caddrs c →
  yoc = true ∨ c = [] ∨ red t = true →
  ∃ w', erase_tail (S fuel) this (Some z) (tptr t) yoc w = Ok tt w'
    ∧ zip_at w' this (splice yoc t) c (size_t_wrap (n - 1))
    ∧ erase_frame this z (z :: addrs t) w w'.
Proof.
  destruct w as [h o]. intros (Ho & Hr & Hc & Hnd) Hz Hzn Hok. simpl in * |-.
  unfold erase_tail. pose proof Hnd as Hnd'.
  destruct yoc; cbn [negb splice].
  - wexec. eexists. split; [done|]. split; [|split_and!].
    + unfold zip_at. simpl. split_and!; solve_post.
    + intros a Ha. simpl. rewrite lookup_delete_ne by set_solver. done.
    + solve_objs_frame.
    + simpl. by rewrite dom_delete_L.
  - destruct t as [|x cx xl dx xr]; simpl in * |-; cbn [tptr set_black].
    + destruct Hok as [?|[->|?]]; try done. simpl in * |-.
      unfold bind at 1.
      erewrite fixDelete_empty; [|simpl; exact Ho|done].
      wexec. eexists. split; [done|]. split; [|split_and!].
      * unfold zip_at. simpl. split_and!; solve_post.
      * intros a Ha. simpl. rewrite lookup_delete_ne by set_solver. done.
      * solve_objs_frame.
      * simpl. by rewrite dom_delete_L.
    + destruct Hr as (Hx & Hxl & Hxr). nodup_split Hnd.
      unfold bind at 1.
      erewrite fixDelete_absorb; [|simpl; exact Ho|exact Hx|].
      2:{ simpl. destruct Hok as [?|[->|?]]; try done; [by left|right].
          by destruct cx. }
      wexec. eexists. split; [done|]. split; [|split_and!].
      * unfold zip_at. simpl. split_and!; solve_post.
      * intros a Ha. simpl. rewrite lookup_delete_ne by set_solver.
        rewrite lookup_insert_ne by set_solver. done.
      * solve_objs_frame.
      * simpl. rewrite dom_delete_L, dom_insert_lookup_L; [done|by eexists].
Qed.

Lemma erase_tail_undef fuel w this n (z : ptr) f up :
  zip_at w this Leaf (f :: up) n →
  erase_tail (S fuel) this z None false w = Undef.
Proof.
  destruct w as [h o]. intros (Ho & _). simpl in *.
  unfold erase_tail. simpl. unfold bind at 1.
  erewrite fixDelete_null_undef; [done|exact Ho|]. simpl.
  destruct (croot (Some (faddr f)) up) eqn:E; [done|].
  exfalso. clear -E. revert f E. induction up as [|g up IH]; intros f; simpl; [done|].
  apply IH.
Qed.

(** *** [erase] of a node with at most one child *)

Lemma erase_no_left fuel w this n z cz dz r c :
  zip_at w this (Tr z cz Leaf dz r) c n →
  ∃ w1 nz,
    erase fuel this (mkIter (Some z) (Some this)) w
    = erase_tail fuel this (Some z) (tptr r) cz w1
    ∧ zip_at w1 this r c n
    ∧ heap w1 !! z = Some nz
    ∧ world_frame this (z :: addrs r ++ caddrs c) w w1.
Proof.
  destruct w as [h o]. intros (Ho & (Hz & _ & Hr) & Hc & Hnd).
  simpl in * |-.
  destruct (transplant_spec (mkWorld h o) this n z _ c r (Some z) Ho Hz eq_refl Hc Hr)
    as (w1 & Htr & Ho1 & Hc1 & Hr1 & Hz1 & Hfr1 & Hdom1).
  { eapply NoDup_Permutation_proper; [|exact Hnd]. solve_Permutation. }
  exists w1. eexists. split; [|split_and!].
  - unfold erase. cbn [container node]. rewrite ptr_eqb_refl. cbn [negb orb ptr_eqb].
    wexec_core. rewrite Htr. done.
  - destruct w1 as [h1 o1]. simpl in *. subst o1.
    unfold zip_at. simpl. split_and!; try done.
    + by rewrite lookup_insert_eq.
    + solve_nodup.
  - done.
  - destruct w1 as [h1 o1]. unfold world_frame, heap_frame. simpl in *. subst o1.
    split_and!; [|solve_objs_frame|done].
    intros a Ha. apply Hfr1.
    + destruct r; [done|]. simpl. intros [= ->]. apply Ha. simpl. set_solver.
    + destruct c as [|f up]; [done|]. simpl. intros [= ->]. apply Ha. set_solver.
Qed.

Lemma erase_no_right fuel w this n z cz l dz c :
  zip_at w this (Tr z cz l dz Leaf) c n → l ≠ Leaf →
  ∃ w1 nz,
    erase fuel this (mkIter (Some z) (Some this)) w
    = erase_tail fuel this (Some z) (tptr l) cz w1
    ∧ zip_at w1 this l c n
    ∧ heap w1 !! z = Some nz
    ∧ world_frame this (z :: addrs l ++ caddrs c) w w1.
Proof.
  destruct w as [h o]. intros (Ho & (Hz & Hl & _) & Hc & Hnd) Hne.
  simpl in * |-.
  destruct (transplant_spec (mkWorld h o) this n z _ c l (Some z) Ho Hz eq_refl Hc Hl)
    as (w1 & Htr & Ho1 & Hc1 & Hr1 & Hz1 & Hfr1 & Hdom1).
  { eapply NoDup_Permutation_proper; [|exact Hnd]. solve_Permutation. }
  exists w1. eexists. split; [|split_and!].
  - unfold erase. cbn [container node]. rewrite ptr_eqb_refl. cbn [negb orb ptr_eqb].
    destruct l as [|la cl ll dl lr]; [done|]. simpl in Htr |- *.
    wexec_core. rewrite Htr. done.
  - destruct w1 as [h1 o1]. simpl in *. subst o1.
    unfold zip_at. simpl. split_and!; try done.
    + by rewrite lookup_insert_eq.
    + solve_nodup.
  - done.
  - destruct w1 as [h1 o1]. unfold world_frame, heap_frame. simpl in *. subst o1.
    split_and!; [|solve_objs_frame|done].
    intros a Ha. apply Hfr1.
    + destruct l; [done|]. simpl. intros [= ->]. apply Ha. simpl. set_solver.
    + destruct c as [|f up]; [done|]. simpl. intros [= ->]. apply Ha. set_solver.
Qed.

(** *** [erase] of a node with two children *)

Lemma croot_Some (a : loc) c : ∃ b, croot (Some a) c = Some b.
Proof. revert a. induction c as [|f up IH]; intros a; simpl; eauto. Qed.

Lemma plug_not_Leaf t f c : plug t (f :: c) ≠ Leaf.
Proof.
  intros Heq. pose proof (tptr_plug t (f :: c)) as Hp. rewrite Heq in Hp.
  simpl in Hp. by destruct (croot_Some (faddr f) c) as [b Hb]; rewrite Hb in Hp.
Qed.

(** The successor is the right child itself. *)
Lemma erase_two_children_near fuel w this n z cz l dz y cy dy yr c :
  zip_at w this (Tr z cz l dz (Tr y cy Leaf dy yr)) c n → l ≠ Leaf →
  (height (Tr y cy Leaf dy yr) < fuel)%nat →
  ∃ w1 nz,
    erase fuel this (mkIter (Some z) (Some this)) w
    = erase_tail fuel this (Some z) (tptr yr) cy w1
    ∧ zip_at w1 this (Tr y cz l dy yr) c n
    ∧ heap w1 !! z = Some nz
    ∧ world_frame this (addrs (Tr z cz l dz (Tr y cy Leaf dy yr)) ++ caddrs c) w w1.
Proof.
  destruct w as [h o]. intros (Ho & (Hz & Hl & Hr) & Hc & Hnd) Hne Hf.
  pose proof Hr as Hr'. destruct Hr' as (Hy & _ & Hyr).
  pose proof (minimum_spec fuel h o (Some z) _ Hr Hf) as Hmin.
  simpl in * |-.
  destruct (transplant_spec (mkWorld h o) this n z _ c (Tr y cy Leaf dy yr) (Some z)
              Ho Hz eq_refl Hc Hr)
    as (w1 & Htr & Ho1 & Hc1 & Hr1 & Hz1 & Hfr1 & Hdom1).
  { simpl. solve_nodup. }
  destruct l as [|la cl ll dl lr]; [done|]. clear Hne.
  destruct w1 as [h1 o1]. simpl in * |-. subst o1.
  destruct Hr1 as (Hy1 & _ & Hyr1). destruct Hl as (Hla & Hll & Hlr).
  pose proof Hnd as Hnd'. nodup_split Hnd.
  assert (h1 !! la = h !! la) as Hla1.
  { apply Hfr1; pne. }
  rewrite Hla in Hla1.
  assert (erase fuel this (mkIter (Some z) (Some this)) (mkWorld h o)
          = (let* zl := get_left (Some z) in
             set_left (Some y) zl ;;
             let* yl := get_left (Some y) in
             set_parent yl (Some y) ;;
             let* zc := get_color (Some z) in
             set_color (Some y) zc ;;
             erase_tail fuel this (Some z) (tptr yr) cy)
            (mkWorld h1 (<[this := mkMap (croot (Some y) c) n]> o))) as ->.
  { unfold erase. cbn [container node]. rewrite ptr_eqb_refl. cbn [negb orb ptr_eqb].
    unfold bind at 1 2 3 4 5 6. wexec_core. rewrite Hmin. simpl. wexec_core.
    destruct yr as [|x cx xl dx xr]; simpl in *.
    - rewrite Htr. simpl. repeat (wlookup; simpl). reflexivity.
    - destruct Hyr as (Hx & _). wexec_core.
      unfold with_parent. simpl. rewrite (insert_id h x) by done.
      rewrite Htr. simpl. repeat (wlookup; simpl). reflexivity. }
  eexists. eexists. split; [|split_and!].
  - wexec_core. reflexivity.
  - unfold zip_at. simpl. rewrite lookup_insert_eq.
    split_and!; try done; try solve_cell.
    + apply rep_insert_ne; [wne|]. apply rep_insert_ne; [wne|].
      apply rep_insert_ne; [wne|]. eapply rep_frame; [|exact Hll].
      intros a Ha. apply Hfr1; pne.
    + apply rep_insert_ne; [wne|]. apply rep_insert_ne; [wne|].
      apply rep_insert_ne; [wne|]. eapply rep_frame; [|exact Hlr].
      intros a Ha. apply Hfr1; pne.
    + solve_rep.
    + solve_crep.
    + solve_nodup.
  - simpl. repeat (rewrite lookup_insert_ne by wne). exact Hz1.
  - unfold world_frame, heap_frame. simpl. split_and!.
    + intros a Ha. repeat (rewrite lookup_insert_ne by wne).
      apply Hfr1; pne.
    + solve_objs_frame.
    + rewrite <- Hdom1. solve_dom.
Qed.

(** The successor lies deeper in the right subtree. *)
Lemma erase_two_children_far fuel w this n z cz l dz y cy dy yr f cr c :
  zip_at w this (Tr y cy Leaf dy yr) ((f :: cr) ++ FR z cz l dz :: c) n →
  l ≠ Leaf →
  head (addrs (plug (Tr y cy Leaf dy yr) (f :: cr))) = Some y →
  (height (plug (Tr y cy Leaf dy yr) (f :: cr)) < fuel)%nat →
  ∃ w1 nz,
    erase fuel this (mkIter (Some z) (Some this)) w
    = erase_tail fuel this (Some z) (tptr yr) cy w1
    ∧ zip_at w1 this yr ((f :: cr) ++ FR y cz l dy :: c) n
    ∧ heap w1 !! z = Some nz
    ∧ world_frame this
        (addrs (Tr y cy Leaf dy yr) ++ caddrs ((f :: cr) ++ FR z cz l dz :: c)) w w1.
Proof.
  intros Hzy Hne Hhd Hf.
  set (C := (f :: cr) ++ FR z cz l dz :: c) in *.
  set (r := plug (Tr y cy Leaf dy yr) (f :: cr)) in *.
  (* the state before: focus on [z] *)
  pose proof Hzy as Hzz. apply zip_app, zip_fill in Hzz. fold r in Hzz. cbn [fill] in Hzz.
  destruct (croot_Some (faddr f) cr) as [rr Hrr].
  assert (tptr r = Some rr) as Hrptr by (unfold r; by rewrite tptr_plug).
  destruct w as [h o].
  destruct Hzy as (Hoy & (Hy & _ & Hyr) & Hcy & Hndy).
  destruct Hzz as (Ho & (Hz & Hl & Hr) & Hc & Hnd).
  pose proof (minimum_spec fuel h o (Some z) r Hr Hf) as Hmin.
  rewrite Hhd, Hrptr in Hmin. rewrite Hrptr in Hz.
  cbn [heap objs tptr] in * |-.
  (* [transplant(y, y->right)] *)
  destruct (transplant_spec (mkWorld h o) this n y _ C yr (Some y) Hoy Hy eq_refl Hcy Hyr)
    as (w1 & Htr1 & Ho1 & Hc1 & Hr1 & Hy1 & Hfr1 & Hdom1).
  { simpl in Hndy |- *. solve_nodup. }
  destruct w1 as [h1 o1]. cbn [heap objs] in * |-. subst o1.
  set (r' := plug yr (f :: cr)) in *.
  assert (zip_at (mkWorld h1 (<[this := mkMap (croot (tptr yr) C) n]> o)) this
            (Tr z cz l dz r') c n) as Hz1.
  { apply (zip_fill _ _ r' (FR z cz l dz) c), (zip_app _ _ yr (f :: cr)).
    fold C. unfold zip_at. cbn [heap objs].
    rewrite lookup_insert_eq. split_and!; try done.
    simpl in Hndy. solve_nodup. }
  destruct Hz1 as (Ho1 & (Hz1 & Hl1 & Hr1') & Hc1' & Hnd1).
  assert (tptr r' = Some rr) as Hrptr' by (unfold r'; by rewrite tptr_plug).
  assert (NoDup (y :: addrs r' ++ z :: addrs l ++ caddrs c)) as Hndy'.
  { unfold r'. rewrite addrs_plug_perm. unfold C in Hndy.
    rewrite caddrs_app in Hndy. simpl in Hndy.
    eapply NoDup_Permutation_proper; [|exact Hndy]. simpl. solve_Permutation. }
  destruct r' as [|rr' crr rl drr rrr] eqn:Hr'eq; [done|].
  cbn [tptr] in Hrptr'. injection Hrptr' as ->.
  destruct l as [|la cl ll dl lr]; [done|]. clear Hne.
  cbn [rep tptr addrs heap objs] in Hz1, Hl1, Hr1', Hc1', Hndy'.
  destruct Hr1' as (Hrr1 & Hrl1 & Hrrr1). destruct Hl1 as (Hla1 & Hll1 & Hlr1).
  pose proof Hndy' as Hndy''. nodup_split Hndy'.
  assert (Some rr ≠ Some z) as Hrrz by (apply Some_ne; wne).
  assert (cptr C ≠ Some z) as HCz.
  { unfold C. simpl. apply Some_ne. clear -Hndy.
    unfold C in Hndy. simpl in Hndy. rewrite caddrs_app in Hndy. simpl in Hndy.
    assert (NoDup [faddr f; z]) as Hfz by solve_nodup.
    apply NoDup_cons in Hfz as [Hfz _]. set_solver. }
  unfold erase. cbn [container node]. rewrite ptr_eqb_refl. cbn [negb orb ptr_eqb].
  wexec_core. rewrite Hmin. simpl. wexec_core.
  rewrite Htr1. simpl. repeat (wlookup; simpl).
  match goal with |- context [transplant this (Some z) (Some y) ?W] =>
    destruct (transplant_spec W this n z
                (mkNode dz (Some la) (Some rr) (cptr c) cz) c
                (Tr y cy Leaf dy (Tr rr crr rl drr rrr)) (cptr C))
      as (w3 & Htr3 & Ho3 & Hc3 & Hr3 & Hz3 & Hfr3 & Hdom3)
  end.
  { simpl. exact Ho1. }
  { simpl. repeat wlookup. done. }
  { done. }
  { simpl. solve_crep. }
  { simpl. split_and!; solve_post. }
  { simpl. solve_nodup. }
  simpl in Htr3. rewrite Htr3. simpl.
  destruct w3 as [h3 o3]. cbn [heap objs] in * |-. subst o3.
  destruct Hr3 as (Hy3 & _ & Hrr3 & Hrl3 & Hrrr3).
  assert (h3 !! la = h1 !! la) as Hla3.
  { rewrite Hfr3; [|pne..]. simpl. by repeat (rewrite lookup_insert_ne by wne). }
  rewrite Hla1 in Hla3.
  simpl. repeat (wlookup; simpl).
  eexists _, _. split; [reflexivity|]. split; [|split].
  - apply (zip_app _ _ yr (f :: cr)), (zip_fill _ _ _ (FR y cz (Tr la cl ll dl lr) dy) c).
    fold r'. rewrite Hr'eq. unfold zip_at. simpl. rewrite lookup_insert_eq.
    assert (∀ a, a ≠ y → a ∉ caddrs c → a ≠ rr → h3 !! a = h1 !! a) as Hfr31.
    { intros a Ha1 Ha2 Ha3. rewrite Hfr3; [|pne..]. simpl.
      by repeat (rewrite lookup_insert_ne by done). }
    split_and!; try done; try solve_cell; try solve_rep; try solve_crep.
    + repeat (apply rep_insert_ne; [wne|]). eapply rep_frame; [|exact Hll1].
      intros a Ha. apply Hfr31; wne.
    + repeat (apply rep_insert_ne; [wne|]). eapply rep_frame; [|exact Hlr1].
      intros a Ha. apply Hfr31; wne.
    + solve_nodup.
  - simpl. repeat (rewrite lookup_insert_ne by wne). exact Hz3.
  - unfold world_frame, heap_frame. simpl. split_and!.
    + intros a Ha.
      assert (a ∉ y :: (addrs rl ++ rr :: addrs rrr) ++ z :: (addrs ll ++ la :: addrs lr) ++ caddrs c) as Ha'.
      { intros Hin. apply Ha.
        assert (addrs (Tr rr crr rl drr rrr) ≡ₚ addrs yr ++ caddrs (f :: cr)) as Hp.
        { rewrite <- Hr'eq. unfold r'. by rewrite addrs_plug_perm. }
        unfold C. rewrite caddrs_app. clear -Hin Hp. simpl in *.
        assert (a ∈ addrs rl ++ rr :: addrs rrr ↔ a ∈ addrs yr ∨ a ∈ caddrs (f :: cr)) as Hp'.
        { by rewrite Hp, elem_of_app. }
        clear Hp. simpl in Hp'.
        repeat (progress rewrite ?elem_of_app, ?elem_of_cons in Hin).
        repeat (progress rewrite ?elem_of_app, ?elem_of_cons in Hp').
        repeat (progress rewrite ?elem_of_app, ?elem_of_cons).
        tauto. }
      repeat (rewrite lookup_insert_ne by wne).
      rewrite Hfr3; [|apply Some_ne; wne|apply cptr_ne; wne]. simpl.
      repeat (rewrite lookup_insert_ne by wne).
      apply Hfr1.
      * intros Heq. apply Ha. simpl. symmetry in Heq.
        apply tptr_Some_elem in Heq. set_solver.
      * intros Heq. apply Ha. unfold C in *. simpl in *. injection Heq as ->. set_solver.
    + intros a Ha. by rewrite !lookup_insert_ne.
    + rewrite <- Hdom1. transitivity (dom h3); [solve_dom | rewrite Hdom3; solve_dom].
Qed.

End erase.

(** ** [erase] as a whole *)

Section erase_plan.

Context {Key T : Type}.

Local Abbreviation Node := (@Node Key T).
Local Abbreviation world := (@world Key T).
Local Abbreviation tree := (@tree Key T).
Local Abbreviation frame := (@frame Key T).
Local Abbreviation W := (@W Key T).

Lemma cnodes_before_app (c1 c2 : list frame) :
  cnodes_before (c1 ++ c2) = cnodes_before c2 ++ cnodes_before c1.
Proof.
  induction c1 as [|[a col d r|a col l d] c1 IH]; simpl.
  - by rewrite app_nil_r.
  - done.
  - by rewrite IH, <- !app_assoc.
Qed.

Lemma cnodes_after_app (c1 c2 : list frame) :
  cnodes_after (c1 ++ c2) = cnodes_after c1 ++ cnodes_after c2.
Proof.
  induction c1 as [|[a col d r|a col l d] c1 IH]; simpl.
  - done.
  - by rewrite IH, <- !app_assoc.
  - done.
Qed.

Lemma leftmost_spec (t : tree) c :
  t ≠ Leaf →
  ∃ y cy dy yr cr,
    leftmost t c = (Tr y cy Leaf dy yr, cr ++ c)
    ∧ t = plug (Tr y cy Leaf dy yr) cr
    ∧ head (addrs t) = Some y
    ∧ cnodes_before cr = [].
Proof.
  revert c. induction t as [|a col l IHl d r _]; [done|]. intros c _.
  destruct l as [|b colb bl db br].
  - by exists a, col, d, r, [].
  - destruct (IHl (FL a col d r :: c)) as (y & cy & dy & yr & cr & Hl & Heq & Hhd & Hb);
      [done|].
    exists y, cy, dy, yr, (cr ++ [FL a col d r]). split_and!.
    + change (leftmost (Tr a col (Tr b colb bl db br) d r) c)
        with (leftmost (Tr b colb bl db br) (FL a col d r :: c)).
      by rewrite Hl, <- app_assoc.
    + by rewrite plug_app, <- Heq.
    + simpl in *. destruct (addrs bl ++ b :: addrs br); [done|]. by simpl in *.
    + by rewrite cnodes_before_app, Hb.
Qed.

(** The three shapes of [erase_plan]. *)
Lemma erase_plan_cases cz (l r : tree) c yoc x cx :
  erase_plan cz l r c = (yoc, x, cx) →
  (l = Leaf ∧ yoc = cz ∧ x = r ∧ cx = c)
  ∨ (l ≠ Leaf ∧ r = Leaf ∧ yoc = cz ∧ x = l ∧ cx = c)
  ∨ (l ≠ Leaf ∧ ∃ y dy cr, r = plug (Tr y yoc Leaf dy x) cr
       ∧ head (addrs r) = Some y ∧ cnodes_before cr = []
       ∧ cx = cr ++ FR y cz l dy :: c).
Proof.
  unfold erase_plan. destruct l as [|la cl ll dl lr].
  { intros [= <- <- <-]. by left. }
  destruct r as [|ra cr rl dr rr].
  { intros [= <- <- <-]. right. left. done. }
  destruct (leftmost_spec (Tr ra cr rl dr rr) []) as (y & cy & dy & yr & cr' & Hl & Heq & Hhd & Hb);
    [done|].
  rewrite Hl, app_nil_r. intros [= <- <- <-]. right. right. split; [done|].
  by exists y, dy, cr'.
Qed.

Lemma erase_plan_nodes cz (l r : tree) c yoc x cx :
  erase_plan cz l r c = (yoc, x, cx) →
  cnodes_before cx ++ nodes x ++ cnodes_after cx
  = cnodes_before c ++ (nodes l ++ nodes r) ++ cnodes_after c.
Proof.
  intros [(-> & _ & -> & ->)|[(_ & -> & _ & -> & ->)|(_ & y & dy & cr & -> & _ & Hb & ->)]]%erase_plan_cases.
  - done.
  - by rewrite app_nil_r.
  - rewrite cnodes_before_app, cnodes_after_app, nodes_plug, Hb. simpl.
    rewrite app_nil_r. by simplify_list_eq.
Qed.

Lemma erase_plan_addrs z cz (l r : tree) c yoc x cx :
  erase_plan cz l r c = (yoc, x, cx) →
  z :: addrs x ++ caddrs cx ≡ₚ (addrs l ++ z :: addrs r) ++ caddrs c.
Proof.
  intros [(-> & _ & -> & ->)|[(_ & -> & _ & -> & ->)|(_ & y & dy & cr & -> & _ & Hb & ->)]]%erase_plan_cases.
  - done.
  - simpl. solve_Permutation.
  - rewrite caddrs_app, addrs_plug_perm. simpl. solve_Permutation.
Qed.

(** *** Red-black balance after [erase] *)

Lemma ctx_ok_relabel (cr : list frame) a b col l d d' c m :
  ctx_ok (cr ++ FR a col l d :: c) m → ctx_ok (cr ++ FR b col l d' :: c) m.
Proof.
  revert m. induction cr as [|f cr IH]; intros m; simpl; [done|].
  intros (H1 & H2 & H3 & H4). split_and!; try done; [|by apply IH].
  intros Hf. destruct (H3 Hf) as [H5 H6]. split; [done|].
  by destruct cr.
Qed.

Lemma top_black_relabel (cr : list frame) a b col l d d' c :
  top_black (cr ++ FR a col l d :: c) → top_black (cr ++ FR b col l d' :: c).
Proof.
  unfold top_black. rewrite !last_app. simpl.
  destruct c as [|f c]; [done|]. simpl. done.
Qed.

Lemma parent_black_relabel (cr : list frame) a b col l d d' c :
  parent_black (cr ++ FR a col l d :: c) → parent_black (cr ++ FR b col l d' :: c).
Proof. by destruct cr. Qed.

Lemma black_height_zero_black (x : tree) :
  black_height x 0%nat → red x = false → x = Leaf.
Proof. destruct x as [|a [] l d r]; simpl; done. Qed.

(** A node with at most one child is spliced out of a red-black tree:
    either [fixDelete] has nothing to rotate and the tree stays
    red-black, or the node was a black leaf below the root. *)
Lemma splice_red_black y yoc (xl : tree) dy xr x cx0 cx :
  (xl = Leaf ∧ xr = x) ∨ (xl = x ∧ xr = Leaf) →
  red_black (plug (Tr y yoc xl dy xr) cx0) →
  (∀ m, ctx_ok cx0 m → ctx_ok cx m) →
  (top_black cx0 → top_black cx) →
  (parent_black cx0 → parent_black cx) →
  (cx = [] ↔ cx0 = []) →
  if fix_ok yoc x cx then red_black (plug (splice yoc x) cx)
  else x = Leaf ∧ cx ≠ [].
Proof.
  intros Hx (Hred & Hnrr & M & Hbh) Hctx Htop Hpar Hnil.
  destruct (plug_ctx_ok _ _ _ Hnrr Hbh) as (m & Hc & Hn & Hb & Hp).
  assert (no_red_red x ∧ (yoc = true → red x = false)
          ∧ if yoc then black_height x m
            else m = 1%nat ∧ black_height x 0%nat) as (Hnx & Hrx & Hbx).
  { simpl in Hn, Hb. destruct Hn as (Hn1 & Hn2 & Hn3).
    destruct Hx as [[-> ->]|[-> ->]]; simpl in *.
    - split; [done|]. split; [naive_solver|].
      destruct yoc; [naive_solver|]. destruct m; [done|].
      destruct Hb as [-> Hb]. done.
    - split; [done|]. split; [naive_solver|].
      destruct yoc; [naive_solver|]. destruct m; [done|].
      destruct Hb as [Hb ->]. done. }
  assert (cx0 ≠ [] → top_black cx0) as Htop0.
  { intros Hne. by eapply top_black_of_plug. }
  unfold fix_ok. destruct yoc; simpl.
  - (* a red node goes: nothing to repair *)
    assert (cx0 ≠ []) as Hne.
    { intros ->. simpl in Hred. done. }
    assert (cx ≠ []) as Hne' by (by rewrite Hnil).
    split_and!.
    + apply red_plug; [done|]. by apply Htop, Htop0.
    + eapply plug_no_red_red; [by apply Hctx| done |]. rewrite Hrx; done.
    + eapply plug_black_height; [by apply Hctx|done].
  - destruct Hbx as [-> Hbx].
    case_bool_decide as Hcx; simpl.
    + (* the replacement is the root *)
      subst cx. simpl. by eapply red_black_set_black.
    + destruct (red x) eqn:Hredx.
      * (* the replacement is red: it absorbs the missing black *)
        assert (cx0 ≠ []) as Hne by (by rewrite <- Hnil).
        destruct x as [|xa [] xl' xd xr']; try done. simpl in *.
        split_and!.
        -- apply red_plug; [done|]. by apply Htop, Htop0.
        -- eapply plug_no_red_red; [by apply Hctx| | done].
           simpl. naive_solver.
        -- eapply plug_black_height; [by apply Hctx|]. simpl. done.
      * split; [|done]. by apply black_height_zero_black.
Qed.

Lemma erase_plan_red_black z cz (l : tree) dz r c yoc x cx :
  red_black (plug (Tr z cz l dz r) c) →
  erase_plan cz l r c = (yoc, x, cx) →
  if fix_ok yoc x cx then red_black (plug (splice yoc x) cx)
  else x = Leaf ∧ cx ≠ [].
Proof.
  intros Hrb [(-> & -> & -> & ->)|[(_ & -> & -> & -> & ->)|(_ & y & dy & cr & -> & _ & Hb & ->)]]%erase_plan_cases.
  - eapply (splice_red_black z cz Leaf dz r r c c); eauto.
  - eapply (splice_red_black z cz l dz Leaf l c c); eauto.
  - change (plug (Tr z cz l dz (plug (Tr y yoc Leaf dy x) cr)) c)
      with (plug (plug (Tr y yoc Leaf dy x) cr) (FR z cz l dz :: c)) in Hrb.
    rewrite <- plug_app in Hrb.
    eapply (splice_red_black y yoc Leaf dy x x (cr ++ FR z cz l dz :: c)); eauto.
    + intros m. apply ctx_ok_relabel.
    + apply top_black_relabel.
    + apply parent_black_relabel.
    + split; intros H; by destruct cr.
Qed.

(** *** The heap after [erase] *)

Lemma nodes_set_black (t : tree) : nodes (set_black t) = nodes t.
Proof. by destruct t. Qed.

Lemma nodes_splice col (t : tree) : nodes (splice col t) = nodes t.
Proof. destruct col; simpl; [done|apply nodes_set_black]. Qed.

Lemma erase_frame_after this z (S S' : list loc) (w w1 w' : world) :
  world_frame this S w w1 → erase_frame this z S' w1 w' →
  (∀ a, a ∈ S' → a ∈ S) →
  erase_frame this z S w w'.
Proof.
  intros (Hh1 & Ho1 & Hd1) (Hh2 & Ho2 & Hd2) Hsub. split_and!.
  - intros a Ha. rewrite Hh2, Hh1; [done..|]. intros Hin. by apply Ha, Hsub.
  - by eapply objs_frame_trans.
  - by rewrite Hd2, Hd1.
Qed.

(** The first half of [erase]: up to the test of the colour of the node
    that was spliced out. *)
Lemma erase_head fuel (w : world) this n z cz l dz r c yoc x cx :
  zip_at w this (Tr z cz l dz r) c n → (height r < fuel)%nat →
  erase_plan cz l r c = (yoc, x, cx) →
  ∃ w1 nz,
    erase fuel this (mkIter (Some z) (Some this)) w
    = erase_tail fuel this (Some z) (tptr x) yoc w1
    ∧ zip_at w1 this x cx n
    ∧ heap w1 !! z = Some nz
    ∧ world_frame this (addrs (Tr z cz l dz r) ++ caddrs c) w w1.
Proof.
  intros Hz Hfuel [(-> & -> & -> & ->)|[(Hl & -> & -> & -> & ->)|(Hl & y & dy & cr & -> & Hhd & Hb & ->)]]%erase_plan_cases.
  - destruct (erase_no_left fuel _ _ _ _ _ _ _ _ Hz) as (w1 & nz & H1 & H2 & H3 & H4).
    by exists w1, nz.
  - destruct (erase_no_right fuel _ _ _ _ _ _ _ _ Hz Hl) as (w1 & nz & H1 & H2 & H3 & H4).
    exists w1, nz. split_and!; try done.
    eapply world_frame_mono; [done|]. intros a Ha. simpl.
    elem_split Ha; elem_tac.
  - destruct cr as [|f cr].
    + simpl in *.
      destruct (erase_two_children_near fuel _ _ _ _ _ _ _ _ _ _ _ _ Hz Hl Hfuel)
        as (w1 & nz & H1 & H2 & H3 & H4).
      exists w1, nz. split_and!; try done.
      by apply (zip_fill _ _ _ (FR y cz l dy) c).
    + assert (zip_at w this (Tr y yoc Leaf dy x) ((f :: cr) ++ FR z cz l dz :: c) n) as Hz'.
      { by apply (zip_app _ _ _ (f :: cr)), (zip_fill _ _ _ (FR z cz l dz) c). }
      destruct (erase_two_children_far fuel _ _ _ _ _ _ _ _ _ _ _ _ _ _ Hz' Hl Hhd Hfuel)
        as (w1 & nz & H1 & H2 & H3 & H4).
      exists w1, nz. split_and!; try done.
      eapply world_frame_mono; [done|]. intros a.
      assert (addrs (Tr z cz l dz (plug (Tr y yoc Leaf dy x) (f :: cr))) ++ caddrs c
              ≡ₚ addrs (Tr y yoc Leaf dy x) ++ caddrs ((f :: cr) ++ FR z cz l dz :: c)) as ->;
        [|done].
      rewrite caddrs_app. cbn [addrs caddrs fsib faddr].
      rewrite (addrs_plug_perm _ (f :: cr)). cbn [addrs caddrs fsib faddr].
      solve_Permutation.
Qed.

(** [erase] through a valid iterator: the result when [fixDelete] has no
    loop to run, and undefined behaviour when it is called on the null
    placeholder of a black leaf below the root. *)
Lemma erase_zip_spec fuel (w : world) this n z cz l dz r c :
  zip_at w this (Tr z cz l dz r) c n → (height r ≤ fuel)%nat →
  match erase_zip cz l r c with
  | Some t' =>
    ∃ w', erase (S fuel) this (mkIter (Some z) (Some this)) w = Ok tt w'
      ∧ zip_at w' this t' [] (size_t_wrap (n - 1))
      ∧ erase_frame this z (addrs (Tr z cz l dz r) ++ caddrs c) w w'
      ∧ nodes t' = cnodes_before c ++ (nodes l ++ nodes r) ++ cnodes_after c
  | None =>
    (erase_plan cz l r c).1.2 = Leaf → (erase_plan cz l r c).2 ≠ [] →
    erase (S fuel) this (mkIter (Some z) (Some this)) w = Undef
  end.
Proof.
  intros Hz Hfuel. unfold erase_zip.
  destruct (erase_plan cz l r c) as [[yoc x] cx] eqn:Hplan.
  destruct (erase_head (S fuel) _ _ _ _ _ _ _ _ _ _ _ _ Hz ltac:(lia) Hplan)
    as (w1 & nz & He & Hz1 & Hnz & Hfr).
  assert (NoDup (z :: addrs x ++ caddrs cx)) as Hnd.
  { rewrite (erase_plan_addrs z _ _ _ _ _ _ _ Hplan). apply Hz. }
  destruct (fix_ok yoc x cx) eqn:Hok.
  - destruct (erase_tail_spec fuel w1 this n z nz x cx yoc) as (w' & Ht & Hz' & Hfr');
      [done|done|by apply NoDup_cons in Hnd as [Hnd _]| |].
    { unfold fix_ok in Hok. destruct yoc; [by left|]. right.
      simpl in Hok. case_bool_decide; [by left|by right]. }
    exists w'. split_and!.
    + by rewrite He.
    + by apply (proj1 (zip_plug _ _ _ _ _)).
    + eapply erase_frame_after; [done..|]. intros a Ha.
      rewrite <- (erase_plan_addrs z _ _ _ _ _ _ _ Hplan).
      clear -Ha. set_solver.
    + rewrite nodes_plug, nodes_splice. by eapply erase_plan_nodes.
  - simpl. intros -> Hne. rewrite He.
    unfold fix_ok in Hok. destruct yoc; [done|].
    destruct cx as [|f up]; [done|].
    by eapply erase_tail_undef.
Qed.

End erase_plan.

Section erase_owns.

Context {Key T : Type}.
Variable comp : Key → Key → bool.

Local Abbreviation Node := (@Node Key T).
Local Abbreviation world := (@world Key T).
Local Abbreviation tree := (@tree Key T).
Local Abbreviation frame := (@frame Key T).
Local Abbreviation W := (@W Key T).

Lemma size_t_wrap_succ k :
  size_t_wrap (size_t_wrap (Z.of_nat k) + 1) = size_t_wrap (Z.of_nat (S k)).
Proof.
  unfold size_t_wrap. rewrite Zplus_mod_idemp_l. f_equal. lia.
Qed.

Lemma size_t_wrap_pred k :
  size_t_wrap (size_t_wrap (Z.of_nat (S k)) - 1) = size_t_wrap (Z.of_nat k).
Proof.
  unfold size_t_wrap. rewrite Zminus_mod_idemp_l. f_equal. lia.
Qed.

Lemma StronglySorted_remove {A} (R : relation A) (l1 : list A) e l2 :
  StronglySorted R (l1 ++ e :: l2) → StronglySorted R (l1 ++ l2).
Proof.
  induction l1 as [|a l1 IH]; simpl.
  - by intros [_ ?]%StronglySorted_cons.
  - intros [Hall Hs]%StronglySorted_cons. apply StronglySorted_cons.
    split; [|by apply IH].
    apply Forall_app in Hall as [H1 [_ H2]%Forall_cons]. by apply Forall_app.
Qed.

Lemma keys_nodes (t : tree) : keys t = (nodes t).*2.*1.
Proof. unfold keys. by rewrite nodes_entries. Qed.

Lemma count_nodes (t : tree) : node_count t = length (nodes t).
Proof. by rewrite count_length, <- nodes_addrs, length_fmap. Qed.

(** [erase] at the node [z] of a red-black tree, the node being given
    by its zipper: the tree that is left, or undefined behaviour. *)
Lemma erase_red_black fuel (w : world) this z cz l dz r c :
  owns w this (plug (Tr z cz l dz r) c) →
  red_black (plug (Tr z cz l dz r) c) →
  (height (plug (Tr z cz l dz r) c) ≤ fuel)%nat →
  match erase_zip cz l r c with
  | Some t' =>
    ∃ w', erase (S fuel) this (mkIter (Some z) (Some this)) w = Ok tt w'
      ∧ owns w' this t'
      ∧ red_black t'
      ∧ nodes t' = cnodes_before c ++ (nodes l ++ nodes r) ++ cnodes_after c
      ∧ erase_frame this z (addrs (plug (Tr z cz l dz r) c)) w w'
  | None => erase (S fuel) this (mkIter (Some z) (Some this)) w = Undef
  end.
Proof.
  intros Ho Hrb Hfuel. unfold owns in Ho.
  apply (proj2 (zip_plug _ _ _ _ _)) in Ho.
  pose proof (plug_height (Tr z cz l dz r) c) as Hh. simpl in Hh.
  pose proof (erase_zip_spec fuel w this _ z cz l dz r c Ho ltac:(lia)) as Hspec.
  unfold erase_zip in *.
  destruct (erase_plan cz l r c) as [[yoc x] cx] eqn:Hplan.
  pose proof (erase_plan_red_black z cz l dz r c yoc x cx Hrb Hplan) as Hpure.
  destruct (fix_ok yoc x cx).
  - destruct Hspec as (w' & He & Hz' & Hfr & Hn).
    exists w'. split_and!; try done.
    + unfold owns. rewrite count_nodes, Hn.
      rewrite count_nodes, nodes_plug in Hz'. simpl in Hz'.
      rewrite !length_app in Hz'. simpl in Hz'.
      rewrite !length_app.
      replace (length (cnodes_before c) + (length (nodes l) + S (length (nodes r)) + length (cnodes_after c)))%nat
        with (S (length (cnodes_before c) + (length (nodes l) + length (nodes r) + length (cnodes_after c))))%nat
        in Hz' by lia.
      by rewrite size_t_wrap_pred in Hz'.
    + destruct Hfr as (Hh1 & Ho1 & Hd1). split_and!; try done.
      eapply heap_frame_perm; [|done]. by rewrite addrs_plug_perm.
  - simpl in Hspec. destruct Hpure as [-> Hne]. by apply Hspec.
Qed.

(** Removing an entry keeps the order. *)
Lemma ordered_remove (t t' : tree) A e B :
  ordered comp t → nodes t = A ++ e :: B → nodes t' = A ++ B →
  ordered comp t'.
Proof.
  unfold ordered. rewrite !keys_nodes. intros Hs H1 H2.
  rewrite H1 in Hs. rewrite H2.
  rewrite !fmap_app, !fmap_cons in Hs. rewrite !fmap_app.
  by eapply StronglySorted_remove.
Qed.

(** [erase] through an iterator at a node of the map's tree. *)
Lemma erase_owns fuel (w : world) this t z :
  owns w this t → red_black t → z ∈ addrs t → (height t ≤ fuel)%nat →
  (∃ w' t' A d B,
      erase (S fuel) this (mkIter (Some z) (Some this)) w = Ok tt w'
      ∧ owns w' this t' ∧ red_black t'
      ∧ nodes t = A ++ (z, d) :: B ∧ nodes t' = A ++ B
      ∧ erase_frame this z (addrs t) w w')
  ∨ erase (S fuel) this (mkIter (Some z) (Some this)) w = Undef.
Proof.
  intros Ho Hrb Hz Hfuel.
  destruct (elem_of_addrs_plug t z Hz) as (c & cz & l & dz & r & ->).
  pose proof (erase_red_black fuel w this z cz l dz r c Ho Hrb Hfuel) as H.
  destruct (erase_zip cz l r c) as [t'|]; [|by right].
  destruct H as (w' & He & Ho' & Hrb' & Hn & Hfr). left.
  exists w', t', (cnodes_before c ++ nodes l), dz, (nodes r ++ cnodes_after c).
  split_and!; try done.
  - rewrite nodes_plug. simpl. by rewrite <- !app_assoc.
  - rewrite Hn. by rewrite <- !app_assoc.
Qed.

End erase_owns.

(** ** [clearTree] and [copyTree] *)

Section copy_clear.

Context {Key T : Type}.

Local Abbreviation Node := (@Node Key T).
Local Abbreviation world := (@world Key T).
Local Abbreviation tree := (@tree Key T).
Local Abbreviation frame := (@frame Key T).
Local Abbreviation W := (@W Key T).

(** [clearTree] frees the nodes of the tree and nothing else. *)
Lemma clearTree_spec fuel (h : gmap loc Node) o par (t : tree) :
  rep h par t → NoDup (addrs t) → (height t < fuel)%nat →
  ∃ h', clearTree fuel (tptr t) (mkWorld h o) = Ok tt (mkWorld h' o)
    ∧ heap_frame (addrs t) h h'
    ∧ (∀ a, a ∈ addrs t → h' !! a = None).
Proof.
  revert fuel h par.
  induction t as [|a c l IHl d r IHr]; intros fuel h par Hrep Hnd Hfuel.
  - destruct fuel; [lia|]. exists h. split_and!; try done.
    intros a Ha. by apply elem_of_nil in Ha.
  - destruct fuel as [|fuel]; [lia|]. simpl in Hrep, Hnd, Hfuel.
    destruct Hrep as (Ha & Hl & Hr).
    apply NoDup_app in Hnd as (Hndl & Hdj & Hnd).
    apply NoDup_cons in Hnd as (Har & Hndr).
    assert (a ∉ addrs l) as Hal.
    { intros Hin. apply (Hdj a Hin). left. }
    destruct (IHl fuel h (Some a) Hl Hndl ltac:(lia)) as (h1 & E1 & F1 & N1).
    assert (rep h1 (Some a) r) as Hr1.
    { eapply rep_frame; [|exact Hr]. intros x Hx. apply F1.
      intros Hin. apply (Hdj x Hin). by right. }
    destruct (IHr fuel h1 (Some a) Hr1 Hndr ltac:(lia)) as (h2 & E2 & F2 & N2).
    assert (h1 !! a = h !! a) as Ha1 by (by apply F1).
    assert (h2 !! a = h !! a) as Ha2 by (by rewrite F2).
    exists (delete a h2). split_and!.
    + cbn [clearTree tptr]. rewrite ptr_eqb_Some_None.
      unfold get_left, get_right, delete_Node, deref, bind, ret. simpl.
      rewrite Ha. simpl. rewrite E1. simpl. rewrite Ha1, Ha. simpl.
      rewrite E2. simpl. by rewrite Ha2, Ha.
    + intros x Hx. simpl in Hx.
      rewrite lookup_delete_ne by (intros ->; apply Hx; elem_tac).
      rewrite F2 by (intros Hin; apply Hx; elem_tac).
      apply F1. intros Hin; apply Hx; elem_tac.
    + intros x Hx. simpl in Hx.
      destruct (decide (x = a)) as [->|Hxa]; [by rewrite lookup_delete_eq|].
      rewrite lookup_delete_ne by done.
      apply elem_of_app in Hx as [Hx|Hx].
      * rewrite F2; [by apply N1|]. intros Hin. apply (Hdj x Hx). by right.
      * apply elem_of_cons in Hx as [->|Hx]; [done|]. by apply N2.
Qed.

Lemma same_shape_entries (t t' : tree) : same_shape t t' → entries t = entries t'.
Proof.
  revert t'. induction t as [|a c l IHl d r IHr]; intros [|a' c' l' d' r']; simpl; try done.
  intros (_ & -> & Hl & Hr). by rewrite (IHl _ Hl), (IHr _ Hr).
Qed.

Lemma same_shape_count (t t' : tree) : same_shape t t' → node_count t = node_count t'.
Proof.
  revert t'. induction t as [|a c l IHl d r IHr]; intros [|a' c' l' d' r']; simpl; try done.
  intros (_ & _ & Hl & Hr). by rewrite (IHl _ Hl), (IHr _ Hr).
Qed.

Lemma same_shape_height (t t' : tree) : same_shape t t' → height t = height t'.
Proof.
  revert t'. induction t as [|a c l IHl d r IHr]; intros [|a' c' l' d' r']; simpl; try done.
  intros (_ & _ & Hl & Hr). by rewrite (IHl _ Hl), (IHr _ Hr).
Qed.

Lemma same_shape_red (t t' : tree) : same_shape t t' → red t = red t'.
Proof. destruct t, t'; simpl; try done. by intros (-> & _). Qed.

Lemma same_shape_no_red_red (t t' : tree) :
  same_shape t t' → no_red_red t → no_red_red t'.
Proof.
  revert t'. induction t as [|a c l IHl d r IHr]; intros [|a' c' l' d' r']; simpl; try done.
  intros (<- & _ & Hl & Hr) (H1 & H2 & H3).
  rewrite <- (same_shape_red _ _ Hl), <- (same_shape_red _ _ Hr). eauto.
Qed.

Lemma same_shape_black_height (t t' : tree) n :
  same_shape t t' → black_height t n → black_height t' n.
Proof.
  revert t' n. induction t as [|a c l IHl d r IHr]; intros [|a' c' l' d' r'] n; simpl; try done.
  intros (<- & _ & Hl & Hr). destruct c; [naive_solver|].
  destruct n; naive_solver.
Qed.

Lemma same_shape_red_black (t t' : tree) :
  same_shape t t' → red_black t → red_black t'.
Proof.
  intros Hs (H1 & H2 & n & H3). split_and!.
  - by rewrite <- (same_shape_red _ _ Hs).
  - by eapply same_shape_no_red_red.
  - exists n. by eapply same_shape_black_height.
Qed.

Lemma same_shape_refl (t : tree) : same_shape t t.
Proof. induction t; simpl; eauto. Qed.

(** [copyTree] builds a tree of the same shape on new nodes and leaves
    the nodes that exist alone. *)
Lemma copyTree_spec fuel (h : gmap loc Node) o par (t : tree) par' :
  rep h par t → (height t < fuel)%nat →
  ∃ t' h', copyTree fuel (tptr t) par' (mkWorld h o) = Ok (tptr t') (mkWorld h' o)
    ∧ same_shape t t'
    ∧ rep h' par' t'
    ∧ NoDup (addrs t')
    ∧ (∀ a, a ∈ addrs t' → h !! a = None)
    ∧ (∀ a, is_Some (h !! a) → h' !! a = h !! a).
Proof.
  revert fuel h par par'.
  induction t as [|a c l IHl d r IHr]; intros fuel h par par' Hrep Hfuel.
  - destruct fuel; [lia|]. exists Leaf, h. split_and!; try done.
    + apply NoDup_nil_2.
    + intros a Ha. by apply elem_of_nil in Ha.
  - destruct fuel as [|fuel]; [lia|]. simpl in Hrep, Hfuel.
    destruct Hrep as (Ha & Hl & Hr).
    remember (fresh (dom h)) as b eqn:Hb.
    assert (h !! b = None) as Hbh by (subst b; apply fresh_lookup).
    assert (a ≠ b) as Hab by (intros ->; congruence).
    assert (b ∉ addrs l) as Hbl by (subst b; by eapply fresh_rep).
    assert (b ∉ addrs r) as Hbr by (subst b; by eapply fresh_rep).
    set (h2 := <[b := with_color c (mkNode d None None par' true)]>
                 (<[b := mkNode d None None par' true]> h)).
    assert (∀ x, x ≠ b → h2 !! x = h !! x) as F0.
    { intros x Hx. unfold h2. by rewrite !lookup_insert_ne. }
    assert (rep h2 (Some a) l) as Hl2.
    { unfold h2. by repeat apply rep_insert_ne. }
    destruct (IHl fuel h2 (Some a) (Some b) Hl2 ltac:(lia))
      as (l' & h3 & E1 & S1 & R1 & N1 & D1 & F1).
    assert (h3 !! b = Some (mkNode d None None par' c)) as Hb3.
    { rewrite F1; unfold h2; by rewrite lookup_insert_eq. }
    assert (b ∉ addrs l') as Hbl'.
    { intros Hin. apply D1 in Hin. unfold h2 in Hin. by rewrite lookup_insert_eq in Hin. }
    set (h4 := <[b := with_left (tptr l') (mkNode d None None par' c)]> h3).
    assert (∀ x, is_Some (h !! x) → h4 !! x = h !! x) as F4.
    { intros x Hx. assert (x ≠ b) by (intros ->; rewrite Hbh in Hx; by destruct Hx).
      unfold h4. rewrite lookup_insert_ne by done.
      rewrite F1; rewrite F0 by done; done. }
    assert (rep h4 (Some a) r) as Hr4.
    { eapply rep_frame; [|exact Hr]. intros x Hx. apply F4. by eapply rep_dom. }
    destruct (IHr fuel h4 (Some a) (Some b) Hr4 ltac:(lia))
      as (r' & h5 & E2 & S2 & R2 & N2 & D2 & F2).
    assert (h5 !! b = Some (mkNode d (tptr l') None par' c)) as Hb5.
    { rewrite F2; unfold h4; by rewrite lookup_insert_eq. }
    assert (b ∉ addrs r') as Hbr'.
    { intros Hin. apply D2 in Hin. unfold h4 in Hin. by rewrite lookup_insert_eq in Hin. }
    assert (∀ x, x ∈ addrs l' → x ∉ addrs r') as Hlr.
    { intros x Hx Hin. apply D2 in Hin.
      destruct (rep_dom _ _ _ _ R1 Hx) as [nx Hnx].
      unfold h4 in Hin. rewrite lookup_insert_ne in Hin by congruence. congruence. }
    exists (Tr b c l' d r'),
      (<[b := with_right (tptr r') (mkNode d (tptr l') None par' c)]> h5).
    split_and!.
    + cbn [copyTree tptr]. rewrite ptr_eqb_Some_None.
      unfold get_data, get_color, get_left, get_right, set_color, set_left,
        set_right, modify, deref, new_Node, bind, ret. simpl.
      rewrite Ha. simpl. rewrite <- Hb.
      rewrite lookup_insert_ne by done. rewrite Ha. simpl.
      rewrite lookup_insert_eq. simpl.
      rewrite lookup_insert_ne by done. rewrite lookup_insert_ne by done.
      rewrite Ha. simpl. fold h2. rewrite E1. simpl.
      rewrite Hb3. simpl. fold h4.
      rewrite (F4 a) by (by rewrite Ha). rewrite Ha. simpl.
      rewrite E2. simpl. rewrite Hb5. simpl. done.
    + simpl. done.
    + simpl. split_and!.
      * by rewrite lookup_insert_eq.
      * apply rep_insert_ne; [done|].
        eapply rep_frame; [|exact R1]. intros x Hx.
        destruct (rep_dom _ _ _ _ R1 Hx) as [nx Hnx].
        rewrite F2; unfold h4; rewrite lookup_insert_ne by congruence; [done|].
        by rewrite Hnx.
      * by apply rep_insert_ne.
    + simpl. apply NoDup_app. split_and!; [done| |].
      * intros x Hx [->|Hin]%elem_of_cons; [done|]. by apply (Hlr x).
      * by apply NoDup_cons.
    + intros x. simpl. intros [Hx|[->|Hx]%elem_of_cons]%elem_of_app.
      * assert (x ≠ b) by congruence. rewrite <- F0 by done. by apply D1.
      * done.
      * assert (x ≠ b) by congruence.
        destruct (h !! x) eqn:Hhx; [|done].
        pose proof (F4 x ltac:(by rewrite Hhx)) as E.
        rewrite (D2 x Hx), Hhx in E. done.
    + intros x Hx. assert (x ≠ b) by (intros ->; rewrite Hbh in Hx; by destruct Hx).
      rewrite lookup_insert_ne by done.
      rewrite F2; [by apply F4|]. by rewrite F4.
Qed.

End copy_clear.

(** ** The operations on a map that owns its tree *)

Section operations.

Context {Key T : Type}.
Variable comp : Key → Key → bool.
Variable T_default : T.
Hypothesis comp_swo : strict_weak_order comp.

Local Abbreviation Node := (@Node Key T).
Local Abbreviation world := (@world Key T).
Local Abbreviation tree := (@tree Key T).
Local Abbreviation frame := (@frame Key T).
Local Abbreviation W := (@W Key T).

(** A heap represents one tree only from a given root. *)
Lemma rep_unique (h : gmap loc Node) par par' (t t' : tree) :
  rep h par t → rep h par' t' → tptr t = tptr t' → t = t'.
Proof.
  revert par par' t'.
  induction t as [|a c l IHl d r IHr]; intros par par' [|a' c' l' d' r']; simpl; try done.
  intros (Ha & Hl & Hr) (Ha' & Hl' & Hr') [= <-].
  rewrite Ha in Ha'. injection Ha' as <- Hle Hre _ <-.
  by rewrite (IHl _ _ _ Hl Hl' Hle), (IHr _ _ _ Hr Hr' Hre).
Qed.

Lemma owns_unique (w : world) this (t t' : tree) :
  owns w this t → owns w this t' → t = t'.
Proof.
  intros (Ho & Hr & _) (Ho' & Hr' & _). simpl in *.
  rewrite Ho in Ho'. injection Ho' as Hp _. by eapply rep_unique.
Qed.

Lemma owns_intro (w : world) this (t : tree) :
  objs w !! this = Some (mkMap (tptr t) (size_t_wrap (Z.of_nat (node_count t)))) →
  rep (heap w) None t → NoDup (addrs t) → owns w this t.
Proof.
  intros Ho Hr Hnd. split_and!; simpl; try done. by rewrite app_nil_r.
Qed.

Lemma owns_elim (w : world) this (t : tree) :
  owns w this t →
  objs w !! this = Some (mkMap (tptr t) (size_t_wrap (Z.of_nat (node_count t))))
  ∧ rep (heap w) None t ∧ NoDup (addrs t).
Proof.
  intros (Ho & Hr & _ & Hnd). simpl in *. by rewrite app_nil_r in Hnd.
Qed.

Lemma owns_frame (w w' : world) this (t : tree) :
  owns w this t →
  (∀ a, a ∈ addrs t → heap w' !! a = heap w !! a) →
  objs w' !! this = objs w !! this →
  owns w' this t.
Proof.
  intros (Ho & Hr & Hnd)%owns_elim Hh Hobj. apply owns_intro; try done.
  - by rewrite Hobj.
  - by eapply rep_frame.
Qed.

Lemma updates_refl this (t : tree) (w : world) : updates this t t w w.
Proof. split_and!; [done|by left|done]. Qed.

(** The invariant after an operation on the object [this]. *)
Lemma world_inv_update M (w w' : world) this (t t' : tree) :
  world_inv comp M w →
  M !! this = Some t ∨ (M !! this = None ∧ t = Leaf) →
  owns w' this t' → red_black t' → ordered comp t' →
  updates this t t' w w' →
  world_inv comp (<[this := t']> M) w'.
Proof.
  intros (Hdom & Hown & Hdisj) Ht Ho' Hrb' Hord' (Hfr & Hnew & Hobj).
  assert (∀ j tj a, j ≠ this → M !! j = Some tj → a ∈ addrs tj →
            is_Some (heap w !! a) ∧ a ∉ addrs t) as Hother.
  { intros j tj a Hj Hmj Ha. destruct (Hown j tj Hmj) as ((_ & Hr & _)%owns_elim & _).
    split; [by eapply rep_dom|].
    destruct Ht as [Ht|[_ ->]]; [|by intros ?%elem_of_nil].
    intros Hin. by apply (Hdisj j this tj t Hj Hmj Ht a). }
  split_and!.
  - apply set_eq. intros j. rewrite dom_insert, elem_of_union, elem_of_singleton.
    rewrite !elem_of_dom. destruct (decide (j = this)) as [->|Hj].
    + destruct Ho' as (Ho' & _). rewrite Ho'. split; [by eexists|by left].
    + rewrite Hobj by done. rewrite <- !elem_of_dom, Hdom. naive_solver.
  - intros i ti. destruct (decide (i = this)) as [->|Hi].
    + rewrite lookup_insert_eq. by intros [= <-].
    + rewrite lookup_insert_ne by done. intros Hmi.
      destruct (Hown i ti Hmi) as (Ho & Hrb & Hord). split_and!; try done.
      eapply owns_frame; [done| |by apply Hobj].
      intros a Ha. destruct (Hother i ti a Hi Hmi Ha). by apply Hfr.
  - intros i j ti tj Hij.
    destruct (decide (i = this)) as [->|Hi]; destruct (decide (j = this)) as [->|Hj];
      try done; rewrite ?lookup_insert_eq, ?lookup_insert_ne by done.
    + intros [= <-] Hmj a Ha Hin.
      destruct (Hother j tj a Hj Hmj Hin) as [[n Hn] Hni].
      destruct (Hnew a Ha) as [?|Hnone]; [done|congruence].
    + intros Hmi [= <-] a Ha Hin.
      destruct (Hother i ti a Hi Hmi Ha) as [[n Hn] Hni].
      destruct (Hnew a Hin) as [?|Hnone]; [done|congruence].
    + by apply Hdisj.
Qed.

(** *** [insert] and [operator[]] *)

Lemma insert_tree_count z value (t : tree) c :
  descend comp value.1 t [] = (Leaf, c) →
  node_count (insert_tree comp z value t) = S (node_count t).
Proof.
  intros Hd. rewrite !count_length.
  by rewrite (insert_tree_new_addrs comp z value t c Hd).
Qed.

Lemma insert_owns fuel (w : world) this (t : tree) value :
  owns w this t → red_black t → ordered comp t → (height t < fuel)%nat →
  ∃ it b w',
    insert comp fuel this value w = Ok (it, b) w'
    ∧ owns w' this (insert_tree comp (fresh (dom (heap w))) value t)
    ∧ updates this t (insert_tree comp (fresh (dom (heap w))) value t) w w'.
Proof.
  intros Ho Hrb Hord Hfuel.
  destruct (descend comp value.1 t []) as [t0 c] eqn:Hd.
  destruct t0 as [|a col l d r].
  - destruct (red_black_descend comp _ _ _ _ Hrb Hd) as (Htop & _).
    destruct (insert_new_spec comp fuel w this _ t c value Ho Hd Htop Hfuel)
      as (w' & He & Hz & Hfr & Hobj & Hdom).
    exists (mkIter (Some (fresh (dom (heap w)))) (Some this)), true, w'.
    split_and!; try done.
    + unfold owns. rewrite (insert_tree_count _ _ _ _ Hd).
      by rewrite <- size_t_wrap_succ.
    + split_and!; try done.
      * intros a Ha Hni. apply Hfr. intros [->|Hin]%elem_of_cons; [|done].
        rewrite fresh_lookup in Ha. by destruct Ha.
      * intros a Ha. rewrite (insert_tree_new_addrs comp _ _ _ _ Hd) in Ha.
        apply elem_of_cons in Ha as [->|Ha]; [right; apply fresh_lookup|by left].
  - exists (mkIter (Some a) (Some this)), false, w.
    rewrite (insert_tree_found comp _ _ _ _ _ _ _ _ _ Hd).
    split_and!; try done.
    + by eapply insert_found_spec.
    + apply updates_refl.
Qed.

Lemma subscript_owns fuel (w : world) this (t : tree) key :
  owns w this t → red_black t → ordered comp t → (height t < fuel)%nat →
  ∃ a w',
    subscript comp T_default fuel this key w = Ok a w'
    ∧ owns w' this (insert_tree comp (fresh (dom (heap w))) (key, T_default) t)
    ∧ updates this t (insert_tree comp (fresh (dom (heap w))) (key, T_default) t) w w'.
Proof.
  intros Ho Hrb Hord Hfuel. unfold subscript, bind.
  rewrite (findNode_spec comp fuel key w this t _ Ho Hfuel).
  destruct (descend comp key t []) as [t0 c] eqn:Hd.
  destruct t0 as [|a col l d r]; simpl.
  - destruct (red_black_descend comp _ _ _ _ Hrb Hd) as (Htop & _).
    destruct (insert_new_spec comp fuel w this _ t c (key, T_default) Ho Hd Htop Hfuel)
      as (w' & He & Hz & Hfr & Hobj & Hdom).
    rewrite He. simpl. exists (fresh (dom (heap w))), w'.
    split_and!; try done.
    + unfold owns. rewrite (insert_tree_count _ (key, T_default) _ _ Hd).
      by rewrite <- size_t_wrap_succ.
    + split_and!; try done.
      * intros a Ha Hni. apply Hfr. intros [->|Hin]%elem_of_cons; [|done].
        rewrite fresh_lookup in Ha. by destruct Ha.
      * intros a Ha.
        rewrite (insert_tree_new_addrs comp _ (key, T_default) _ _ Hd) in Ha.
        apply elem_of_cons in Ha as [->|Ha]; [right; apply fresh_lookup|by left].
  - exists a, w.
    rewrite (insert_tree_found comp _ (key, T_default) _ _ _ _ _ _ _ Hd).
    split_and!; try done. apply updates_refl.
Qed.

(** *** [clear], the copy constructor and the assignment *)

Lemma clear_owns fuel (w : world) this (t : tree) :
  owns w this t → (height t < fuel)%nat →
  ∃ w', clear fuel this w = Ok tt w'
    ∧ owns w' this Leaf
    ∧ updates this t Leaf w w'.
Proof.
  intros (Ho & Hr & Hnd)%owns_elim Hfuel. destruct w as [h o]. simpl in *.
  destruct (clearTree_spec fuel h o None t Hr Hnd Hfuel) as (h' & Hc & Hfr & Hnone).
  unfold clear, get_root, set_root, set_tree_size, put_obj, this_obj, bind, ret.
  simpl. rewrite Ho. simpl. rewrite Hc. simpl. rewrite Ho. simpl.
  rewrite lookup_insert_eq. simpl.
  eexists. split; [reflexivity|]. split.
  - apply owns_intro; simpl; [by rewrite lookup_insert_eq|done|apply NoDup_nil_2].
  - split_and!; simpl.
    + intros a _ Ha. by apply Hfr.
    + by intros a ?%elem_of_nil.
    + intros a Ha. by rewrite !lookup_insert_ne.
Qed.

Lemma same_shape_ordered (t t' : tree) :
  same_shape t t' → ordered comp t → ordered comp t'.
Proof. unfold ordered, keys. by intros ->%same_shape_entries. Qed.

Lemma map_copy_ctor_owns fuel (w : world) other (t : tree) :
  owns w other t → (height t < fuel)%nat →
  ∃ w' t',
    map_copy_ctor fuel other w = Ok (fresh (dom (objs w))) w'
    ∧ owns w' (fresh (dom (objs w))) t'
    ∧ same_shape t t'
    ∧ updates (fresh (dom (objs w))) Leaf t' w w'.
Proof.
  intros (Ho & Hr & Hnd)%owns_elim Hfuel. destruct w as [h o]. simpl in *.
  remember (fresh (dom o)) as this eqn:Hthis.
  assert (o !! this = None) as Hnone.
  { subst this. apply not_elem_of_dom, is_fresh. }
  assert (this ≠ other) as Hne by (intros ->; congruence).
  destruct (copyTree_spec fuel h (<[this := mkMap None 0]> o) None t None Hr Hfuel)
    as (t' & h' & Hc & Hs & Hr' & Hnd' & Hnew & Hfr).
  exists (mkWorld h' (<[this := mkMap (tptr t') (size_t_wrap (Z.of_nat (node_count t)))]> o)), t'.
  split_and!.
  - unfold map_copy_ctor, map_ctor, set_root, set_tree_size, put_obj, this_obj, bind, ret.
    simpl. rewrite <- Hthis. rewrite lookup_insert_ne by done. simpl.
    rewrite Ho. simpl. rewrite Hc. simpl. rewrite lookup_insert_eq. simpl.
    rewrite !lookup_insert_ne by done. simpl. rewrite Ho. simpl.
    rewrite lookup_insert_eq. simpl. by rewrite !insert_insert_eq.
  - apply owns_intro; simpl; [|done..].
    by rewrite lookup_insert_eq, (same_shape_count _ _ Hs).
  - done.
  - split_and!; simpl.
    + intros a Ha _. by apply Hfr.
    + intros a Ha. right. by apply Hnew.
    + intros a Ha. by rewrite lookup_insert_ne.
Qed.

Lemma map_assign_self fuel (w : world) this : map_assign fuel this this w = Ok tt w.
Proof. unfold map_assign. by rewrite bool_decide_eq_true_2. Qed.

Lemma map_assign_owns fuel (w : world) this other (t t2 : tree) :
  owns w this t → owns w other t2 → this ≠ other →
  (∀ a, a ∈ addrs t2 → a ∉ addrs t) →
  (height t < fuel)%nat → (height t2 < fuel)%nat →
  ∃ w' t',
    map_assign fuel this other w = Ok tt w'
    ∧ owns w' this t'
    ∧ same_shape t2 t'
    ∧ updates this t t' w w'.
Proof.
  intros (Ho & Hr & Hnd)%owns_elim (Ho2 & Hr2 & Hnd2)%owns_elim Hne Hdisj Hf1 Hf2.
  destruct w as [h o]. simpl in *.
  destruct (clearTree_spec fuel h o None t Hr Hnd Hf1) as (h1 & Hc & Hfr1 & Hnone).
  assert (rep h1 None t2) as Hr2'.
  { eapply rep_frame; [|exact Hr2]. intros a Ha. by apply Hfr1, Hdisj. }
  destruct (copyTree_spec fuel h1 o None t2 None Hr2' Hf2)
    as (t' & h' & Hcp & Hs & Hr' & Hnd' & Hnew & Hfr).
  exists (mkWorld h' (<[this := mkMap (tptr t') (size_t_wrap (Z.of_nat (node_count t2)))]> o)), t'.
  split_and!.
  - unfold map_assign. rewrite bool_decide_eq_false_2 by done. simpl.
    unfold get_root, set_root, set_tree_size, put_obj, this_obj, bind, ret.
    simpl. rewrite Ho. simpl. rewrite Hc. simpl. rewrite Ho2. simpl.
    rewrite Hcp. simpl. rewrite Ho. simpl.
    rewrite lookup_insert_ne by done. simpl. rewrite Ho2. simpl.
    rewrite lookup_insert_eq. simpl. by rewrite !insert_insert_eq.
  - apply owns_intro; simpl; [|done..].
    by rewrite lookup_insert_eq, (same_shape_count _ _ Hs).
  - done.
  - split_and!; simpl.
    + intros a Ha Hni. rewrite Hfr; [by apply Hfr1|]. by rewrite Hfr1.
    + intros a Ha. apply Hnew in Ha.
      destruct (decide (a ∈ addrs t)) as [|Hni]; [by left|right].
      by rewrite <- Hfr1.
    + intros a Ha. by rewrite lookup_insert_ne.
Qed.

(** *** [erase] through an invalid iterator *)

Lemma erase_end fuel (w : world) this cont :
  erase fuel this (mkIter None cont) w = Throw invalid_iterator w.
Proof. unfold erase. simpl. by rewrite orb_true_r. Qed.

Lemma erase_foreign fuel (w : world) this n cont :
  cont ≠ Some this →
  erase fuel this (mkIter n cont) w = Throw invalid_iterator w.
Proof. intros Hne. unfold erase. simpl. by rewrite ptr_eqb_ne. Qed.

(** *** Operations on an object that does not exist *)

Lemma insert_no_obj fuel (w : world) this value :
  objs w !! this = None → insert comp fuel this value w = Undef.
Proof. intros H. unfold insert, get_root, this_obj, bind. by rewrite H. Qed.

Lemma subscript_no_obj fuel (w : world) this key :
  objs w !! this = None → subscript comp T_default fuel this key w = Undef.
Proof.
  intros H. unfold subscript, findNode, get_root, this_obj, bind. by rewrite H.
Qed.

Lemma clear_no_obj fuel (w : world) this :
  objs w !! this = None → clear fuel this w = Undef.
Proof. intros H. unfold clear, get_root, this_obj, bind. by rewrite H. Qed.

Lemma map_assign_no_this fuel (w : world) this other :
  this ≠ other → objs w !! this = None → map_assign fuel this other w = Undef.
Proof.
  intros Hne H. unfold map_assign. rewrite bool_decide_eq_false_2 by done. simpl.
  unfold get_root, this_obj, bind. by rewrite H.
Qed.

Lemma map_assign_no_other fuel (w : world) this other (t : tree) :
  owns w this t → (height t < fuel)%nat →
  objs w !! other = None → map_assign fuel this other w = Undef.
Proof.
  intros (Ho & Hr & Hnd)%owns_elim Hfuel H. destruct w as [h o]. simpl in *.
  assert (this ≠ other) as Hne by (intros ->; congruence).
  destruct (clearTree_spec fuel h o None t Hr Hnd Hfuel) as (h1 & Hc & _).
  unfold map_assign. rewrite bool_decide_eq_false_2 by done. simpl.
  unfold get_root, this_obj, bind, ret. simpl. rewrite Ho. simpl.
  rewrite Hc. simpl. by rewrite H.
Qed.

(** *** Every step keeps the invariant *)

Lemma returns_at {A} (m : nat → W A) (w : world) r F :
  returns m w r → ∃ fuel, (F ≤ fuel)%nat ∧ m fuel w = r.
Proof.
  intros [f0 H]. exists (Nat.max f0 F). split; [lia|]. apply H. lia.
Qed.

Lemma world_inv_lookup M (w : world) this :
  world_inv comp M w → M !! this = None → objs w !! this = None.
Proof.
  intros (Hdom & _) H. apply not_elem_of_dom. rewrite <- Hdom.
  by apply not_elem_of_dom.
Qed.

Lemma world_inv_empty : world_inv comp ∅ (mkWorld (∅ : gmap loc Node) ∅).
Proof.
  split_and!.
  - simpl. by rewrite !dom_empty_L.
  - intros i t. by rewrite lookup_empty.
  - intros i j ti tj _. by rewrite lookup_empty.
Qed.

Lemma red_black_Leaf : red_black (Leaf : tree).
Proof. split_and!; simpl; try done. by exists 0%nat. Qed.

Lemma ordered_Leaf : ordered comp (Leaf : tree).
Proof. unfold ordered, keys. simpl. constructor. Qed.

Lemma world_inv_step M (w w' : world) this (t t' : tree) :
  world_inv comp M w →
  M !! this = Some t ∨ (M !! this = None ∧ t = Leaf) →
  owns w' this t' → red_black t' → ordered comp t' →
  updates this t t' w w' →
  ∃ M', world_inv comp M' w'
    ∧ (∀ j tj, j ≠ this → M !! j = Some tj → M' !! j = Some tj)
    ∧ M' !! this = Some t'.
Proof.
  intros Hinv Ht Ho Hrb Hord Hup. exists (<[this := t']> M). split_and!.
  - by eapply world_inv_update.
  - intros j tj Hj Hm. by rewrite lookup_insert_ne.
  - by rewrite lookup_insert_eq.
Qed.

Lemma step_inv M (w w' : world) o :
  world_inv comp M w → step comp T_default w o w' →
  ∃ M', world_inv comp M' w'
    ∧ (∀ j t, ¬ touches o j → M !! j = Some t → M' !! j = Some t).
Proof.
  intros Hinv [Hvalid Hret].
  assert (∃ r, returns (run_op comp T_default o) w r
               ∧ (r = Ok tt w' ∨ ∃ e, r = Throw e w')) as (r & Hr & Hres).
  { destruct Hret as [H|[e H]]; eexists; split; eauto. }
  clear Hret.
  assert (∀ this t t',
            M !! this = Some t ∨ (M !! this = None ∧ t = Leaf) →
            owns w' this t' → red_black t' → ordered comp t' →
            updates this t t' w w' →
            (∀ j tj, ¬ touches o j → M !! j = Some tj → j ≠ this) →
            ∃ M', world_inv comp M' w'
              ∧ (∀ j t, ¬ touches o j → M !! j = Some t → M' !! j = Some t)) as Hclose.
  { intros this t t' Ht Ho Hrb Hord Hup Hto.
    destruct (world_inv_step M w w' this t t' Hinv Ht Ho Hrb Hord Hup) as (M' & H1 & H2 & _).
    exists M'. split; [done|]. intros j tj Hj Hm. apply H2; [|done]. by eapply Hto. }
  assert (w' = w → ∃ M', world_inv comp M' w'
              ∧ (∀ j t, ¬ touches o j → M !! j = Some t → M' !! j = Some t)) as Hsame.
  { intros ->. by exists M. }
  pose proof Hinv as (Hdom & Hown & Hdisj).
  destruct o as [|other|this other|this value|this pos|this key|this]; simpl in *.
  - (* map() *)
    destruct (returns_at _ _ _ 0%nat Hr) as (fuel & _ & He); simpl in He.
    unfold map_ctor, bind, ret in He. simpl in He. subst r.
    destruct Hres as [[= <-]|[e [=]]].
    assert (M !! fresh (dom (objs w)) = None) as Hnone.
    { apply not_elem_of_dom. rewrite Hdom. apply is_fresh. }
    apply (Hclose (fresh (dom (objs w))) Leaf Leaf);
      [by right| |apply red_black_Leaf|apply ordered_Leaf| |].
    + apply owns_intro; simpl; [by rewrite lookup_insert_eq|done|apply NoDup_nil_2].
    + split_and!; simpl; [done|by intros a ?%elem_of_nil|].
      intros a Ha. by rewrite lookup_insert_ne.
    + intros j tj _ Hj ->. congruence.
  - (* map(other) *)
    destruct (M !! other) as [t|] eqn:Hm.
    2:{ apply (world_inv_lookup _ _ _ Hinv) in Hm. rewrite Hm in Hvalid.
        by destruct Hvalid. }
    destruct (Hown other t Hm) as (Ho & Hrb & Hord).
    destruct (returns_at _ _ _ (S (height t)) Hr) as (fuel & Hfuel & He); simpl in He.
    destruct (map_copy_ctor_owns fuel w other t Ho ltac:(lia))
      as (w1 & t' & Hc & Ho1 & Hs & Hup).
    unfold bind, ret in He. rewrite Hc in He. subst r.
    destruct Hres as [[= <-]|[e [=]]].
    assert (M !! fresh (dom (objs w)) = None) as Hnone.
    { apply not_elem_of_dom. rewrite Hdom. apply is_fresh. }
    apply (Hclose (fresh (dom (objs w))) Leaf t');
      [by right|done|by eapply same_shape_red_black|by eapply same_shape_ordered|done|].
    intros j tj _ Hj ->. congruence.
  - (* this = other *)
    destruct (decide (this = other)) as [->|Hne].
    { destruct (returns_at _ _ _ 0%nat Hr) as (fuel & _ & He); simpl in He.
      rewrite map_assign_self in He. subst r.
      destruct Hres as [[= <-]|[e [=]]]. by apply Hsame. }
    destruct (M !! this) as [t|] eqn:Hm.
    2:{ apply (world_inv_lookup _ _ _ Hinv) in Hm.
        destruct (returns_at _ _ _ 0%nat Hr) as (fuel & _ & He); simpl in He.
        rewrite map_assign_no_this in He by done. subst r.
        by destruct Hres as [[=]|[e [=]]]. }
    destruct (Hown this t Hm) as (Ho & Hrb & Hord).
    destruct (M !! other) as [t2|] eqn:Hm2.
    2:{ apply (world_inv_lookup _ _ _ Hinv) in Hm2.
        destruct (returns_at _ _ _ (S (height t)) Hr) as (fuel & Hfuel & He); simpl in He.
        rewrite (map_assign_no_other fuel w this other t) in He by (done || lia).
        subst r. by destruct Hres as [[=]|[e [=]]]. }
    destruct (Hown other t2 Hm2) as (Ho2 & Hrb2 & Hord2).
    destruct (returns_at _ _ _ (S (height t + height t2)) Hr) as (fuel & Hfuel & He); simpl in He.
    destruct (map_assign_owns fuel w this other t t2 Ho Ho2 Hne)
      as (w1 & t' & Hc & Ho1 & Hs & Hup); [|lia|lia|].
    { intros a Ha. by apply (Hdisj other this t2 t). }
    rewrite Hc in He. subst r. destruct Hres as [[= <-]|[e [=]]].
    apply (Hclose this t t');
      [by left|done|by eapply same_shape_red_black|by eapply same_shape_ordered|done|].
    intros j tj Hj _ ->. by apply Hj.
  - (* insert *)
    destruct (M !! this) as [t|] eqn:Hm.
    2:{ apply (world_inv_lookup _ _ _ Hinv) in Hm.
        destruct (returns_at _ _ _ 0%nat Hr) as (fuel & _ & He); simpl in He.
        unfold bind in He. rewrite insert_no_obj in He by done. subst r.
        by destruct Hres as [[=]|[e [=]]]. }
    destruct (Hown this t Hm) as (Ho & Hrb & Hord).
    destruct (returns_at _ _ _ (S (height t)) Hr) as (fuel & Hfuel & He); simpl in He.
    destruct (insert_owns fuel w this t value Ho Hrb Hord ltac:(lia))
      as (it & b & w1 & Hc & Ho1 & Hup).
    unfold bind, ret in He. rewrite Hc in He. subst r.
    destruct Hres as [[= <-]|[e [=]]].
    apply (Hclose this t (insert_tree comp (fresh (dom (heap w))) value t));
      [by left|done|by apply insert_tree_red_black|by apply insert_tree_ordered|done|].
    intros j tj Hj _ ->. by apply Hj.
  - (* erase *)
    destruct pos as [n cont].
    destruct Hvalid as [Hc|[Hn|(t0 & z & Ho0 & Hn & Hz)]]; simpl in *.
    { destruct (returns_at _ _ _ 0%nat Hr) as (fuel & _ & He); simpl in He.
      rewrite erase_foreign in He by done. subst r.
      destruct Hres as [[=]|[e [= <-]]]. by apply Hsame. }
    { subst n. destruct (returns_at _ _ _ 0%nat Hr) as (fuel & _ & He); simpl in He.
      rewrite erase_end in He. subst r.
      destruct Hres as [[=]|[e [= <-]]]. by apply Hsame. }
    subst n.
    destruct (decide (cont = Some this)) as [->|Hc].
    2:{ destruct (returns_at _ _ _ 0%nat Hr) as (fuel & _ & He); simpl in He.
        rewrite erase_foreign in He by done. subst r.
        destruct Hres as [[=]|[e [= <-]]]. by apply Hsame. }
    destruct (M !! this) as [t|] eqn:Hm.
    2:{ apply (world_inv_lookup _ _ _ Hinv) in Hm.
        destruct Ho0 as (Ho0 & _). congruence. }
    destruct (Hown this t Hm) as (Ho & Hrb & Hord).
    assert (t0 = t) as -> by (by eapply owns_unique).
    destruct (returns_at _ _ _ (S (height t)) Hr) as (fuel & Hfuel & He); simpl in He.
    destruct fuel as [|fuel]; [lia|].
    destruct (erase_owns fuel w this t z Ho Hrb Hz ltac:(lia))
      as [(w1 & t' & A & d & B & Hc & Ho1 & Hrb1 & Hn & Hn' & Hfr)|Hundef].
    2:{ rewrite Hundef in He. subst r. by destruct Hres as [[=]|[e [=]]]. }
    rewrite Hc in He. subst r. destruct Hres as [[= <-]|[e [=]]].
    apply (Hclose this t t'); [by left|done|done|by eapply ordered_remove| |].
    + destruct Hfr as (Hh & Hobj & Hd). split_and!; [|  |done].
      * intros a _ Ha. by apply Hh.
      * intros a Ha. left. rewrite <- nodes_addrs, Hn' in Ha.
        rewrite <- nodes_addrs, Hn. rewrite fmap_app in *. rewrite fmap_cons.
        apply elem_of_app in Ha as [Ha|Ha]; apply elem_of_app; [by left|right].
        by apply list_elem_of_further.
    + intros j tj Hj _ ->. by apply Hj.
  - (* operator[] *)
    destruct (M !! this) as [t|] eqn:Hm.
    2:{ apply (world_inv_lookup _ _ _ Hinv) in Hm.
        destruct (returns_at _ _ _ 0%nat Hr) as (fuel & _ & He); simpl in He.
        unfold bind in He. rewrite subscript_no_obj in He by done. subst r.
        by destruct Hres as [[=]|[e [=]]]. }
    destruct (Hown this t Hm) as (Ho & Hrb & Hord).
    destruct (returns_at _ _ _ (S (height t)) Hr) as (fuel & Hfuel & He); simpl in He.
    destruct (subscript_owns fuel w this t key Ho Hrb Hord ltac:(lia))
      as (a & w1 & Hc & Ho1 & Hup).
    unfold bind, ret in He. rewrite Hc in He. subst r.
    destruct Hres as [[= <-]|[e [=]]].
    apply (Hclose this t (insert_tree comp (fresh (dom (heap w))) (key, T_default) t));
      [by left|done|by apply insert_tree_red_black|by apply insert_tree_ordered|done|].
    intros j tj Hj _ ->. by apply Hj.
  - (* clear *)
    destruct (M !! this) as [t|] eqn:Hm.
    2:{ apply (world_inv_lookup _ _ _ Hinv) in Hm.
        destruct (returns_at _ _ _ 0%nat Hr) as (fuel & _ & He); simpl in He.
        rewrite clear_no_obj in He by done. subst r.
        by destruct Hres as [[=]|[e [=]]]. }
    destruct (Hown this t Hm) as (Ho & Hrb & Hord).
    destruct (returns_at _ _ _ (S (height t)) Hr) as (fuel & Hfuel & He); simpl in He.
    destruct (clear_owns fuel w this t Ho ltac:(lia)) as (w1 & Hc & Ho1 & Hup).
    rewrite Hc in He. subst r. destruct Hres as [[= <-]|[e [=]]].
    apply (Hclose this t Leaf);
      [by left|done|apply red_black_Leaf|apply ordered_Leaf|done|].
    intros j tj Hj _ ->. by apply Hj.
Qed.

Lemma steps_inv M (w w' : world) os :
  world_inv comp M w → steps comp T_default w os w' →
  ∃ M', world_inv comp M' w'
    ∧ (∀ j t, Forall (λ o, ¬ touches o j) os → M !! j = Some t → M' !! j = Some t).
Proof.
  intros Hinv Hsteps. revert M Hinv.
  induction Hsteps as [w|w o w1 os w2 Hstep Hsteps IH]; intros M Hinv.
  - exists M. split; [done|]. by intros.
  - destruct (step_inv M w w1 o Hinv Hstep) as (M1 & Hinv1 & Hfr1).
    destruct (IH M1 Hinv1) as (M2 & Hinv2 & Hfr2).
    exists M2. split; [done|]. intros j t [Ho Hos]%Forall_cons Hm.
    apply Hfr2; [done|]. by apply Hfr1.
Qed.

Lemma reachable_inv (w : world) :
  reachable comp T_default w → ∃ M, world_inv comp M w.
Proof.
  intros [os Hsteps].
  destruct (steps_inv ∅ _ _ os world_inv_empty Hsteps) as (M & Hinv & _).
  by exists M.
Qed.

End operations.

(** ** Sequences of insertions *)

Section clients.

Context {Key T : Type}.
Variable comp : Key → Key → bool.
Variable T_default : T.
Hypothesis comp_swo : strict_weak_order comp.

Local Abbreviation Node := (@Node Key T).
Local Abbreviation world := (@world Key T).
Local Abbreviation tree := (@tree Key T).
Local Abbreviation frame := (@frame Key T).
Local Abbreviation W := (@W Key T).

Lemma height_le_count (t : tree) : (height t ≤ node_count t)%nat.
Proof. induction t; simpl; lia. Qed.

Lemma insert_tree_entries z v (t : tree) :
  (∀ e, e ∈ entries t → e ∈ entries (insert_tree comp z v t))
  ∧ (∀ e, e ∈ entries (insert_tree comp z v t) → e ∈ entries t ∨ e = v)
  ∧ (∃ e, e ∈ entries (insert_tree comp z v t) ∧ key_equiv comp v.1 e.1)
  ∧ (node_count (insert_tree comp z v t) ≤ S (node_count t))%nat.
Proof.
  destruct (descend comp v.1 t []) as [t0 c] eqn:Hd.
  destruct t0 as [|a col l d r].
  - rewrite (insert_tree_new_entries comp z v t c Hd).
    rewrite (descend_Leaf_entries comp _ _ _ Hd).
    rewrite (insert_tree_count comp _ _ _ _ Hd).
    split_and!.
    + intros e [He|He]%elem_of_app; apply elem_of_app; [by left|right].
      by apply list_elem_of_further.
    + intros e [He|[->|He]%elem_of_cons]%elem_of_app; [left|by right|left];
        apply elem_of_app; eauto.
    + exists v. split; [|apply key_equiv_refl; done].
      apply elem_of_app. right. apply list_elem_of_here.
    + lia.
  - rewrite (insert_tree_found comp _ _ _ _ _ _ _ _ _ Hd).
    split_and!; [done|by left| |lia].
    exists d. split.
    + change (d ∈ entries (plug t [])). by eapply descend_elem.
    + by eapply descend_found.
Qed.

Lemma insert_all_spec fuel (w : world) this (t : tree) vs :
  owns w this t → red_black t → ordered comp t →
  (node_count t + length vs < fuel)%nat →
  ∃ w' t',
    insert_all comp fuel this vs w = Ok tt w'
    ∧ owns w' this t' ∧ red_black t' ∧ ordered comp t'
    ∧ (node_count t' ≤ node_count t + length vs)%nat
    ∧ (∀ e, e ∈ entries t → e ∈ entries t')
    ∧ (∀ e, e ∈ entries t' → e ∈ entries t ∨ e ∈ vs)
    ∧ (∀ v, v ∈ vs → ∃ e, e ∈ entries t' ∧ key_equiv comp v.1 e.1).
Proof.
  revert w t. induction vs as [|v vs IH]; intros w t Ho Hrb Hord Hfuel.
  - exists w, t. split_and!; try done; [simpl; lia|by left|].
    by intros v ?%elem_of_nil.
  - simpl in Hfuel. pose proof (height_le_count t) as Hh.
    destruct (insert_owns comp fuel w this t v Ho Hrb Hord ltac:(lia))
      as (it & b & w1 & Hi & Ho1 & _).
    set (t1 := insert_tree comp (fresh (dom (heap w))) v t) in *.
    destruct (insert_tree_entries (fresh (dom (heap w))) v t) as (He1 & He2 & He3 & Hc).
    fold t1 in He1, He2, He3, Hc.
    destruct (IH w1 t1 Ho1) as (w' & t' & Hi' & Ho' & Hrb' & Hord' & Hc' & Hk1 & Hk2 & Hk3).
    { by apply insert_tree_red_black. }
    { by apply insert_tree_ordered. }
    { lia. }
    exists w', t'. split_and!; try done.
    + simpl. unfold bind. by rewrite Hi.
    + simpl. lia.
    + intros e He. by apply Hk1, He1.
    + intros e He. destruct (Hk2 e He) as [H|H].
      * destruct (He2 e H) as [?| ->]; [by left|right; apply list_elem_of_here].
      * right. by apply list_elem_of_further.
    + intros v' [->|Hv]%elem_of_cons; [|by apply Hk3].
      destruct He3 as (e & He & Heq). exists e. split; [by apply Hk1|done].
Qed.

(** *** The node of an inserted entry *)

Lemma nodes_recolor_fix (zt : tree) p g :
  nodes (recolor_fix zt p g) = nodes (fill g (fill p zt)).
Proof. destruct g; simpl; by rewrite !nodes_set_black. Qed.

Lemma nodes_rotate_fix (zt : tree) p g :
  zt ≠ Leaf → nodes (rotate_fix zt p g) = nodes (fill g (fill p zt)).
Proof.
  destruct zt; [done|]. intros _.
  destruct p, g; simpl; by rewrite <- ?app_assoc; simpl; rewrite <- ?app_assoc.
Qed.

Lemma nodes_plug_ext (t t' : tree) c :
  nodes t = nodes t' → nodes (plug t c) = nodes (plug t' c).
Proof. intros H. by rewrite !nodes_plug, H. Qed.

Lemma fixInsert_tree_nodes (zt : tree) c :
  zt ≠ Leaf → nodes (fixInsert_tree zt c) = nodes (plug zt c).
Proof.
  remember (length c) as k eqn:Hk. revert zt c Hk.
  induction k as [k IH] using lt_wf_ind. intros zt c -> Hzt.
  destruct c as [|p [|g up]]; simpl; [done|by destruct (fcolor p)|].
  destruct (fcolor p); [|done]. destruct (red (fsib g)).
  - rewrite (IH (length up) ltac:(simpl; lia) (recolor_fix zt p g) up eq_refl
               (recolor_fix_not_Leaf _ _ _)).
    apply nodes_plug_ext, nodes_recolor_fix.
  - by apply nodes_plug_ext, nodes_rotate_fix.
Qed.

Lemma insert_tree_new_nodes z e (t : tree) c :
  descend comp e.1 t [] = (Leaf, c) →
  nodes (insert_tree comp z e t) = cnodes_before c ++ (z, e) :: cnodes_after c.
Proof.
  intros Hd. unfold insert_tree. rewrite Hd, nodes_set_black.
  rewrite fixInsert_tree_nodes by done. by rewrite nodes_plug.
Qed.

(** The node a search stops at holds the entry of the tree. *)
Lemma descend_node (w : world) this n (t : tree) key a col l d r c :
  zip_at w this t [] n → descend comp key t [] = (Tr a col l d r, c) →
  ∃ nd, heap w !! a = Some nd ∧ data nd = d.
Proof.
  intros Hz Hd. apply descend_plug_top in Hd.
  apply (node_data w this n t a d (cnodes_before c ++ nodes l) (nodes r ++ cnodes_after c));
    [done|].
  rewrite <- Hd, nodes_plug. simpl. by rewrite <- !app_assoc.
Qed.

Lemma key_equiv_sym (x y : Key) : key_equiv comp x y → key_equiv comp y x.
Proof. by intros [? ?]. Qed.

(** A search for a key of the tree stops at the node of its entry. *)
Lemma descend_entry (t : tree) key e :
  ordered comp t → e ∈ entries t → key_equiv comp key e.1 →
  ∃ a col l r c, descend comp key t [] = (Tr a col l e r, c).
Proof.
  intros Hord He Heq. apply ordered_entries in Hord.
  destruct (descend_present comp comp_swo key t [] e Hord He Heq)
    as (a & col & l & d & r & c & Hd & Hdk).
  assert (d = e) as ->.
  { eapply (entries_sorted_equiv_eq comp); [exact Hord| |done|].
    - change (d ∈ entries (plug t [])). by eapply descend_elem.
    - eapply (swo_equiv_trans comp comp_swo); [|exact Heq]. by apply key_equiv_sym. }
  by exists a, col, l, r, c.
Qed.

(** *** Two maps of one state *)

Lemma independent_maps M (w : world) i j (ti tj : tree) :
  world_inv comp M w → i ≠ j → M !! i = Some ti → M !! j = Some tj →
  owns w i ti ∧ owns w j tj
  ∧ (∀ a, a ∈ addrs tj → a ∉ addrs ti)
  ∧ (∀ os w2, steps comp T_default w os w2 →
       Forall (λ o, ¬ touches o i) os → owns w2 i ti)
  ∧ (∀ os w2, steps comp T_default w os w2 →
       Forall (λ o, ¬ touches o j) os → owns w2 j tj).
Proof.
  intros Hinv Hij Hi Hj. pose proof Hinv as (Hdom & Hown & Hdisj).
  split_and!.
  - by apply (Hown i ti).
  - by apply (Hown j tj).
  - intros a Ha. by apply (Hdisj j i tj ti).
  - intros os w2 Hsteps Hall.
    destruct (steps_inv comp T_default comp_swo M w w2 os Hinv Hsteps)
      as (M2 & (_ & Hown2 & _) & Hfr).
    by apply (Hown2 i ti), Hfr.
  - intros os w2 Hsteps Hall.
    destruct (steps_inv comp T_default comp_swo M w w2 os Hinv Hsteps)
      as (M2 & (_ & Hown2 & _) & Hfr).
    by apply (Hown2 j tj), Hfr.
Qed.

End clients.

(** ** The properties of the specification *)

Section properties.

Context {Key T : Type}.
Variable comp : Key → Key → bool.
Variable T_default : T.

Local Abbreviation Node := (@Node Key T).
Local Abbreviation world := (@world Key T).
Local Abbreviation tree := (@tree Key T).
Local Abbreviation frame := (@frame Key T).
Local Abbreviation W := (@W Key T).

(** C1 (the code departs from the property).  [erase] through a valid
    iterator at a black node that has no child and is not the root does
    not return: the node is spliced out, [fixDelete] is called on the
    null pointer that replaces it, and the first test of its loop body,
    [x == x->parent->left], reads through that null pointer.  The
    behaviour is undefined, so the size is not decreased and no
    invariant is restored. *)
Theorem erase_black_leaf_undefined (w : world) this n z dz f c fuel :
  zip_at w this (Tr z false Leaf dz Leaf) (f :: c) n →
  erase (S fuel) this (mkIter (Some z) (Some this)) w = Undef.
Proof.
  intros Hz.
  pose proof (erase_zip_spec fuel w this n z false Leaf dz Leaf (f :: c) Hz) as H.
  unfold erase_zip, erase_plan, fix_ok in H. simpl in H.
  apply H; [lia|done|done].
Qed.

(** C2.  In every state that is reached from no map at all by
    constructing, copying, assigning, inserting, erasing, subscripting
    and clearing, each map object owns a tree that is red-black: its
    root is black, no red node has a red child, every path from the root
    to a null child has the same number of black nodes.  The height [h]
    and the number of nodes [n] then satisfy [2 ^ h ≤ (n + 1) ^ 2], that
    is [h ≤ 2 * log2 (n + 1)], and [tree_size] is [n].  A state is
    reached by calls that return, normally or by an exception; a call
    whose behaviour is undefined, as the one of C1, reaches none.  The
    comparator is a strict weak ordering. *)
Theorem reachable_red_black (w : world) this m :
  strict_weak_order comp →
  reachable comp T_default w →
  objs w !! this = Some m →
  ∃ t, owns w this t
    ∧ red t = false ∧ no_red_red t ∧ (∃ b, black_height t b)
    ∧ (2 ^ height t ≤ (node_count t + 1) ^ 2)%nat
    ∧ tree_size m = size_t_wrap (Z.of_nat (node_count t)).
Proof.
  intros Hswo Hreach Hobj.
  destruct (reachable_inv comp T_default Hswo w Hreach) as (M & Hdom & Hown & _).
  assert (is_Some (M !! this)) as [t Ht].
  { apply elem_of_dom. rewrite Hdom. apply elem_of_dom. by eexists. }
  destruct (Hown this t Ht) as (Ho & Hrb & _).
  exists t. pose proof (red_black_height t Hrb) as Hh.
  destruct Hrb as (Hr & Hn & Hb). split_and!; try done.
  destruct Ho as (Ho & _). simpl in Ho. rewrite Hobj in Ho. by injection Ho as ->.
Qed.

(** C3.  A new map is filled by a sequence of insertions and read from
    [begin()] to [end()]: the keys come out in strictly increasing
    order of the comparator, every entry read is one that was inserted,
    and every inserted key is there.  The two rotations leave the
    in-order sequence of the entries as it is. *)
Theorem insert_sequence_sorted (vs : list (Key * T)) :
  strict_weak_order comp →
  (∀ (w : world) fuel, (2 * length vs < fuel)%nat →
     ∃ es w',
       (let* this := map_ctor in
        insert_all comp fuel this vs ;; traverse fuel this) w = Ok es w'
       ∧ StronglySorted (key_lt comp) es.*1
       ∧ (∀ e, e ∈ es → e ∈ vs)
       ∧ (∀ v, v ∈ vs → ∃ e, e ∈ es ∧ key_equiv comp v.1 e.1))
  ∧ (∀ (w : world) this n c x cx a dx y cy b dy g,
       zip_at w this (Tr x cx a dx (Tr y cy b dy g)) c n →
       ∃ w', leftRotate this (Some x) w = Ok tt w'
         ∧ zip_at w' this (plug (Tr y cy (Tr x cx a dx b) dy g) c) [] n
         ∧ entries (plug (Tr y cy (Tr x cx a dx b) dy g) c)
           = entries (plug (Tr x cx a dx (Tr y cy b dy g)) c))
  ∧ (∀ (w : world) this n c x cx a dx y cy b dy g,
       zip_at w this (Tr x cx (Tr y cy a dy b) dx g) c n →
       ∃ w', rightRotate this (Some x) w = Ok tt w'
         ∧ zip_at w' this (plug (Tr y cy a dy (Tr x cx b dx g)) c) [] n
         ∧ entries (plug (Tr y cy a dy (Tr x cx b dx g)) c)
           = entries (plug (Tr x cx (Tr y cy a dy b) dx g) c)).
Proof.
  intros Hswo. split_and!.
  - intros w fuel Hfuel.
    set (this := fresh (dom (objs w))).
    set (w0 := mkWorld (heap w) (<[this := mkMap None 0]> (objs w))).
    assert (owns w0 this Leaf) as Ho0.
    { apply owns_intro; simpl; [by rewrite lookup_insert_eq|done|apply NoDup_nil_2]. }
    destruct (insert_all_spec comp Hswo fuel w0 this Leaf vs Ho0)
      as (w' & t' & Hi & Ho' & Hrb' & Hord' & Hc' & _ & Hk2 & Hk3).
    { apply red_black_Leaf. }
    { apply ordered_Leaf. }
    { simpl. lia. }
    exists (entries t'), w'. split_and!.
    + unfold bind, map_ctor. fold this. fold w0. rewrite Hi.
      apply (traverse_spec fuel w' this _ t' Ho').
      pose proof (height_le_count t'). simpl in Hc'. lia.
    + apply Hord'.
    + intros e He. destruct (Hk2 e He) as [?%elem_of_nil|?]; done.
    + done.
  - intros w this n c x cx a dx y cy b dy g Hz.
    destruct (leftRotate_zip _ _ _ _ _ _ _ _ _ _ _ _ _ Hz) as (w' & Hl & Hz' & _).
    exists w'. split_and!; [done|by apply (proj1 (zip_plug _ _ _ _ _))|].
    rewrite !entries_plug. simpl. do 2 f_equal. by rewrite <- app_assoc.
  - intros w this n c x cx a dx y cy b dy g Hz.
    destruct (rightRotate_zip _ _ _ _ _ _ _ _ _ _ _ _ _ Hz) as (w' & Hl & Hz' & _).
    exists w'. split_and!; [done|by apply (proj1 (zip_plug _ _ _ _ _))|].
    rewrite !entries_plug. simpl. do 2 f_equal. by rewrite <- app_assoc.
Qed.

(** C4.  [insert] of an entry whose key is equivalent to the key of an
    entry [e] of the map returns the pair of an iterator at the node of
    [e] and [false], and the state after the call is the state before
    it: no node, no field of the map object has changed. *)
Theorem insert_duplicate_unchanged (w : world) this (t : tree) value e fuel :
  strict_weak_order comp →
  owns w this t → ordered comp t →
  e ∈ entries t → key_equiv comp value.1 e.1 →
  (height t < fuel)%nat →
  ∃ a nd,
    insert comp fuel this value w = Ok (mkIter (Some a) (Some this), false) w
    ∧ heap w !! a = Some nd ∧ data nd = e.
Proof.
  intros Hswo Ho Hord He Heq Hfuel.
  destruct (descend_entry comp Hswo t value.1 e Hord He Heq) as (a & col & l & r & c & Hd).
  destruct (descend_node comp w this _ t value.1 a col l e r c Ho Hd) as (nd & Hnd & Hdata).
  exists a, nd. split_and!; try done.
  by eapply insert_found_spec.
Qed.

(** C5.  For a key that has no equivalent in the map, [at] throws
    [index_out_of_bound] and leaves the state as it is; [operator[]]
    returns a reference to a mapped value that is the default one, and
    [at] with the same key then returns a reference to an entry made of
    that key and the default value. *)
Theorem at_absent_then_subscript (w : world) this (t : tree) key fuel :
  strict_weak_order comp →
  owns w this t → red_black t → ordered comp t →
  (∀ e, e ∈ entries t → ¬ key_equiv comp key e.1) →
  (node_count t + 1 < fuel)%nat →
  at_ comp fuel this key w = Throw index_out_of_bound w
  ∧ ∃ r w',
      subscript comp T_default fuel this key w = Ok r w'
      ∧ read_mapped r w' = Ok T_default w'
      ∧ ∃ r', at_ comp fuel this key w' = Ok r' w'
          ∧ read_entry r' w' = Ok (key, T_default) w'
          ∧ read_mapped r' w' = Ok T_default w'.
Proof.
  intros Hswo Ho Hrb Hord Habs Hfuel.
  pose proof (height_le_count t) as Hh.
  pose proof (descend_absent comp Hswo key t [] Habs) as Hleaf.
  destruct (descend comp key t []) as [t0 c] eqn:Hd. simpl in Hleaf. subst t0.
  assert (findNode comp fuel this key w = Ok None w) as Hfind.
  { rewrite (findNode_spec comp fuel key w this t _ Ho ltac:(lia)). by rewrite Hd. }
  split.
  { unfold at_, bind. by rewrite Hfind. }
  destruct (red_black_descend comp _ _ _ _ Hrb Hd) as (Htop & _).
  destruct (insert_new_spec comp fuel w this _ t c (key, T_default) Ho Hd Htop ltac:(lia))
    as (w' & He & Hz & Hfr & Hobj & Hdom).
  set (z := fresh (dom (heap w))) in *.
  set (t' := insert_tree comp z (key, T_default) t) in *.
  pose proof (insert_tree_new_nodes comp z (key, T_default) t c Hd) as Hnodes.
  fold t' in Hnodes.
  destruct (node_data w' this _ t' z (key, T_default) _ _ Hz Hnodes) as (nz & Hnz & Hdz).
  assert (ordered comp t') as Hord' by (by apply insert_tree_ordered).
  assert ((key, T_default) ∈ entries t') as Hin.
  { rewrite <- nodes_entries, Hnodes, fmap_app, fmap_cons.
    apply elem_of_app. right. apply list_elem_of_here. }
  destruct (descend_entry comp Hswo t' key (key, T_default) Hord' Hin)
    as (a & col & l & r & c' & Hd'); [by apply key_equiv_refl|].
  destruct (descend_node comp w' this _ t' key a col l _ r c' Hz Hd') as (na & Hna & Hda).
  assert (height t' < fuel)%nat as Hfuel'.
  { pose proof (height_le_count t').
    pose proof (insert_tree_count comp z (key, T_default) t c Hd). fold t' in H0. lia. }
  exists z, w'. split_and!.
  - unfold subscript, bind. rewrite Hfind. rewrite He. done.
  - unfold read_mapped, get_data, deref, bind, ret. by rewrite Hnz, Hdz.
  - exists a. split_and!.
    + unfold at_, bind.
      rewrite (findNode_spec comp fuel key w' this t' _ Hz Hfuel'). by rewrite Hd'.
    + unfold read_entry, get_data, deref, bind, ret. by rewrite Hna, Hda.
    + unfold read_mapped, get_data, deref, bind, ret. by rewrite Hna, Hda.
Qed.

(** C6.  The uses of an iterator that are not valid throw
    [invalid_iterator] and leave the state as it is: [*] , [->], [++]
    on [end()]; [--] on [begin()], the first element; [--] on [end()]
    of an empty map; [erase] of [end()] and [erase] of an iterator that
    belongs to another map or to none. *)
Theorem invalid_iterator_usage (w : world) this cont (t : tree) n fuel :
  owns w this t → cont ≠ Some this → (height t < fuel)%nat →
  iter_deref (end_ this) w = Throw invalid_iterator w
  ∧ iter_arrow (end_ this) w = Throw invalid_iterator w
  ∧ iter_incr fuel (end_ this) w = Throw invalid_iterator w
  ∧ iter_post_incr fuel (end_ this) w = Throw invalid_iterator w
  ∧ (∃ first, begin_ fuel this w = Ok first w
       ∧ iter_decr fuel first w = Throw invalid_iterator w
       ∧ iter_post_decr fuel first w = Throw invalid_iterator w)
  ∧ (t = Leaf → iter_decr fuel (end_ this) w = Throw invalid_iterator w)
  ∧ erase fuel this (end_ this) w = Throw invalid_iterator w
  ∧ erase fuel this (mkIter n cont) w = Throw invalid_iterator w.
Proof.
  intros Ho Hc Hfuel.
  assert (iter_decr fuel (mkIter (head (addrs t)) (Some this)) w
          = Throw invalid_iterator w) as Hfirst.
  { destruct (nodes t) as [|[a d] B] eqn:Hn.
    - assert (addrs t = []) as Ha by (by rewrite <- nodes_addrs, Hn).
      rewrite Ha. simpl.
      rewrite (iter_decr_end fuel w this _ t Ho Hfuel). by rewrite Ha.
    - assert (addrs t = a :: B.*1) as Ha by (by rewrite <- nodes_addrs, Hn).
      rewrite Ha. simpl.
      by rewrite (iter_decr_nodes fuel w this _ t a d [] B (Some this) Ho Hn Hfuel). }
  split_and!; try done.
  - exists (mkIter (head (addrs t)) (Some this)). split_and!.
    + by eapply begin_spec.
    + done.
    + unfold iter_post_decr, bind. by rewrite Hfirst.
  - intros ->. unfold end_. by rewrite (iter_decr_end fuel w this _ Leaf Ho Hfuel).
  - apply erase_end.
  - by apply erase_foreign.
Qed.

(** C7.  For an iterator at a node of the map, [++] and then [--] give
    the iterator back; the state is not changed.  This holds for
    [begin()] as well and for the last element, where [++] gives
    [end()]. *)
Theorem incr_then_decr (w : world) this (t : tree) a d A B fuel :
  owns w this t → nodes t = A ++ (a, d) :: B → (height t < fuel)%nat →
  ∃ next back,
    iter_incr fuel (mkIter (Some a) (Some this)) w = Ok next w
    ∧ iter_decr fuel next w = Ok back w
    ∧ back = mkIter (Some a) (Some this)
    ∧ iter_eq back (mkIter (Some a) (Some this)) = true.
Proof.
  intros Ho Hn Hfuel.
  exists (mkIter (head B.*1) (Some this)), (mkIter (Some a) (Some this)).
  split_and!; try done.
  - by eapply iter_incr_nodes.
  - destruct B as [|[b db] B]; simpl.
    + rewrite (iter_decr_end fuel w this _ t Ho Hfuel).
      rewrite <- nodes_addrs, Hn, fmap_app. simpl. by rewrite last_snoc.
    + assert (nodes t = (A ++ [(a, d)]) ++ (b, db) :: B) as Hn'.
      { by rewrite <- app_assoc. }
      rewrite (iter_decr_nodes fuel w this _ t b db _ B (Some this) Ho Hn' Hfuel).
      rewrite fmap_app. simpl. by rewrite last_snoc.
  - unfold iter_eq. simpl. by rewrite !ptr_eqb_refl.
Qed.

(** C8.  The copy constructor and the assignment give the target a tree
    of its own: the same entries and colours in the same shape, on
    nodes that are not nodes of the source.  Whatever is done afterwards
    to other maps than the source leaves the tree of the source as it
    is, node for node, and whatever is done to other maps than the copy
    leaves the tree of the copy as it is.  Assigning a map to itself
    changes nothing. *)
Theorem copy_is_independent M (w : world) other (t : tree) fuel :
  strict_weak_order comp →
  world_inv comp M w → M !! other = Some t → (height t < fuel)%nat →
  (∃ this w1 t',
      map_copy_ctor fuel other w = Ok this w1
      ∧ this ≠ other
      ∧ same_shape t t' ∧ entries t' = entries t
      ∧ owns w1 this t' ∧ owns w1 other t
      ∧ (∀ a, a ∈ addrs t → a ∉ addrs t')
      ∧ (∀ os w2, steps comp T_default w1 os w2 →
           Forall (λ o, ¬ touches o this) os → owns w2 this t')
      ∧ (∀ os w2, steps comp T_default w1 os w2 →
           Forall (λ o, ¬ touches o other) os → owns w2 other t))
  ∧ (∀ this t0, this ≠ other → M !! this = Some t0 → (height t0 < fuel)%nat →
     ∃ w1 t',
      map_assign fuel this other w = Ok tt w1
      ∧ same_shape t t' ∧ entries t' = entries t
      ∧ owns w1 this t' ∧ owns w1 other t
      ∧ (∀ a, a ∈ addrs t → a ∉ addrs t')
      ∧ (∀ os w2, steps comp T_default w1 os w2 →
           Forall (λ o, ¬ touches o this) os → owns w2 this t')
      ∧ (∀ os w2, steps comp T_default w1 os w2 →
           Forall (λ o, ¬ touches o other) os → owns w2 other t))
  ∧ map_assign fuel other other w = Ok tt w.
Proof.
  intros Hswo Hinv Hm Hfuel. pose proof Hinv as (Hdom & Hown & Hdisj).
  destruct (Hown other t Hm) as (Ho & Hrb & Hord).
  split_and!.
  - destruct (map_copy_ctor_owns fuel w other t Ho Hfuel) as (w1 & t' & Hc & Ho1 & Hs & Hup).
    set (this := fresh (dom (objs w))) in *.
    assert (M !! this = None) as Hnone.
    { apply not_elem_of_dom. rewrite Hdom. apply is_fresh. }
    assert (this ≠ other) as Hne by (intros Heq; congruence).
    destruct (world_inv_step comp M w w1 this Leaf t' Hinv) as (M1 & Hinv1 & Hfr1 & Hthis);
      [by right|done|by eapply same_shape_red_black|by eapply same_shape_ordered|done|].
    destruct (independent_maps comp T_default Hswo M1 w1 this other t' t Hinv1 Hne Hthis)
      as (H1 & H2 & H3 & H4 & H5); [by apply Hfr1|].
    exists this, w1, t'. split_and!; try done.
    symmetry. by apply same_shape_entries.
  - intros this t0 Hne Hm0 Hfuel0.
    destruct (Hown this t0 Hm0) as (Ho0 & _).
    destruct (map_assign_owns fuel w this other t0 t Ho0 Ho Hne)
      as (w1 & t' & Hc & Ho1 & Hs & Hup); [|done|done|].
    { intros a Ha. by apply (Hdisj other this t t0). }
    destruct (world_inv_step comp M w w1 this t0 t' Hinv) as (M1 & Hinv1 & Hfr1 & Hthis);
      [by left|done|by eapply same_shape_red_black|by eapply same_shape_ordered|done|].
    destruct (independent_maps comp T_default Hswo M1 w1 this other t' t Hinv1 Hne Hthis)
      as (H1 & H2 & H3 & H4 & H5); [by apply Hfr1|].
    exists w1, t'. split_and!; try done.
    symmetry. by apply same_shape_entries.
  - apply map_assign_self.
Qed.

(** C9.  [begin()] of a map without elements is [end()]: for a map that
    has just been constructed, for a map after [clear()], for any map
    whose tree is empty. *)
Theorem empty_begin_is_end (w : world) this (t : tree) fuel :
  owns w this t → (height t < fuel)%nat →
  (∃ m w0, map_ctor w = Ok m w0
     ∧ begin_ fuel m w0 = Ok (end_ m) w0
     ∧ iter_eq (end_ m) (end_ m) = true)
  ∧ (∃ w1, clear fuel this w = Ok tt w1
       ∧ begin_ fuel this w1 = Ok (end_ this) w1
       ∧ iter_eq (end_ this) (end_ this) = true)
  ∧ (t = Leaf → begin_ fuel this w = Ok (end_ this) w).
Proof.
  intros Ho Hfuel.
  assert (∀ m, iter_eq (end_ m) (end_ m) = true) as Heq.
  { intros m. unfold iter_eq. simpl. by rewrite !ptr_eqb_refl. }
  split_and!.
  - eexists _, _. split; [reflexivity|]. split; [|done].
    apply (begin_spec fuel _ _ 0 Leaf); [|simpl; lia].
    apply owns_intro; simpl; [by rewrite lookup_insert_eq|done|apply NoDup_nil_2].
  - destruct (clear_owns fuel w this t Ho Hfuel) as (w1 & Hc & Ho1 & _).
    exists w1. split_and!; [done| |done].
    apply (begin_spec fuel _ _ _ Leaf Ho1). simpl. lia.
  - intros ->. by apply (begin_spec fuel _ _ _ Leaf Ho).
Qed.

(** C10.  An iterator made by the default constructor has no node and
    no container.  [*], [->], [++] and [--], prefix and postfix, throw
    [invalid_iterator] on it and read no memory; it is not equal to any
    iterator of a map, [end()] included. *)
Theorem default_iterator_safe (w : world) fuel n this :
  iter_deref iterator_default w = Throw invalid_iterator w
  ∧ iter_arrow iterator_default w = Throw invalid_iterator w
  ∧ iter_incr fuel iterator_default w = Throw invalid_iterator w
  ∧ iter_post_incr fuel iterator_default w = Throw invalid_iterator w
  ∧ iter_decr fuel iterator_default w = Throw invalid_iterator w
  ∧ iter_post_decr fuel iterator_default w = Throw invalid_iterator w
  ∧ iter_eq iterator_default (mkIter n (Some this)) = false
  ∧ iter_eq (mkIter n (Some this)) iterator_default = false
  ∧ iter_eq iterator_default (end_ this) = false
  ∧ iter_ne iterator_default (mkIter n (Some this)) = true.
Proof.
  assert (iter_eq iterator_default (mkIter n (Some this)) = false) as H1.
  { unfold iter_eq. simpl. apply andb_false_r. }
  split_and!; try done.
  - unfold iter_eq. simpl. apply andb_false_r.
  - unfold iter_ne. by rewrite H1.
Qed.

(** X1.  What [erase] does through an iterator at a node [z] of a map
    whose tree is red-black: either the behaviour is undefined (the
    case of C1), or the call returns, the node of [z] is freed, the
    other entries stay in their order on their nodes, the tree is
    red-black and ordered again, and [size()] is one less. *)
Theorem erase_returns_or_undefined (w : world) this (t : tree) z fuel :
  owns w this t → red_black t → ordered comp t →
  z ∈ addrs t → (height t ≤ fuel)%nat →
  (∃ w' t' A d B,
      erase (S fuel) this (mkIter (Some z) (Some this)) w = Ok tt w'
      ∧ owns w' this t' ∧ red_black t' ∧ ordered comp t'
      ∧ nodes t = A ++ (z, d) :: B ∧ nodes t' = A ++ B
      ∧ heap w' !! z = None
      ∧ size this w = Ok (size_t_wrap (Z.of_nat (node_count t))) w
      ∧ size this w' = Ok (size_t_wrap (Z.of_nat (node_count t'))) w'
      ∧ node_count t = S (node_count t'))
  ∨ erase (S fuel) this (mkIter (Some z) (Some this)) w = Undef.
Proof.
  intros Ho Hrb Hord Hz Hfuel.
  destruct (erase_owns fuel w this t z Ho Hrb Hz Hfuel)
    as [(w' & t' & A & d & B & He & Ho' & Hrb' & Hn & Hn' & Hfr)|Hundef];
    [left|by right].
  assert (node_count t = S (node_count t')) as Hc.
  { rewrite !count_nodes, Hn, Hn', !length_app. simpl. lia. }
  exists w', t', A, d, B. split_and!; try done.
  - by eapply ordered_remove.
  - destruct Hfr as (_ & _ & Hdom). apply not_elem_of_dom. rewrite Hdom.
    set_solver.
  - destruct Ho as (Hobj & _). unfold size, get_tree_size, this_obj, bind, ret.
    by rewrite Hobj.
  - destruct Ho' as (Hobj & _). unfold size, get_tree_size, this_obj, bind, ret.
    by rewrite Hobj.
Qed.

End properties.

(** ** The properties on the example *)

(** [std::less<int>] *)
Lemma Zltb_swo : strict_weak_order Z.ltb.
Proof.
  split.
  - intros x. apply Z.ltb_irrefl.
  - intros x y z. rewrite !Z.ltb_lt. lia.
  - intros x y z [H1 H2] [H3 H4]. rewrite !Z.ltb_ge in *.
    split; apply Z.ltb_ge; lia.
Qed.

(** A step of a program on a state that is known. *)
Ltac run_step :=
  eapply steps_cons;
  [split; [exact I|left; exists 8%nat; intros fuel Hf;
     do 8 (destruct fuel as [|fuel]; [lia|]); vm_compute; reflexivity]|].

Lemma ex_steps : steps Z.ltb 0%Z (mkWorld ∅ ∅) ex_ops ex_world.
Proof. unfold ex_ops. repeat run_step. vm_compute. apply steps_nil. Qed.

Lemma ex_reachable : reachable Z.ltb 0%Z ex_world.
Proof. exists ex_ops. apply ex_steps. Qed.

Lemma ex_owns : owns ex_world 1%positive ex_tree.
Proof.
  apply owns_intro.
  - vm_compute. reflexivity.
  - simpl. repeat split; vm_compute; reflexivity.
  - exact (@bool_decide_unpack (NoDup (addrs ex_tree)) _ I).
Qed.

Lemma ex_red_black : red_black ex_tree.
Proof.
  split; [done|split; [simpl; naive_solver|exists 2%nat; simpl; naive_solver]].
Qed.

Lemma ex_ordered : ordered Z.ltb ex_tree.
Proof. unfold ordered, keys. simpl. repeat constructor. Qed.

Lemma ex_world_inv : world_inv Z.ltb {[1%positive := ex_tree]} ex_world.
Proof.
  split_and!.
  - vm_compute. reflexivity.
  - intros i t [<- <-]%lookup_singleton_Some.
    split_and!; [apply ex_owns|apply ex_red_black|apply ex_ordered].
  - intros i j ti tj Hij [<- <-]%lookup_singleton_Some [<- <-]%lookup_singleton_Some.
    done.
Qed.

Ltac run_returns :=
  exists 8%nat; intros fuel Hf;
  do 8 (destruct fuel as [|fuel]; [lia|]); vm_compute; reflexivity.

Lemma ex_steps2 : steps Z.ltb 0%Z ex_world ex_more ex_world2.
Proof.
  unfold ex_more.
  eapply steps_cons.
  { split.
    - right. right. exists ex_tree, 4%positive. split; [apply ex_owns|].
      split; [reflexivity|]. simpl.
      repeat first [apply list_elem_of_here | apply list_elem_of_further].
    - left. run_returns. }
  eapply steps_cons.
  { split; [eexists; vm_compute; reflexivity|left; run_returns]. }
  eapply steps_cons.
  { split; [exact I|left; run_returns]. }
  eapply steps_cons.
  { split; [exact I|left; run_returns]. }
  eapply steps_cons.
  { split; [exact I|left; run_returns]. }
  eapply steps_cons.
  { split; [by right; left|right; exists invalid_iterator; run_returns]. }
  vm_compute. apply steps_nil.
Qed.

Lemma steps_app {Key T} comp T_default (w w1 w2 : @world Key T) os os' :
  steps comp T_default w os w1 → steps comp T_default w1 os' w2 →
  steps comp T_default w (os ++ os') w2.
Proof.
  induction 1 as [w|w o w1 os w3 Hstep Hsteps IH]; intros H2; simpl; [done|].
  eapply steps_cons; [done|]. by apply IH.
Qed.

Lemma ex_reachable2 : reachable Z.ltb 0%Z ex_world2.
Proof. exists (ex_ops ++ ex_more). eapply steps_app; [apply ex_steps|apply ex_steps2]. Qed.

Lemma ex_zip :
  zip_at ex_world 1%positive (Tr 3%positive false Leaf (5, 3)%Z Leaf)
         [FL 1%positive false (10, 1)%Z ex_right] 4%Z.
Proof. apply (proj2 (zip_plug _ _ _ _ _)). apply ex_owns. Qed.

Lemma erase_black_leaf_undefined_witness :
  zip_at ex_world 1%positive (Tr 3%positive false Leaf (5, 3)%Z Leaf)
         [FL 1%positive false (10, 1)%Z ex_right] 4%Z
  ∧ erase 1 1%positive (mkIter (Some 3%positive) (Some 1%positive)) ex_world = Undef
  ∧ ex_erase_5 10 (mkWorld ∅ ∅) = Undef.
Proof.
  split; [apply ex_zip|]. split.
  - apply (erase_black_leaf_undefined ex_world 1%positive 4%Z 3%positive (5, 3)%Z
             (FL 1%positive false (10, 1)%Z ex_right) [] 0 ex_zip).
  - vm_compute. reflexivity.
Defined.

Lemma reachable_red_black_witness :
  strict_weak_order Z.ltb
  ∧ reachable Z.ltb 0%Z ex_world2
  ∧ objs ex_world2 !! 1%positive = Some (mkMap (Some 8%positive) 4%Z)
  ∧ ∃ t, owns ex_world2 1%positive t
      ∧ red t = false ∧ no_red_red t ∧ (∃ b, black_height t b)
      ∧ (2 ^ height t ≤ (node_count t + 1) ^ 2)%nat
      ∧ 4%Z = size_t_wrap (Z.of_nat (node_count t)).
Proof.
  assert (objs ex_world2 !! 1%positive = Some (mkMap (Some 8%positive) 4%Z)) as Hobj.
  { vm_compute. reflexivity. }
  split; [apply Zltb_swo|]. split; [apply ex_reachable2|]. split; [exact Hobj|].
  apply (reachable_red_black Z.ltb 0%Z ex_world2 1%positive
           (mkMap (Some 8%positive) 4%Z) Zltb_swo ex_reachable2 Hobj).
Defined.

Lemma insert_sequence_sorted_witness :
  strict_weak_order Z.ltb
  ∧ (∀ (w : @world Z Z) fuel, (2 * length ex_entries < fuel)%nat →
       ∃ es w',
         (let* this := map_ctor in
          insert_all Z.ltb fuel this ex_entries ;; traverse fuel this) w = Ok es w'
         ∧ StronglySorted (key_lt Z.ltb) es.*1
         ∧ (∀ e, e ∈ es → e ∈ ex_entries)
         ∧ (∀ v, v ∈ ex_entries → ∃ e, e ∈ es ∧ key_equiv Z.ltb v.1 e.1))
  ∧ (let* this := map_ctor in
     insert_all Z.ltb 9 this ex_entries ;; traverse 9 this) (mkWorld ∅ ∅)
    = Ok [(5, 3); (10, 1); (15, 4); (20, 2)]%Z ex_world.
Proof.
  split; [apply Zltb_swo|]. split.
  - apply (insert_sequence_sorted Z.ltb ex_entries Zltb_swo).
  - vm_compute. reflexivity.
Defined.

Lemma insert_duplicate_unchanged_witness :
  strict_weak_order Z.ltb
  ∧ owns ex_world 1%positive ex_tree
  ∧ ordered Z.ltb ex_tree
  ∧ (20, 2)%Z ∈ entries ex_tree
  ∧ key_equiv Z.ltb 20%Z 20%Z
  ∧ (height ex_tree < 4)%nat
  ∧ ∃ a nd,
      insert Z.ltb 4 1%positive (20, 99)%Z ex_world
      = Ok (mkIter (Some a) (Some 1%positive), false) ex_world
      ∧ heap ex_world !! a = Some nd ∧ data nd = (20, 2)%Z.
Proof.
  assert ((20, 2)%Z ∈ entries ex_tree) as Hin.
  { simpl. repeat first [apply list_elem_of_here | apply list_elem_of_further]. }
  assert (key_equiv Z.ltb 20%Z 20%Z) as Heq by (split; reflexivity).
  assert (height ex_tree < 4)%nat as Hh by (simpl; lia).
  split; [apply Zltb_swo|]. split; [apply ex_owns|]. split; [apply ex_ordered|].
  split; [exact Hin|]. split; [exact Heq|]. split; [exact Hh|].
  apply (insert_duplicate_unchanged Z.ltb ex_world 1%positive ex_tree (20, 99)%Z (20, 2)%Z 4
           Zltb_swo ex_owns ex_ordered Hin Heq Hh).
Defined.

Lemma ex_absent_7 : ∀ e : Z * Z, e ∈ entries ex_tree → ¬ key_equiv Z.ltb 7%Z e.1.
Proof.
  intros e He [H1 H2]. simpl in He.
  repeat (apply elem_of_cons in He as [->|He]; [simpl in *; discriminate|]).
  by apply elem_of_nil in He.
Qed.

Lemma at_absent_then_subscript_witness :
  strict_weak_order Z.ltb
  ∧ owns ex_world 1%positive ex_tree
  ∧ red_black ex_tree
  ∧ ordered Z.ltb ex_tree
  ∧ (∀ e : Z * Z, e ∈ entries ex_tree → ¬ key_equiv Z.ltb 7%Z e.1)
  ∧ (node_count ex_tree + 1 < 8)%nat
  ∧ at_ Z.ltb 8 1%positive 7%Z ex_world = Throw index_out_of_bound ex_world
  ∧ ∃ r w',
      subscript Z.ltb 0%Z 8 1%positive 7%Z ex_world = Ok r w'
      ∧ read_mapped r w' = Ok 0%Z w'
      ∧ ∃ r', at_ Z.ltb 8 1%positive 7%Z w' = Ok r' w'
          ∧ read_entry r' w' = Ok (7, 0)%Z w'
          ∧ read_mapped r' w' = Ok 0%Z w'.
Proof.
  assert (node_count ex_tree + 1 < 8)%nat as Hc by (simpl; lia).
  split; [apply Zltb_swo|]. split; [apply ex_owns|]. split; [apply ex_red_black|].
  split; [apply ex_ordered|]. split; [apply ex_absent_7|]. split; [exact Hc|].
  apply (at_absent_then_subscript Z.ltb 0%Z ex_world 1%positive ex_tree 7%Z 8
           Zltb_swo ex_owns ex_red_black ex_ordered ex_absent_7 Hc).
Defined.

Lemma invalid_iterator_usage_witness :
  owns ex_world 1%positive ex_tree
  ∧ Some 2%positive ≠ Some 1%positive
  ∧ (height ex_tree < 4)%nat
  ∧ iter_deref (end_ 1%positive) ex_world = Throw invalid_iterator ex_world
  ∧ iter_arrow (end_ 1%positive) ex_world = Throw invalid_iterator ex_world
  ∧ iter_incr 4 (end_ 1%positive) ex_world = Throw invalid_iterator ex_world
  ∧ iter_post_incr 4 (end_ 1%positive) ex_world = Throw invalid_iterator ex_world
  ∧ (∃ first, begin_ 4 1%positive ex_world = Ok first ex_world
       ∧ iter_decr 4 first ex_world = Throw invalid_iterator ex_world
       ∧ iter_post_decr 4 first ex_world = Throw invalid_iterator ex_world)
  ∧ (ex_tree = Leaf →
     iter_decr 4 (end_ 1%positive) ex_world = Throw invalid_iterator ex_world)
  ∧ erase 4 1%positive (end_ 1%positive) ex_world = Throw invalid_iterator ex_world
  ∧ erase 4 1%positive (mkIter (Some 3%positive) (Some 2%positive)) ex_world
    = Throw invalid_iterator ex_world.
Proof.
  assert (Some 2%positive ≠ Some 1%positive) as Hne by discriminate.
  assert (height ex_tree < 4)%nat as Hh by (simpl; lia).
  split; [apply ex_owns|]. split; [exact Hne|]. split; [exact Hh|].
  apply (invalid_iterator_usage ex_world 1%positive (Some 2%positive) ex_tree
           (Some 3%positive) 4 ex_owns Hne Hh).
Defined.

Lemma incr_then_decr_witness :
  owns ex_world 1%positive ex_tree
  ∧ nodes ex_tree
    = [(3%positive, (5, 3)%Z)] ++ (1%positive, (10, 1)%Z)
        :: [(4%positive, (15, 4)%Z); (2%positive, (20, 2)%Z)]
  ∧ (height ex_tree < 4)%nat
  ∧ ∃ next back,
      iter_incr 4 (mkIter (Some 1%positive) (Some 1%positive)) ex_world = Ok next ex_world
      ∧ iter_decr 4 next ex_world = Ok back ex_world
      ∧ back = mkIter (Some 1%positive) (Some 1%positive)
      ∧ iter_eq back (mkIter (Some 1%positive) (Some 1%positive)) = true.
Proof.
  assert (height ex_tree < 4)%nat as Hh by (simpl; lia).
  split; [apply ex_owns|]. split; [reflexivity|]. split; [exact Hh|].
  apply (incr_then_decr ex_world 1%positive ex_tree 1%positive (10, 1)%Z
           [(3%positive, (5, 3)%Z)]
           [(4%positive, (15, 4)%Z); (2%positive, (20, 2)%Z)] 4 ex_owns eq_refl Hh).
Defined.

Lemma copy_is_independent_witness :
  strict_weak_order Z.ltb
  ∧ world_inv Z.ltb {[1%positive := ex_tree]} ex_world
  ∧ ({[1%positive := ex_tree]} : gmap loc (@tree Z Z)) !! 1%positive = Some ex_tree
  ∧ (height ex_tree < 4)%nat
  ∧ (∃ this w1 t',
      map_copy_ctor 4 1%positive ex_world = Ok this w1
      ∧ this ≠ 1%positive
      ∧ same_shape ex_tree t' ∧ entries t' = entries ex_tree
      ∧ owns w1 this t' ∧ owns w1 1%positive ex_tree
      ∧ (∀ a, a ∈ addrs ex_tree → a ∉ addrs t')
      ∧ (∀ os w2, steps Z.ltb 0%Z w1 os w2 →
           Forall (λ o, ¬ touches o this) os → owns w2 this t')
      ∧ (∀ os w2, steps Z.ltb 0%Z w1 os w2 →
           Forall (λ o, ¬ touches o 1%positive) os → owns w2 1%positive ex_tree))
  ∧ map_assign 4 1%positive 1%positive ex_world = Ok tt ex_world.
Proof.
  assert (height ex_tree < 4)%nat as Hh by (simpl; lia).
  assert (({[1%positive := ex_tree]} : gmap loc (@tree Z Z)) !! 1%positive = Some ex_tree)
    as Hm by (vm_compute; reflexivity).
  split; [apply Zltb_swo|]. split; [apply ex_world_inv|]. split; [exact Hm|].
  split; [exact Hh|].
  destruct (copy_is_independent Z.ltb 0%Z {[1%positive := ex_tree]} ex_world 1%positive
              ex_tree 4 Zltb_swo ex_world_inv Hm Hh) as (Hcopy & _ & Hself).
  split; [exact Hcopy|exact Hself].
Defined.

Lemma empty_begin_is_end_witness :
  owns ex_world 1%positive ex_tree
  ∧ (height ex_tree < 4)%nat
  ∧ (∃ m w0, map_ctor ex_world = Ok m w0
       ∧ begin_ 4 m w0 = Ok (end_ m) w0
       ∧ iter_eq (end_ m) (end_ m) = true)
  ∧ (∃ w1, clear 4 1%positive ex_world = Ok tt w1
       ∧ begin_ 4 1%positive w1 = Ok (end_ 1%positive) w1
       ∧ iter_eq (end_ 1%positive) (end_ 1%positive) = true)
  ∧ (ex_tree = Leaf → begin_ 4 1%positive ex_world = Ok (end_ 1%positive) ex_world).
Proof.
  assert (height ex_tree < 4)%nat as Hh by (simpl; lia).
  split; [apply ex_owns|]. split; [exact Hh|].
  apply (empty_begin_is_end ex_world 1%positive ex_tree 4 ex_owns Hh).
Defined.

Lemma erase_returns_or_undefined_witness :
  owns ex_world 1%positive ex_tree
  ∧ red_black ex_tree
  ∧ ordered Z.ltb ex_tree
  ∧ 4%positive ∈ addrs ex_tree
  ∧ (height ex_tree ≤ 3)%nat
  ∧ ((∃ w' t' A d B,
        erase 4 1%positive (mkIter (Some 4%positive) (Some 1%positive)) ex_world = Ok tt w'
        ∧ owns w' 1%positive t' ∧ red_black t' ∧ ordered Z.ltb t'
        ∧ nodes ex_tree = A ++ (4%positive, d) :: B ∧ nodes t' = A ++ B
        ∧ heap w' !! 4%positive = None
        ∧ size 1%positive ex_world = Ok (size_t_wrap (Z.of_nat (node_count ex_tree))) ex_world
        ∧ size 1%positive w' = Ok (size_t_wrap (Z.of_nat (node_count t'))) w'
        ∧ node_count ex_tree = S (node_count t'))
     ∨ erase 4 1%positive (mkIter (Some 4%positive) (Some 1%positive)) ex_world = Undef)
  ∧ erase 4 1%positive (mkIter (Some 4%positive) (Some 1%positive)) ex_world
    = Ok tt (run_ops Z.ltb 0%Z 4 [OpErase 1%positive (mkIter (Some 4%positive) (Some 1%positive))]
               ex_world).
Proof.
  assert (4%positive ∈ addrs ex_tree) as Hin.
  { simpl. repeat first [apply list_elem_of_here | apply list_elem_of_further]. }
  assert (height ex_tree ≤ 3)%nat as Hh by (simpl; lia).
  split; [apply ex_owns|]. split; [apply ex_red_black|]. split; [apply ex_ordered|].
  split; [exact Hin|]. split; [exact Hh|]. split.
  - apply (erase_returns_or_undefined Z.ltb ex_world 1%positive ex_tree 4%positive 3
             ex_owns ex_red_black ex_ordered Hin Hh).
  - vm_compute. reflexivity.
Defined.

(** ** Lookup, insertion and erasure together *)

Section lookups.

Context {Key T : Type}.
Variable comp : Key → Key → bool.
Variable T_default : T.
Hypothesis comp_swo : strict_weak_order comp.

Local Abbreviation Node := (@Node Key T).
Local Abbreviation world := (@world Key T).
Local Abbreviation tree := (@tree Key T).
Local Abbreviation frame := (@frame Key T).
Local Abbreviation W := (@W Key T).

(** In an ordered sequence an entry sits on one node only. *)
Lemma sorted_node_unique (l : list (loc * (Key * T))) a b e :
  StronglySorted (key_lt comp) l.*2.*1 → (a, e) ∈ l → (b, e) ∈ l → a = b.
Proof.
  induction l as [|x l IH]; simpl; [by intros _ ?%elem_of_nil|].
  intros [Hall Hs]%StronglySorted_cons Ha Hb.
  assert (∀ c, x.2 = e → (c, e) ∈ l → False) as Hno.
  { intros c Hx Hc. rewrite Forall_forall in Hall.
    assert (key_lt comp x.2.1 e.1) as Hlt.
    { apply Hall. apply (list_elem_of_fmap_2 fst (l.*2) e).
      by apply (list_elem_of_fmap_2 snd l (c, e)). }
    rewrite Hx in Hlt. unfold key_lt in Hlt.
    by rewrite (swo_irrefl comp comp_swo) in Hlt. }
  apply elem_of_cons in Ha as [Ha|Ha]; apply elem_of_cons in Hb as [Hb|Hb].
  - congruence.
  - destruct (Hno b); [by rewrite <- Ha|done].
  - destruct (Hno a); [by rewrite <- Hb|done].
  - by apply IH.
Qed.

Lemma nodes_entry_unique (t : tree) a b e :
  ordered comp t → (a, e) ∈ nodes t → (b, e) ∈ nodes t → a = b.
Proof.
  unfold ordered. rewrite keys_nodes. apply sorted_node_unique.
Qed.

(** The keys around an entry of an ordered sequence are not equivalent
    to its key. *)
Lemma sorted_others_not_equiv (l1 l2 : list (Key * T)) d e :
  StronglySorted (key_lt comp) (l1 ++ d :: l2).*1 →
  e ∈ l1 ++ l2 → ¬ key_equiv comp d.1 e.1.
Proof.
  rewrite fmap_app, fmap_cons. intros Hs [He|He]%elem_of_app.
  - apply key_gt_not_equiv.
    apply (StronglySorted_app_1_elem_of _ _ _ _ _ Hs).
    + by apply list_elem_of_fmap_2.
    + apply list_elem_of_here.
  - apply key_lt_not_equiv.
    apply StronglySorted_app_1_r, StronglySorted_cons in Hs as [Hall _].
    rewrite Forall_forall in Hall. apply Hall. by apply list_elem_of_fmap_2.
Qed.

(** The node [findNode] returns for a key that has an equivalent. *)
Lemma findNode_present fuel (w : world) this (t : tree) key a e :
  owns w this t → ordered comp t → (a, e) ∈ nodes t →
  key_equiv comp key e.1 → (height t < fuel)%nat →
  findNode comp fuel this key w = Ok (Some a) w.
Proof.
  intros Ho Hord Hin Heq Hfuel.
  assert (e ∈ entries t) as He.
  { rewrite <- nodes_entries. by apply (list_elem_of_fmap_2 snd _ (a, e)). }
  destruct (descend_entry comp comp_swo t key e Hord He Heq) as (b & col & l & r & c & Hd).
  rewrite (findNode_spec comp fuel key w this t _ Ho Hfuel), Hd. simpl.
  assert ((b, e) ∈ nodes t) as Hb.
  { apply descend_plug_top in Hd. rewrite <- Hd, nodes_plug. simpl.
    apply elem_of_app. right. apply elem_of_app. left.
    apply elem_of_app. right. apply list_elem_of_here. }
  by rewrite (nodes_entry_unique t b a e Hord Hb Hin).
Qed.

Lemma findNode_absent fuel (w : world) this (t : tree) key :
  owns w this t → (∀ e, e ∈ entries t → ¬ key_equiv comp key e.1) →
  (height t < fuel)%nat →
  findNode comp fuel this key w = Ok None w.
Proof.
  intros Ho Habs Hfuel.
  rewrite (findNode_spec comp fuel key w this t _ Ho Hfuel).
  pose proof (descend_absent comp comp_swo key t [] Habs) as Hleaf.
  by rewrite Hleaf.
Qed.

Lemma read_entry_node (w : world) this (t : tree) a e :
  owns w this t → (a, e) ∈ nodes t → read_entry a w = Ok e w.
Proof.
  intros Ho [A [B Hn]]%list_elem_of_split.
  destruct (node_data w this _ t a e A B Ho Hn) as (nd & Hnd & Hd).
  unfold read_entry, get_data, deref, bind, ret. by rewrite Hnd, Hd.
Qed.

(** [insert] of a key that has no equivalent, on the sequence of the
    nodes. *)
Lemma insert_absent_spec fuel (w : world) this (t : tree) value :
  owns w this t → red_black t → ordered comp t →
  (∀ e, e ∈ entries t → ¬ key_equiv comp value.1 e.1) →
  (height t < fuel)%nat →
  ∃ z w' t' A B,
    insert comp fuel this value w = Ok (mkIter (Some z) (Some this), true) w'
    ∧ heap w !! z = None
    ∧ owns w' this t' ∧ red_black t' ∧ ordered comp t'
    ∧ nodes t = A ++ B ∧ nodes t' = A ++ (z, value) :: B.
Proof.
  intros Ho Hrb Hord Habs Hfuel.
  pose proof (descend_absent comp comp_swo value.1 t [] Habs) as Hleaf.
  destruct (descend comp value.1 t []) as [t0 c] eqn:Hd. simpl in Hleaf. subst t0.
  destruct (red_black_descend comp _ _ _ _ Hrb Hd) as (Htop & _).
  destruct (insert_new_spec comp fuel w this _ t c value Ho Hd Htop Hfuel)
    as (w' & He & Hz & Hfr & Hobj & Hdom).
  set (z := fresh (dom (heap w))) in *.
  set (t' := insert_tree comp z value t) in *.
  pose proof (insert_tree_new_nodes comp z value t c Hd) as Hn'. fold t' in Hn'.
  assert (nodes t = cnodes_before c ++ cnodes_after c) as Hn.
  { apply descend_plug_top in Hd. rewrite <- Hd, nodes_plug. done. }
  assert (owns w' this t') as Ho'.
  { unfold owns. unfold t'. rewrite (insert_tree_count comp _ _ _ _ Hd).
    by rewrite <- size_t_wrap_succ. }
  exists z, w', t', (cnodes_before c), (cnodes_after c).
  split_and!; try done.
  - apply fresh_lookup.
  - by apply insert_tree_red_black.
  - by apply insert_tree_ordered.
Qed.

Lemma size_owns (w : world) this (t : tree) :
  owns w this t → size this w = Ok (size_t_wrap (Z.of_nat (node_count t))) w.
Proof.
  intros (Hobj & _). unfold size, get_tree_size, this_obj, bind, ret.
  by rewrite Hobj.
Qed.

Lemma node_count_insert (t t' : tree) A z v B :
  nodes t = A ++ B → nodes t' = A ++ (z, v) :: B →
  node_count t' = S (node_count t).
Proof.
  intros Hn Hn'. rewrite !count_nodes, Hn, Hn', !length_app. simpl. lia.
Qed.

(** [~map()] frees the nodes of the tree and destroys the object. *)
Lemma map_dtor_spec fuel (w : world) this (t : tree) :
  owns w this t → (height t < fuel)%nat →
  ∃ h', map_dtor fuel this w = Ok tt (mkWorld h' (delete this (objs w)))
    ∧ heap_frame (addrs t) (heap w) h'
    ∧ (∀ a, a ∈ addrs t → h' !! a = None).
Proof.
  intros (Ho & Hr & Hnd)%owns_elim Hfuel. destruct w as [h o]. simpl in *.
  destruct (clearTree_spec fuel h o None t Hr Hnd Hfuel) as (h' & Hc & Hfr & Hnone).
  exists h'. split_and!; try done.
  unfold map_dtor, get_root, this_obj, bind, ret. simpl. rewrite Ho. simpl.
  by rewrite Hc.
Qed.

Lemma clear_spec fuel (w : world) this (t : tree) :
  owns w this t → (height t < fuel)%nat →
  ∃ h', clear fuel this w
        = Ok tt (mkWorld h' (<[this := mkMap None 0]> (objs w)))
    ∧ heap_frame (addrs t) (heap w) h'
    ∧ (∀ a, a ∈ addrs t → h' !! a = None).
Proof.
  intros (Ho & Hr & Hnd)%owns_elim Hfuel. destruct w as [h o]. simpl in *.
  destruct (clearTree_spec fuel h o None t Hr Hnd Hfuel) as (h' & Hc & Hfr & Hnone).
  exists h'. split_and!; try done.
  unfold clear, get_root, set_root, set_tree_size, put_obj, this_obj, bind, ret.
  simpl. rewrite Ho. simpl. rewrite Hc. simpl. rewrite Ho. simpl.
  rewrite lookup_insert_eq. simpl. by rewrite insert_insert_eq.
Qed.

End lookups.

(** ** Further properties of the code *)

Section more_properties.

Context {Key T : Type}.
Variable comp : Key → Key → bool.
Variable T_default : T.

Local Abbreviation Node := (@Node Key T).
Local Abbreviation world := (@world Key T).
Local Abbreviation tree := (@tree Key T).
Local Abbreviation frame := (@frame Key T).
Local Abbreviation W := (@W Key T).

(** X2.  [insert] of an entry whose key has no equivalent in the map
    returns an iterator at a node that did not exist, with [true]; the
    new tree holds the entries of the old one on their nodes, in their
    order, with the new entry between them; it is ordered and
    red-black; [size()] is one more, modulo [2^64]. *)
Theorem insert_new_entry (w : world) this (t : tree) value fuel :
  strict_weak_order comp →
  owns w this t → red_black t → ordered comp t →
  (∀ e, e ∈ entries t → ¬ key_equiv comp value.1 e.1) →
  (height t < fuel)%nat →
  ∃ z w' t' A B n,
    insert comp fuel this value w = Ok (mkIter (Some z) (Some this), true) w'
    ∧ heap w !! z = None
    ∧ owns w' this t' ∧ red_black t' ∧ ordered comp t'
    ∧ nodes t = A ++ B ∧ nodes t' = A ++ (z, value) :: B
    ∧ read_entry z w' = Ok value w'
    ∧ (∀ a e, (a, e) ∈ nodes t → read_entry a w' = Ok e w')
    ∧ size this w = Ok n w ∧ size this w' = Ok (size_t_wrap (n + 1)) w'.
Proof.
  intros Hswo Ho Hrb Hord Habs Hfuel.
  destruct (insert_absent_spec comp Hswo fuel w this t value Ho Hrb Hord Habs Hfuel)
    as (z & w' & t' & A & B & Hi & Hz & Ho' & Hrb' & Hord' & Hn & Hn').
  exists z, w', t', A, B, (size_t_wrap (Z.of_nat (node_count t))).
  split_and!; try done.
  - apply (read_entry_node w' this t' z value Ho'). rewrite Hn'.
    apply elem_of_app. right. apply list_elem_of_here.
  - intros a e Hin. apply (read_entry_node w' this t' a e Ho').
    rewrite Hn', elem_of_app, elem_of_cons. rewrite Hn, elem_of_app in Hin. tauto.
  - by apply size_owns.
  - rewrite (size_owns w' this t' Ho'), (node_count_insert t t' A z value B Hn Hn').
    by rewrite size_t_wrap_succ.
Qed.

(** X3.  For a key that has an equivalent in the map, [find] returns
    an iterator at the node of that entry, [count] returns 1, and [at],
    [operator[]] and the const [operator[]] return the reference into
    that node; none of them changes the state, and [operator[]] inserts
    nothing. *)
Theorem lookup_present (w : world) this (t : tree) key a e fuel :
  strict_weak_order comp →
  owns w this t → ordered comp t →
  (a, e) ∈ nodes t → key_equiv comp key e.1 →
  (height t < fuel)%nat →
  read_entry a w = Ok e w
  ∧ find comp fuel this key w = Ok (mkIter (Some a) (Some this)) w
  ∧ count comp fuel this key w = Ok 1%Z w
  ∧ at_ comp fuel this key w = Ok a w
  ∧ subscript comp T_default fuel this key w = Ok a w
  ∧ subscript_const comp fuel this key w = Ok a w.
Proof.
  intros Hswo Ho Hord Hin Heq Hfuel.
  pose proof (findNode_present comp Hswo fuel w this t key a e Ho Hord Hin Heq Hfuel) as Hf.
  split_and!.
  - by eapply read_entry_node.
  - unfold find, bind. by rewrite Hf.
  - unfold count, bind. by rewrite Hf.
  - unfold at_, bind. by rewrite Hf.
  - unfold subscript, bind. by rewrite Hf.
  - unfold subscript_const, at_, bind. by rewrite Hf.
Qed.

(** X4.  For a key that has no equivalent in the map, [find] returns
    [end()], [count] returns 0 and the const [operator[]] throws
    [index_out_of_bound]; the state stays as it is. *)
Theorem lookup_absent (w : world) this (t : tree) key fuel :
  strict_weak_order comp →
  owns w this t →
  (∀ e, e ∈ entries t → ¬ key_equiv comp key e.1) →
  (height t < fuel)%nat →
  find comp fuel this key w = Ok (end_ this) w
  ∧ count comp fuel this key w = Ok 0%Z w
  ∧ subscript_const comp fuel this key w = Throw index_out_of_bound w.
Proof.
  intros Hswo Ho Habs Hfuel.
  pose proof (findNode_absent comp Hswo fuel w this t key Ho Habs Hfuel) as Hf.
  split_and!.
  - unfold find, bind. by rewrite Hf.
  - unfold count, bind. by rewrite Hf.
  - unfold subscript_const, at_, bind. by rewrite Hf.
Qed.

(** X5.  After [insert], whether the key was new or not, [find] with
    the key of the entry returns the iterator that [insert] returned,
    [count] returns 1, and the entry under the iterator has an
    equivalent key; it is the inserted entry when [insert] returned
    [true]. *)
Theorem insert_then_find (w : world) this (t : tree) value fuel :
  strict_weak_order comp →
  owns w this t → red_black t → ordered comp t →
  (node_count t + 1 < fuel)%nat →
  ∃ a b w' e,
    insert comp fuel this value w = Ok (mkIter (Some a) (Some this), b) w'
    ∧ find comp fuel this value.1 w' = Ok (mkIter (Some a) (Some this)) w'
    ∧ count comp fuel this value.1 w' = Ok 1%Z w'
    ∧ read_entry a w' = Ok e w'
    ∧ key_equiv comp value.1 e.1
    ∧ (b = true → e = value)
    ∧ (b = false → w' = w).
Proof.
  intros Hswo Ho Hrb Hord Hfuel.
  pose proof (height_le_count t) as Hh.
  destruct (descend comp value.1 t []) as [t0 c] eqn:Hd.
  destruct t0 as [|a col l d r].
  - assert (∀ e, e ∈ entries t → ¬ key_equiv comp value.1 e.1) as Habs.
    { intros e He Heq.
      destruct (descend_entry comp Hswo t value.1 e Hord He Heq)
        as (a & col & l & r & c' & Hd'). congruence. }
    destruct (insert_absent_spec comp Hswo fuel w this t value Ho Hrb Hord Habs ltac:(lia))
      as (z & w' & t' & A & B & Hi & _ & Ho' & _ & Hord' & Hn & Hn').
    assert ((z, value) ∈ nodes t') as Hin.
    { rewrite Hn'. apply elem_of_app. right. apply list_elem_of_here. }
    assert (height t' < fuel)%nat as Hfuel'.
    { pose proof (height_le_count t').
      rewrite (node_count_insert t t' A z value B Hn Hn') in *. lia. }
    pose proof (findNode_present comp Hswo fuel w' this t' value.1 z value Ho' Hord' Hin
                  (key_equiv_refl comp Hswo _) Hfuel') as Hf.
    assert (find comp fuel this value.1 w' = Ok (mkIter (Some z) (Some this)) w') as Hfind.
    { unfold find, bind. by rewrite Hf. }
    assert (count comp fuel this value.1 w' = Ok 1%Z w') as Hc.
    { unfold count, bind. by rewrite Hf. }
    pose proof (read_entry_node w' this t' z value Ho' Hin) as Hr.
    exists z, true, w', value. split_and!; try done. by apply key_equiv_refl.
  - pose proof (descend_found comp _ _ _ _ _ _ _ _ _ Hd) as Heq.
    assert ((a, d) ∈ nodes t) as Hin.
    { apply descend_plug_top in Hd. rewrite <- Hd, nodes_plug. simpl.
      apply elem_of_app. right. apply elem_of_app. left.
      apply elem_of_app. right. apply list_elem_of_here. }
    pose proof (findNode_present comp Hswo fuel w this t value.1 a d Ho Hord Hin Heq
                  ltac:(lia)) as Hf.
    assert (find comp fuel this value.1 w = Ok (mkIter (Some a) (Some this)) w) as Hfind.
    { unfold find, bind. by rewrite Hf. }
    assert (count comp fuel this value.1 w = Ok 1%Z w) as Hc.
    { unfold count, bind. by rewrite Hf. }
    pose proof (read_entry_node w this t a d Ho Hin) as Hr.
    exists a, false, w, d. split_and!; try done.
    apply (insert_found_spec comp fuel w this _ t c value a col l d r Ho Hd). lia.
Qed.

(** X6.  When [erase] through an iterator at a node of the map returns,
    the key of the erased entry is gone: [find] returns [end()],
    [count] returns 0, [at] throws [index_out_of_bound].  Every other
    entry is found on the node it had, so the iterators and the
    references to the other entries stay valid. *)
Theorem erase_then_find (w w' : world) this (t : tree) z d A B fuel :
  strict_weak_order comp →
  owns w this t → red_black t → ordered comp t →
  nodes t = A ++ (z, d) :: B →
  (node_count t ≤ fuel)%nat →
  erase (S fuel) this (mkIter (Some z) (Some this)) w = Ok tt w' →
  find comp fuel this d.1 w' = Ok (end_ this) w'
  ∧ count comp fuel this d.1 w' = Ok 0%Z w'
  ∧ at_ comp fuel this d.1 w' = Throw index_out_of_bound w'
  ∧ (∀ a e, (a, e) ∈ A ++ B →
       find comp fuel this e.1 w' = Ok (mkIter (Some a) (Some this)) w'
       ∧ read_entry a w' = Ok e w').
Proof.
  intros Hswo Ho Hrb Hord Hn Hfuel He.
  pose proof (height_le_count t) as Hh.
  assert (z ∈ addrs t) as Hz.
  { rewrite <- nodes_addrs, Hn, fmap_app, fmap_cons.
    apply elem_of_app. right. apply list_elem_of_here. }
  destruct (erase_owns fuel w this t z Ho Hrb Hz ltac:(lia))
    as [(w1 & t' & A' & d' & B' & He1 & Ho' & Hrb' & Hn1 & Hn' & Hfr)|Hundef];
    [|congruence].
  rewrite He1 in He. injection He as ->.
  assert (A = A' ∧ d = d' ∧ B = B') as (<- & <- & <-).
  { apply (nodes_split_unique (nodes t) A B A' B' z d d'); [|congruence].
    rewrite <- Hn, nodes_addrs. by destruct (owns_elim _ _ _ Ho) as (_ & _ & ?). }
  assert (ordered comp t') as Hord' by (by eapply ordered_remove).
  assert (height t' < fuel)%nat as Hfuel'.
  { pose proof (height_le_count t'). rewrite !count_nodes in *.
    rewrite Hn', length_app in *. rewrite Hn, length_app in Hfuel. simpl in *. lia. }
  assert (∀ e, e ∈ entries t' → ¬ key_equiv comp d.1 e.1) as Habs.
  { intros e Hin. rewrite <- nodes_entries, Hn', fmap_app in Hin.
    apply (sorted_others_not_equiv comp A.*2 B.*2 d e); [|done].
    unfold ordered in Hord. rewrite keys_nodes, Hn, fmap_app, fmap_cons in Hord.
    done. }
  pose proof (findNode_absent comp Hswo fuel w' this t' d.1 Ho' Habs Hfuel') as Hf.
  split_and!.
  - unfold find, bind. by rewrite Hf.
  - unfold count, bind. by rewrite Hf.
  - unfold at_, bind. by rewrite Hf.
  - intros a e Hin. rewrite <- Hn' in Hin. split.
    + unfold find, bind.
      by rewrite (findNode_present comp Hswo fuel w' this t' e.1 a e Ho' Hord' Hin
                    (key_equiv_refl comp Hswo _) Hfuel').
    + by eapply read_entry_node.
Qed.

(** X7.  [--] and then [++] give the iterator back: from the position
    that follows a node [p], [end()] if [p] is the last one, [--] goes
    to [p] and [++] returns; the postfix forms return the iterator they
    were given and move to the same positions. *)
Theorem decr_then_incr (w : world) this (t : tree) p dp A B fuel :
  owns w this t → nodes t = A ++ (p, dp) :: B → (height t < fuel)%nat →
  iter_decr fuel (mkIter (head B.*1) (Some this)) w
  = Ok (mkIter (Some p) (Some this)) w
  ∧ iter_incr fuel (mkIter (Some p) (Some this)) w
    = Ok (mkIter (head B.*1) (Some this)) w
  ∧ iter_post_decr fuel (mkIter (head B.*1) (Some this)) w
    = Ok (mkIter (head B.*1) (Some this), mkIter (Some p) (Some this)) w
  ∧ iter_post_incr fuel (mkIter (Some p) (Some this)) w
    = Ok (mkIter (Some p) (Some this), mkIter (head B.*1) (Some this)) w.
Proof.
  intros Ho Hn Hfuel.
  assert (iter_decr fuel (mkIter (head B.*1) (Some this)) w
          = Ok (mkIter (Some p) (Some this)) w) as Hd.
  { destruct B as [|[b db] B]; simpl.
    - rewrite (iter_decr_end fuel w this _ t Ho Hfuel).
      rewrite <- nodes_addrs, Hn, fmap_app. simpl. by rewrite last_snoc.
    - assert (nodes t = (A ++ [(p, dp)]) ++ (b, db) :: B) as Hn'.
      { by rewrite <- app_assoc. }
      rewrite (iter_decr_nodes fuel w this _ t b db _ B (Some this) Ho Hn' Hfuel).
      rewrite fmap_app. simpl. by rewrite last_snoc. }
  pose proof (iter_incr_nodes fuel w this _ t p dp A B (Some this) Ho Hn Hfuel) as Hi.
  split_and!; try done.
  - unfold iter_post_decr, bind, ret. by rewrite Hd.
  - unfold iter_post_incr, bind, ret. by rewrite Hi.
Qed.

(** X8.  [begin()] is at the entry with the least key and [--end()] at
    the entry with the greatest key. *)
Theorem begin_least_last_greatest (w : world) this (t : tree) a d b e M fuel :
  owns w this t → ordered comp t →
  nodes t = (a, d) :: M → last ((a, d) :: M) = Some (b, e) →
  (height t < fuel)%nat →
  begin_ fuel this w = Ok (mkIter (Some a) (Some this)) w
  ∧ read_entry a w = Ok d w
  ∧ (∀ x, x ∈ M.*2 → key_lt comp d.1 x.1)
  ∧ iter_decr fuel (end_ this) w = Ok (mkIter (Some b) (Some this)) w
  ∧ read_entry b w = Ok e w
  ∧ (∀ x y, (x, y) ∈ nodes t → (x, y) = (b, e) ∨ key_lt comp y.1 e.1).
Proof.
  intros Ho Hord Hn Hlast Hfuel.
  assert (StronglySorted (key_lt comp) ((a, d) :: M).*2.*1) as Hs.
  { unfold ordered in Hord. by rewrite keys_nodes, Hn in Hord. }
  split_and!.
  - rewrite (begin_spec fuel w this _ t Ho Hfuel).
    by rewrite <- nodes_addrs, Hn.
  - apply (read_entry_node w this t a d Ho). rewrite Hn. apply list_elem_of_here.
  - simpl in Hs. apply StronglySorted_cons in Hs as [Hall _].
    rewrite Forall_forall in Hall. intros x Hx. apply Hall.
    by apply list_elem_of_fmap_2.
  - unfold end_. rewrite (iter_decr_end fuel w this _ t Ho Hfuel).
    rewrite <- nodes_addrs, Hn, fmap_last, Hlast. done.
  - apply (read_entry_node w this t b e Ho). rewrite Hn.
    by apply last_Some_elem_of.
  - intros x y Hin. rewrite Hn in Hin.
    apply last_Some in Hlast as [L HL]. rewrite HL in Hin, Hs.
    apply elem_of_app in Hin as [Hin|Hin].
    + right. rewrite !fmap_app in Hs.
      apply (StronglySorted_app_1_elem_of _ _ _ _ _ Hs).
      * apply (list_elem_of_fmap_2 fst (L.*2) y).
        by apply (list_elem_of_fmap_2 snd L (x, y)).
      * apply list_elem_of_here.
    + left. by apply list_elem_of_singleton in Hin.
Qed.

(** X9.  [++] goes to the entry with the next key: the key under the
    new iterator is greater, no key of the map lies between the two,
    and [--] goes back. *)
Theorem incr_is_successor (w : world) this (t : tree) a d b e A B fuel :
  strict_weak_order comp →
  owns w this t → ordered comp t →
  nodes t = A ++ (a, d) :: (b, e) :: B →
  (height t < fuel)%nat →
  iter_incr fuel (mkIter (Some a) (Some this)) w = Ok (mkIter (Some b) (Some this)) w
  ∧ iter_decr fuel (mkIter (Some b) (Some this)) w = Ok (mkIter (Some a) (Some this)) w
  ∧ read_entry a w = Ok d w ∧ read_entry b w = Ok e w
  ∧ key_lt comp d.1 e.1
  ∧ (∀ x, x ∈ entries t → ¬ (key_lt comp d.1 x.1 ∧ key_lt comp x.1 e.1)).
Proof.
  intros Hswo Ho Hord Hn Hfuel.
  assert (StronglySorted (key_lt comp) (A.*2.*1 ++ d.1 :: e.1 :: B.*2.*1)) as Hs.
  { unfold ordered in Hord. rewrite keys_nodes, Hn in Hord.
    by rewrite !fmap_app, !fmap_cons in Hord. }
  assert (key_lt comp d.1 e.1) as Hde.
  { apply StronglySorted_app_1_r, StronglySorted_cons in Hs as [Hall _].
    by apply Forall_cons in Hall as [? _]. }
  assert (∀ k, ¬ key_lt comp k k) as Hirr.
  { intros k Hk. unfold key_lt in Hk. by rewrite (swo_irrefl comp Hswo) in Hk. }
  split_and!; try done.
  - by rewrite (iter_incr_nodes fuel w this _ t a d A _ (Some this) Ho Hn Hfuel).
  - assert (nodes t = (A ++ [(a, d)]) ++ (b, e) :: B) as Hn'.
    { by rewrite <- app_assoc. }
    rewrite (iter_decr_nodes fuel w this _ t b e _ B (Some this) Ho Hn' Hfuel).
    rewrite fmap_app. simpl. by rewrite last_snoc.
  - apply (read_entry_node w this t a d Ho). rewrite Hn.
    apply elem_of_app. right. apply list_elem_of_here.
  - apply (read_entry_node w this t b e Ho). rewrite Hn.
    apply elem_of_app. right. apply list_elem_of_further, list_elem_of_here.
  - intros x Hx [H1 H2].
    rewrite <- nodes_entries, Hn, fmap_app, !fmap_cons in Hx.
    apply elem_of_app in Hx as [Hx|Hx].
    + (* before [d]: less than [d] *)
      apply (Hirr d.1). apply (key_lt_trans comp Hswo _ x.1); [done|].
      apply (StronglySorted_app_1_elem_of _ _ _ _ _ Hs).
      * by apply list_elem_of_fmap_2.
      * apply list_elem_of_here.
    + apply elem_of_cons in Hx as [->|Hx]; [by apply (Hirr d.1)|].
      apply elem_of_cons in Hx as [->|Hx]; [by apply (Hirr e.1)|].
      (* after [e]: greater than [e] *)
      apply (Hirr e.1). apply (key_lt_trans comp Hswo _ x.1); [|done].
      apply StronglySorted_app_1_r, StronglySorted_cons in Hs as [_ Hs].
      apply StronglySorted_cons in Hs as [Hall _].
      rewrite Forall_forall in Hall. apply Hall. by apply list_elem_of_fmap_2.
Qed.

(** X10.  In every state that is reached, a traversal of a map from
    [begin()] to [end()] returns its entries with strictly increasing
    keys, no two of them equivalent; [size()] is their number modulo
    [2^64], and, when there are fewer than [2^64] of them, [empty()]
    tells whether there is none. *)
Theorem reachable_traversal_sorted (w : world) this m :
  strict_weak_order comp →
  reachable comp T_default w →
  objs w !! this = Some m →
  ∃ es,
    (∀ fuel, (2 * length es < fuel)%nat → traverse fuel this w = Ok es w)
    ∧ StronglySorted (key_lt comp) es.*1
    ∧ (∀ e1 e2, e1 ∈ es → e2 ∈ es → key_equiv comp e1.1 e2.1 → e1 = e2)
    ∧ size this w = Ok (size_t_wrap (Z.of_nat (length es))) w
    ∧ ((Z.of_nat (length es) < size_t_mod)%Z →
       empty this w = Ok (bool_decide (es = [])) w).
Proof.
  intros Hswo Hreach Hobj.
  destruct (reachable_inv comp T_default Hswo w Hreach) as (M & Hdom & Hown & _).
  assert (is_Some (M !! this)) as [t Ht].
  { apply elem_of_dom. rewrite Hdom. apply elem_of_dom. by eexists. }
  destruct (Hown this t Ht) as (Ho & Hrb & Hord).
  assert (length (entries t) = node_count t) as Hlen.
  { by rewrite entries_length, count_length. }
  exists (entries t). split_and!.
  - intros fuel Hfuel. apply (traverse_spec fuel w this _ t Ho).
    pose proof (height_le_count t). lia.
  - apply Hord.
  - intros e1 e2 H1 H2 Heq.
    eapply (entries_sorted_equiv_eq comp); [|exact H1|exact H2|exact Heq].
    by apply ordered_entries.
  - rewrite Hlen. by apply size_owns.
  - intros Hsmall. destruct Ho as (Hobj' & _).
    unfold empty, get_tree_size, this_obj, bind, ret. rewrite Hobj'. simpl.
    do 2 f_equal. rewrite <- Hlen. unfold size_t_wrap.
    rewrite Z.mod_small by lia.
    destruct (entries t) as [|x l]; simpl; [done|].
    done.
Qed.

(** X11.  The loops of a lookup and of an insertion run a logarithmic
    number of times: in a state that is reached, on a map of [n]
    entries, fuel [f] with [(n + 1) ^ 2 < 2 ^ f], that is
    [f > 2 * log2 (n + 1)], is enough for [find], [count] and [insert]
    to return. *)
Theorem lookup_logarithmic (w : world) this (t : tree) key value fuel :
  strict_weak_order comp →
  reachable comp T_default w →
  owns w this t →
  ((node_count t + 1) ^ 2 < 2 ^ fuel)%nat →
  (∃ it, find comp fuel this key w = Ok it w)
  ∧ (∃ n, count comp fuel this key w = Ok n w)
  ∧ (∃ r w', insert comp fuel this value w = Ok r w').
Proof.
  intros Hswo Hreach Ho Hfuel.
  destruct (reachable_inv comp T_default Hswo w Hreach) as (M & Hdom & Hown & _).
  assert (is_Some (M !! this)) as [t0 Ht].
  { apply elem_of_dom. rewrite Hdom. apply elem_of_dom.
    destruct Ho as (Hobj & _). by eexists. }
  destruct (Hown this t0 Ht) as (Ho0 & Hrb & Hord).
  assert (t0 = t) as -> by (by eapply owns_unique).
  assert (height t < fuel)%nat as Hh.
  { pose proof (red_black_height t Hrb) as Hb.
    apply (Nat.pow_lt_mono_r_iff 2); lia. }
  pose proof (findNode_spec comp fuel key w this t _ Ho Hh) as Hf.
  split_and!.
  - eexists. unfold find, bind. by rewrite Hf.
  - eexists. unfold count, bind. by rewrite Hf.
  - destruct (insert_owns comp fuel w this t value Ho Hrb Hord Hh)
      as (it & b & w' & Hi & _). by exists (it, b), w'.
Qed.

(** X12.  [clear()] and the destructor free every node of the map, each
    once, and no other node; [clear()] leaves an empty map, of size 0,
    and the destructor leaves no object.  The other maps and their
    nodes stay as they are. *)
Theorem clear_and_destructor_free (w : world) this (t : tree) fuel :
  owns w this t → (height t < fuel)%nat →
  (∃ w', clear fuel this w = Ok tt w'
     ∧ (∀ a, a ∈ addrs t → heap w' !! a = None)
     ∧ (∀ a, a ∉ addrs t → heap w' !! a = heap w !! a)
     ∧ objs w' = <[this := mkMap None 0]> (objs w)
     ∧ size this w' = Ok 0%Z w' ∧ empty this w' = Ok true w'
     ∧ begin_ fuel this w' = Ok (end_ this) w')
  ∧ (∃ w', map_dtor fuel this w = Ok tt w'
       ∧ (∀ a, a ∈ addrs t → heap w' !! a = None)
       ∧ (∀ a, a ∉ addrs t → heap w' !! a = heap w !! a)
       ∧ objs w' = delete this (objs w)).
Proof.
  intros Ho Hfuel. split.
  - destruct (clear_spec fuel w this t Ho Hfuel) as (h' & Hc & Hfr & Hnone).
    eexists. split; [exact Hc|]. simpl. split_and!; try done.
    + unfold size, get_tree_size, this_obj, bind, ret. simpl.
      by rewrite lookup_insert_eq.
    + unfold empty, get_tree_size, this_obj, bind, ret. simpl.
      by rewrite lookup_insert_eq.
    + apply (begin_spec fuel _ this 0 Leaf); [|simpl; lia].
      apply owns_intro; simpl; [by rewrite lookup_insert_eq|done|apply NoDup_nil_2].
  - destruct (map_dtor_spec fuel w this t Ho Hfuel) as (h' & Hc & Hfr & Hnone).
    eexists. split; [exact Hc|]. simpl. done.
Qed.

End more_properties.

(** ** States that represent the same tree *)

Section same_state.

Context {Key T : Type}.

Local Abbreviation Node := (@Node Key T).
Local Abbreviation world := (@world Key T).
Local Abbreviation tree := (@tree Key T).
Local Abbreviation frame := (@frame Key T).
Local Abbreviation W := (@W Key T).

Lemma rep_lookup_eq (h h' : gmap loc Node) par (t : tree) a :
  rep h par t → rep h' par t → a ∈ addrs t → h' !! a = h !! a.
Proof.
  revert par. induction t as [|b c l IHl d r IHr]; intros par; simpl.
  - by intros _ _ ?%elem_of_nil.
  - intros (Hb & Hl & Hr) (Hb' & Hl' & Hr') [Ha|[->|Ha]%elem_of_cons]%elem_of_app.
    + by eapply IHl.
    + by rewrite Hb, Hb'.
    + by eapply IHr.
Qed.

(** Two states in which [this] has the same tree on the same nodes, and
    which agree elsewhere, are one state. *)
Lemma zip_at_eq (w w' : world) this (t : tree) c n :
  zip_at w this t c n → zip_at w' this t c n →
  heap_frame (addrs t ++ caddrs c) (heap w) (heap w') →
  objs_frame this (objs w) (objs w') →
  w' = w.
Proof.
  intros Hz Hz' Hfr Hobj.
  apply (proj1 (zip_plug _ _ _ _ _)) in Hz, Hz'.
  destruct Hz as (Ho & Hr & _). destruct Hz' as (Ho' & Hr' & _).
  destruct w as [h o], w' as [h' o']. simpl in *. f_equal.
  - apply map_eq. intros a.
    destruct (decide (a ∈ addrs t ++ caddrs c)) as [Hin|Hni].
    + eapply rep_lookup_eq; [exact Hr|exact Hr'|]. by rewrite addrs_plug_perm.
    + by apply Hfr.
  - apply map_eq. intros a. destruct (decide (a = this)) as [->|Hne].
    + by rewrite Ho, Ho'.
    + by apply Hobj.
Qed.

(** X13.  The two rotations undo each other: [leftRotate] at a node
    [x] and then [rightRotate] at the node [y] that has taken its place
    give the state back, every link and the root included; so do
    [rightRotate] at [y] and then [leftRotate] at [x], from the state
    in between. *)
Theorem rotations_are_inverse (w : world) this n c x cx a dx y cy b dy g :
  zip_at w this (Tr x cx a dx (Tr y cy b dy g)) c n →
  ∃ w1,
    leftRotate this (Some x) w = Ok tt w1
    ∧ rightRotate this (Some y) w1 = Ok tt w
    ∧ zip_at w1 this (Tr y cy (Tr x cx a dx b) dy g) c n.
Proof.
  intros Hz.
  destruct (leftRotate_zip _ _ _ _ _ _ _ _ _ _ _ _ _ Hz)
    as (w1 & Hl & Hz1 & Hfr1 & Hobj1 & _).
  destruct (rightRotate_zip _ _ _ _ _ _ _ _ _ _ _ _ _ Hz1)
    as (w2 & Hr & Hz2 & Hfr2 & Hobj2 & _).
  exists w1. split_and!; try done.
  rewrite Hr. f_equal.
  apply (zip_at_eq w w2 this _ c n Hz Hz2).
  - eapply heap_frame_trans; [exact Hfr1|].
    eapply heap_frame_perm; [|exact Hfr2]. simpl. solve_Permutation.
  - by eapply objs_frame_trans.
Qed.

End same_state.

(** ** No node is lost *)

Section allocation.

Context {Key T : Type}.
Variable comp : Key → Key → bool.
Variable T_default : T.
Hypothesis comp_swo : strict_weak_order comp.

Local Abbreviation Node := (@Node Key T).
Local Abbreviation world := (@world Key T).
Local Abbreviation tree := (@tree Key T).
Local Abbreviation frame := (@frame Key T).
Local Abbreviation W := (@W Key T).

(** [copyTree], with the nodes that are allocated afterwards. *)
Lemma copyTree_alloc fuel (h : gmap loc Node) o par (t : tree) par' :
  rep h par t → (height t < fuel)%nat →
  ∃ t' h', copyTree fuel (tptr t) par' (mkWorld h o) = Ok (tptr t') (mkWorld h' o)
    ∧ same_shape t t'
    ∧ rep h' par' t'
    ∧ NoDup (addrs t')
    ∧ (∀ a, a ∈ addrs t' → h !! a = None)
    ∧ (∀ a, is_Some (h !! a) → h' !! a = h !! a)
    ∧ (∀ a, is_Some (h' !! a) → is_Some (h !! a) ∨ a ∈ addrs t').
Proof.
  revert fuel h par par'.
  induction t as [|a c l IHl d r IHr]; intros fuel h par par' Hrep Hfuel.
  - destruct fuel; [lia|]. exists Leaf, h. split_and!; try done.
    + apply NoDup_nil_2.
    + intros a Ha. by apply elem_of_nil in Ha.
    + by left.
  - destruct fuel as [|fuel]; [lia|]. simpl in Hrep, Hfuel.
    destruct Hrep as (Ha & Hl & Hr).
    remember (fresh (dom h)) as b eqn:Hb.
    assert (h !! b = None) as Hbh by (subst b; apply fresh_lookup).
    assert (a ≠ b) as Hab by (intros ->; congruence).
    assert (b ∉ addrs l) as Hbl by (subst b; by eapply fresh_rep).
    assert (b ∉ addrs r) as Hbr by (subst b; by eapply fresh_rep).
    set (h2 := <[b := with_color c (mkNode d None None par' true)]>
                 (<[b := mkNode d None None par' true]> h)).
    assert (∀ x, x ≠ b → h2 !! x = h !! x) as F0.
    { intros x Hx. unfold h2. by rewrite !lookup_insert_ne. }
    assert (rep h2 (Some a) l) as Hl2.
    { unfold h2. by repeat apply rep_insert_ne. }
    destruct (IHl fuel h2 (Some a) (Some b) Hl2 ltac:(lia))
      as (l' & h3 & E1 & S1 & R1 & N1 & D1 & F1 & G1).
    assert (h3 !! b = Some (mkNode d None None par' c)) as Hb3.
    { rewrite F1; unfold h2; by rewrite lookup_insert_eq. }
    assert (b ∉ addrs l') as Hbl'.
    { intros Hin. apply D1 in Hin. unfold h2 in Hin. by rewrite lookup_insert_eq in Hin. }
    set (h4 := <[b := with_left (tptr l') (mkNode d None None par' c)]> h3).
    assert (∀ x, is_Some (h !! x) → h4 !! x = h !! x) as F4.
    { intros x Hx. assert (x ≠ b) by (intros ->; rewrite Hbh in Hx; by destruct Hx).
      unfold h4. rewrite lookup_insert_ne by done.
      rewrite F1; rewrite F0 by done; done. }
    assert (rep h4 (Some a) r) as Hr4.
    { eapply rep_frame; [|exact Hr]. intros x Hx. apply F4. by eapply rep_dom. }
    destruct (IHr fuel h4 (Some a) (Some b) Hr4 ltac:(lia))
      as (r' & h5 & E2 & S2 & R2 & N2 & D2 & F2 & G2).
    assert (h5 !! b = Some (mkNode d (tptr l') None par' c)) as Hb5.
    { rewrite F2; unfold h4; by rewrite lookup_insert_eq. }
    assert (b ∉ addrs r') as Hbr'.
    { intros Hin. apply D2 in Hin. unfold h4 in Hin. by rewrite lookup_insert_eq in Hin. }
    assert (∀ x, x ∈ addrs l' → x ∉ addrs r') as Hlr.
    { intros x Hx Hin. apply D2 in Hin.
      destruct (rep_dom _ _ _ _ R1 Hx) as [nx Hnx].
      unfold h4 in Hin. rewrite lookup_insert_ne in Hin by congruence. congruence. }
    exists (Tr b c l' d r'),
      (<[b := with_right (tptr r') (mkNode d (tptr l') None par' c)]> h5).
    split_and!.
    + cbn [copyTree tptr]. rewrite ptr_eqb_Some_None.
      unfold get_data, get_color, get_left, get_right, set_color, set_left,
        set_right, modify, deref, new_Node, bind, ret. simpl.
      rewrite Ha. simpl. rewrite <- Hb.
      rewrite lookup_insert_ne by done. rewrite Ha. simpl.
      rewrite lookup_insert_eq. simpl.
      rewrite lookup_insert_ne by done. rewrite lookup_insert_ne by done.
      rewrite Ha. simpl. fold h2. rewrite E1. simpl.
      rewrite Hb3. simpl. fold h4.
      rewrite (F4 a) by (by rewrite Ha). rewrite Ha. simpl.
      rewrite E2. simpl. rewrite Hb5. simpl. done.
    + simpl. done.
    + simpl. split_and!.
      * by rewrite lookup_insert_eq.
      * apply rep_insert_ne; [done|].
        eapply rep_frame; [|exact R1]. intros x Hx.
        destruct (rep_dom _ _ _ _ R1 Hx) as [nx Hnx].
        rewrite F2; unfold h4; rewrite lookup_insert_ne by congruence; [done|].
        by rewrite Hnx.
      * by apply rep_insert_ne.
    + simpl. apply NoDup_app. split_and!; [done| |].
      * intros x Hx [->|Hin]%elem_of_cons; [done|]. by apply (Hlr x).
      * by apply NoDup_cons.
    + intros x. simpl. intros [Hx|[->|Hx]%elem_of_cons]%elem_of_app.
      * assert (x ≠ b) by congruence. rewrite <- F0 by done. by apply D1.
      * done.
      * assert (x ≠ b) by congruence.
        destruct (h !! x) eqn:Hhx; [|done].
        pose proof (F4 x ltac:(by rewrite Hhx)) as E.
        rewrite (D2 x Hx), Hhx in E. done.
    + intros x Hx. assert (x ≠ b) by (intros ->; rewrite Hbh in Hx; by destruct Hx).
      rewrite lookup_insert_ne by done.
      rewrite F2; [by apply F4|]. by rewrite F4.
    + intros x Hx. simpl.
      destruct (decide (x = b)) as [->|Hxb]; [right; elem_tac|].
      rewrite lookup_insert_ne in Hx by done.
      destruct (G2 x Hx) as [Hx4|Hx4]; [|right; elem_tac].
      unfold h4 in Hx4. rewrite lookup_insert_ne in Hx4 by done.
      destruct (G1 x Hx4) as [Hx2|Hx2]; [|right; elem_tac].
      left. by rewrite F0 in Hx2.
Qed.

Lemma allocated_after_refl (t : tree) (w : world) : allocated_after t t w w.
Proof.
  intros a Ha. destruct (decide (a ∈ addrs t)); [by left|by right].
Qed.

Lemma insert_alloc fuel (w : world) this (t : tree) value :
  owns w this t → red_black t → ordered comp t → (height t < fuel)%nat →
  ∃ r w' t',
    insert comp fuel this value w = Ok r w'
    ∧ owns w' this t' ∧ allocated_after t t' w w'.
Proof.
  intros Ho Hrb Hord Hfuel.
  destruct (descend comp value.1 t []) as [t0 c] eqn:Hd.
  destruct t0 as [|a col l d r].
  - destruct (red_black_descend comp _ _ _ _ Hrb Hd) as (Htop & _).
    destruct (insert_new_spec comp fuel w this _ t c value Ho Hd Htop Hfuel)
      as (w' & He & Hz & Hfr & Hobj & Hdom).
    eexists _, w', (insert_tree comp (fresh (dom (heap w))) value t).
    split_and!; [exact He| |].
    + unfold owns. rewrite (insert_tree_count comp _ _ _ _ Hd).
      by rewrite <- size_t_wrap_succ.
    + intros a Ha. apply elem_of_dom in Ha. rewrite Hdom in Ha.
      rewrite (insert_tree_new_addrs comp _ _ _ _ Hd).
      apply elem_of_union in Ha as [->%elem_of_singleton|Ha]; [left; elem_tac|].
      destruct (decide (a ∈ addrs t)); [left; elem_tac|right].
      split; [by apply elem_of_dom|done].
  - eexists _, w, t. split_and!; [by eapply insert_found_spec|done|].
    apply allocated_after_refl.
Qed.

Lemma subscript_alloc fuel (w : world) this (t : tree) key :
  owns w this t → red_black t → ordered comp t → (height t < fuel)%nat →
  ∃ r w' t',
    subscript comp T_default fuel this key w = Ok r w'
    ∧ owns w' this t' ∧ allocated_after t t' w w'.
Proof.
  intros Ho Hrb Hord Hfuel. unfold subscript, bind.
  rewrite (findNode_spec comp fuel key w this t _ Ho Hfuel).
  destruct (descend comp key t []) as [t0 c] eqn:Hd.
  destruct t0 as [|a col l d r]; simpl.
  - destruct (insert_alloc fuel w this t (key, T_default) Ho Hrb Hord Hfuel)
      as (r & w' & t' & Hi & Ho' & Hal).
    assert (∃ z, r = (mkIter (Some z) (Some this), true)) as [z ->].
    { destruct (red_black_descend comp _ _ _ _ Hrb Hd) as (Htop & _).
      destruct (insert_new_spec comp fuel w this _ t c (key, T_default) Ho Hd Htop Hfuel)
        as (w1 & He & _). rewrite He in Hi. injection Hi as <- _. by eexists. }
    rewrite Hi. simpl. by exists z, w', t'.
  - exists a, w, t. split_and!; [done..|]. apply allocated_after_refl.
Qed.

Lemma erase_alloc fuel (w w' : world) this (t : tree) z :
  owns w this t → red_black t → z ∈ addrs t → (height t ≤ fuel)%nat →
  erase (S fuel) this (mkIter (Some z) (Some this)) w = Ok tt w' →
  ∃ t', owns w' this t' ∧ allocated_after t t' w w'.
Proof.
  intros Ho Hrb Hz Hfuel He.
  destruct (erase_owns fuel w this t z Ho Hrb Hz Hfuel)
    as [(w1 & t' & A & d & B & He1 & Ho' & _ & Hn & Hn' & (_ & _ & Hdom))|Hundef];
    [|congruence].
  rewrite He1 in He. injection He as ->.
  exists t'. split; [done|]. intros a Ha.
  apply elem_of_dom in Ha. rewrite Hdom in Ha.
  apply elem_of_difference in Ha as [Ha Hne%not_elem_of_singleton].
  destruct (decide (a ∈ addrs t)) as [Hin|Hni].
  - left. rewrite <- nodes_addrs, Hn' . rewrite <- nodes_addrs, Hn in Hin.
    rewrite fmap_app in *. rewrite fmap_cons in Hin. simpl in Hin.
    apply elem_of_app in Hin as [Hin|[Hin|Hin]%elem_of_cons]; [|done|];
      apply elem_of_app; auto.
  - right. split; [by apply elem_of_dom|done].
Qed.

Lemma clear_alloc fuel (w : world) this (t : tree) :
  owns w this t → (height t < fuel)%nat →
  ∃ w', clear fuel this w = Ok tt w'
    ∧ owns w' this Leaf ∧ allocated_after t Leaf w w'.
Proof.
  intros Ho Hfuel.
  destruct (clear_spec fuel w this t Ho Hfuel) as (h' & Hc & Hfr & Hnone).
  eexists. split; [exact Hc|]. split.
  - apply owns_intro; simpl; [by rewrite lookup_insert_eq|done|apply NoDup_nil_2].
  - intros a Ha. simpl in Ha. right.
    assert (a ∉ addrs t) as Hni.
    { intros Hin. rewrite (Hnone a Hin) in Ha. by destruct Ha. }
    split; [|done]. by rewrite <- (Hfr a Hni).
Qed.

Lemma map_copy_ctor_alloc fuel (w : world) other (t : tree) :
  owns w other t → (height t < fuel)%nat →
  ∃ w' t',
    map_copy_ctor fuel other w = Ok (fresh (dom (objs w))) w'
    ∧ owns w' (fresh (dom (objs w))) t'
    ∧ allocated_after Leaf t' w w'.
Proof.
  intros (Ho & Hr & Hnd)%owns_elim Hfuel. destruct w as [h o]. simpl in *.
  remember (fresh (dom o)) as this eqn:Hthis.
  assert (o !! this = None) as Hnone.
  { subst this. apply not_elem_of_dom, is_fresh. }
  assert (this ≠ other) as Hne by (intros ->; congruence).
  destruct (copyTree_alloc fuel h (<[this := mkMap None 0]> o) None t None Hr Hfuel)
    as (t' & h' & Hc & Hs & Hr' & Hnd' & Hnew & Hfr & Hal).
  exists (mkWorld h' (<[this := mkMap (tptr t') (size_t_wrap (Z.of_nat (node_count t)))]> o)), t'.
  split_and!.
  - unfold map_copy_ctor, map_ctor, set_root, set_tree_size, put_obj, this_obj, bind, ret.
    simpl. rewrite <- Hthis. rewrite lookup_insert_ne by done. simpl.
    rewrite Ho. simpl. rewrite Hc. simpl. rewrite lookup_insert_eq. simpl.
    rewrite !lookup_insert_ne by done. simpl. rewrite Ho. simpl.
    rewrite lookup_insert_eq. simpl. by rewrite !insert_insert_eq.
  - apply owns_intro; simpl; [|done..].
    by rewrite lookup_insert_eq, (same_shape_count _ _ Hs).
  - intros a Ha. simpl in *. destruct (Hal a Ha) as [?|?]; [right|by left].
    split; [done|]. by intros ?%elem_of_nil.
Qed.

Lemma map_assign_alloc fuel (w : world) this other (t t2 : tree) :
  owns w this t → owns w other t2 → this ≠ other →
  (∀ a, a ∈ addrs t2 → a ∉ addrs t) →
  (height t < fuel)%nat → (height t2 < fuel)%nat →
  ∃ w' t',
    map_assign fuel this other w = Ok tt w'
    ∧ owns w' this t'
    ∧ allocated_after t t' w w'.
Proof.
  intros (Ho & Hr & Hnd)%owns_elim (Ho2 & Hr2 & Hnd2)%owns_elim Hne Hdisj Hf1 Hf2.
  destruct w as [h o]. simpl in *.
  destruct (clearTree_spec fuel h o None t Hr Hnd Hf1) as (h1 & Hc & Hfr1 & Hnone).
  assert (rep h1 None t2) as Hr2'.
  { eapply rep_frame; [|exact Hr2]. intros a Ha. by apply Hfr1, Hdisj. }
  destruct (copyTree_alloc fuel h1 o None t2 None Hr2' Hf2)
    as (t' & h' & Hcp & Hs & Hr' & Hnd' & Hnew & Hfr & Hal).
  exists (mkWorld h' (<[this := mkMap (tptr t') (size_t_wrap (Z.of_nat (node_count t2)))]> o)), t'.
  split_and!.
  - unfold map_assign. rewrite bool_decide_eq_false_2 by done. simpl.
    unfold get_root, set_root, set_tree_size, put_obj, this_obj, bind, ret.
    simpl. rewrite Ho. simpl. rewrite Hc. simpl. rewrite Ho2. simpl.
    rewrite Hcp. simpl. rewrite Ho. simpl.
    rewrite lookup_insert_ne by done. simpl. rewrite Ho2. simpl.
    rewrite lookup_insert_eq. simpl. by rewrite !insert_insert_eq.
  - apply owns_intro; simpl; [|done..].
    by rewrite lookup_insert_eq, (same_shape_count _ _ Hs).
  - intros a Ha. simpl in *. destruct (Hal a Ha) as [H1|?]; [right|by left].
    assert (a ∉ addrs t) as Hni.
    { intros Hin. rewrite (Hnone a Hin) in H1. by destruct H1. }
    split; [|done]. by rewrite <- (Hfr1 a Hni).
Qed.

(** An operation that returns leaves the state as it was, or changes
    one map [this]; every node allocated afterwards belongs to the new
    tree of [this] or was allocated before, outside its old tree. *)
Lemma step_alloc M (w w' : world) o :
  world_inv comp M w → step comp T_default w o w' →
  w' = w
  ∨ ∃ this t t',
      (M !! this = Some t ∨ (M !! this = None ∧ t = Leaf))
      ∧ owns w' this t'
      ∧ (∀ j, j ≠ this → ¬ touches o j)
      ∧ allocated_after t t' w w'.
Proof.
  intros Hinv [Hvalid Hret].
  assert (∃ r, returns (run_op comp T_default o) w r
               ∧ (r = Ok tt w' ∨ ∃ e, r = Throw e w')) as (r & Hr & Hres).
  { destruct Hret as [H|[e H]]; eexists; split; eauto. }
  clear Hret.
  pose proof Hinv as (Hdom & Hown & Hdisj).
  destruct o as [|other|this other|this value|this pos|this key|this]; simpl in *.
  - (* map() *)
    destruct (returns_at _ _ _ 0%nat Hr) as (fuel & _ & He); simpl in He.
    unfold map_ctor, bind, ret in He. simpl in He. subst r.
    destruct Hres as [[= <-]|[e [=]]].
    assert (M !! fresh (dom (objs w)) = None) as Hnone.
    { apply not_elem_of_dom. rewrite Hdom. apply is_fresh. }
    right. exists (fresh (dom (objs w))), Leaf, Leaf.
    split_and!; [by right| |by intros ? ? []|].
    + apply owns_intro; simpl; [by rewrite lookup_insert_eq|done|apply NoDup_nil_2].
    + intros a Ha. simpl in *. right. split; [done|]. by intros ?%elem_of_nil.
  - (* map(other) *)
    destruct (M !! other) as [t|] eqn:Hm.
    2:{ apply (world_inv_lookup _ _ _ _ Hinv) in Hm. rewrite Hm in Hvalid.
        by destruct Hvalid. }
    destruct (Hown other t Hm) as (Ho & Hrb & Hord).
    destruct (returns_at _ _ _ (S (height t)) Hr) as (fuel & Hfuel & He); simpl in He.
    destruct (map_copy_ctor_alloc fuel w other t Ho ltac:(lia))
      as (w1 & t' & Hc & Ho1 & Hal).
    unfold bind, ret in He. rewrite Hc in He. subst r.
    destruct Hres as [[= <-]|[e [=]]].
    assert (M !! fresh (dom (objs w)) = None) as Hnone.
    { apply not_elem_of_dom. rewrite Hdom. apply is_fresh. }
    right. exists (fresh (dom (objs w))), Leaf, t'.
    split_and!; [by right|done|by intros ? ? []|done].
  - (* operator= *)
    destruct (decide (this = other)) as [->|Hne].
    { destruct (returns_at _ _ _ 0%nat Hr) as (fuel & _ & He); simpl in He.
      rewrite map_assign_self in He. subst r.
      destruct Hres as [[= <-]|[e [=]]]. by left. }
    destruct (M !! this) as [t|] eqn:Hm.
    2:{ apply (world_inv_lookup _ _ _ _ Hinv) in Hm.
        destruct (returns_at _ _ _ 0%nat Hr) as (fuel & _ & He); simpl in He.
        rewrite map_assign_no_this in He by done. subst r.
        by destruct Hres as [[=]|[e [=]]]. }
    destruct (Hown this t Hm) as (Ho & Hrb & Hord).
    destruct (M !! other) as [t2|] eqn:Hm2.
    2:{ apply (world_inv_lookup _ _ _ _ Hinv) in Hm2.
        destruct (returns_at _ _ _ (S (height t)) Hr) as (fuel & Hfuel & He); simpl in He.
        rewrite (map_assign_no_other fuel w this other t) in He by (done || lia).
        subst r. by destruct Hres as [[=]|[e [=]]]. }
    destruct (Hown other t2 Hm2) as (Ho2 & Hrb2 & Hord2).
    destruct (returns_at _ _ _ (S (height t + height t2)) Hr) as (fuel & Hfuel & He); simpl in He.
    destruct (map_assign_alloc fuel w this other t t2 Ho Ho2 Hne)
      as (w1 & t' & Hc & Ho1 & Hal); [|lia|lia|].
    { intros a Ha. by apply (Hdisj other this t2 t). }
    rewrite Hc in He. subst r. destruct Hres as [[= <-]|[e [=]]].
    right. exists this, t, t'. split_and!; [by left|done| |done].
    intros j Hj Heq. by apply Hj.
  - (* insert *)
    destruct (M !! this) as [t|] eqn:Hm.
    2:{ apply (world_inv_lookup _ _ _ _ Hinv) in Hm.
        destruct (returns_at _ _ _ 0%nat Hr) as (fuel & _ & He); simpl in He.
        unfold bind in He. rewrite insert_no_obj in He by done. subst r.
        by destruct Hres as [[=]|[e [=]]]. }
    destruct (Hown this t Hm) as (Ho & Hrb & Hord).
    destruct (returns_at _ _ _ (S (height t)) Hr) as (fuel & Hfuel & He); simpl in He.
    destruct (insert_alloc fuel w this t value Ho Hrb Hord ltac:(lia))
      as (res & w1 & t' & Hc & Ho1 & Hal).
    unfold bind, ret in He. rewrite Hc in He. subst r.
    destruct Hres as [[= <-]|[e [=]]].
    right. exists this, t, t'. split_and!; [by left|done| |done].
    intros j Hj Heq. by apply Hj.
  - (* erase *)
    destruct pos as [n cont].
    destruct Hvalid as [Hc|[Hn|(t0 & z & Ho0 & Hn & Hz)]]; simpl in *.
    { destruct (returns_at _ _ _ 0%nat Hr) as (fuel & _ & He); simpl in He.
      rewrite erase_foreign in He by done. subst r.
      destruct Hres as [[=]|[e [= <-]]]. by left. }
    { subst n. destruct (returns_at _ _ _ 0%nat Hr) as (fuel & _ & He); simpl in He.
      rewrite erase_end in He. subst r.
      destruct Hres as [[=]|[e [= <-]]]. by left. }
    subst n.
    destruct (decide (cont = Some this)) as [->|Hc].
    2:{ destruct (returns_at _ _ _ 0%nat Hr) as (fuel & _ & He); simpl in He.
        rewrite erase_foreign in He by done. subst r.
        destruct Hres as [[=]|[e [= <-]]]. by left. }
    destruct (M !! this) as [t|] eqn:Hm.
    2:{ apply (world_inv_lookup _ _ _ _ Hinv) in Hm.
        destruct Ho0 as (Ho0 & _). congruence. }
    destruct (Hown this t Hm) as (Ho & Hrb & Hord).
    assert (t0 = t) as -> by (by eapply owns_unique).
    destruct (returns_at _ _ _ (S (height t)) Hr) as (fuel & Hfuel & He); simpl in He.
    destruct fuel as [|fuel]; [lia|].
    destruct Hres as [->|[e ->]].
    2:{ destruct (erase_owns fuel w this t z Ho Hrb Hz ltac:(lia))
          as [(w1 & ? & ? & ? & ? & Hc & _)|Hundef]; congruence. }
    destruct (erase_alloc fuel w w' this t z Ho Hrb Hz ltac:(lia) He)
      as (t' & Ho1 & Hal).
    right. exists this, t, t'. split_and!; [by left|done| |done].
    intros j Hj Heq. by apply Hj.
  - (* operator[] *)
    destruct (M !! this) as [t|] eqn:Hm.
    2:{ apply (world_inv_lookup _ _ _ _ Hinv) in Hm.
        destruct (returns_at _ _ _ 0%nat Hr) as (fuel & _ & He); simpl in He.
        unfold bind in He. rewrite subscript_no_obj in He by done. subst r.
        by destruct Hres as [[=]|[e [=]]]. }
    destruct (Hown this t Hm) as (Ho & Hrb & Hord).
    destruct (returns_at _ _ _ (S (height t)) Hr) as (fuel & Hfuel & He); simpl in He.
    destruct (subscript_alloc fuel w this t key Ho Hrb Hord ltac:(lia))
      as (a & w1 & t' & Hc & Ho1 & Hal).
    unfold bind, ret in He. rewrite Hc in He. subst r.
    destruct Hres as [[= <-]|[e [=]]].
    right. exists this, t, t'. split_and!; [by left|done| |done].
    intros j Hj Heq. by apply Hj.
  - (* clear *)
    destruct (M !! this) as [t|] eqn:Hm.
    2:{ apply (world_inv_lookup _ _ _ _ Hinv) in Hm.
        destruct (returns_at _ _ _ 0%nat Hr) as (fuel & _ & He); simpl in He.
        rewrite clear_no_obj in He by done. subst r.
        by destruct Hres as [[=]|[e [=]]]. }
    destruct (Hown this t Hm) as (Ho & Hrb & Hord).
    destruct (returns_at _ _ _ (S (height t)) Hr) as (fuel & Hfuel & He); simpl in He.
    destruct (clear_alloc fuel w this t Ho ltac:(lia)) as (w1 & Hc & Ho1 & Hal).
    rewrite Hc in He. subst r. destruct Hres as [[= <-]|[e [=]]].
    right. exists this, t, Leaf. split_and!; [by left|done| |done].
    intros j Hj Heq. by apply Hj.
Qed.

(** With the invariant, the tree an object owns is the one [M] names. *)
Lemma world_inv_owns M (w : world) this (t : tree) :
  world_inv comp M w → owns w this t → M !! this = Some t.
Proof.
  intros Hinv Ho. pose proof Hinv as (Hdom & Hown & _).
  destruct (M !! this) as [t0|] eqn:Hm.
  - destruct (Hown this t0 Hm) as (Ho0 & _). f_equal. by eapply owns_unique.
  - apply (world_inv_lookup _ _ _ _ Hinv) in Hm. destruct Ho as (Ho & _). congruence.
Qed.

Lemma steps_covered M (w w' : world) os :
  world_inv comp M w →
  (∀ a, is_Some (heap w !! a) → ∃ this t, owns w this t ∧ a ∈ addrs t) →
  steps comp T_default w os w' →
  ∀ a, is_Some (heap w' !! a) → ∃ this t, owns w' this t ∧ a ∈ addrs t.
Proof.
  intros Hinv Hcov Hsteps. revert M Hinv Hcov.
  induction Hsteps as [w|w o w1 os w2 Hstep Hsteps IH]; intros M Hinv Hcov; [done|].
  destruct (step_inv comp T_default comp_swo M w w1 o Hinv Hstep) as (M1 & Hinv1 & Hfr1).
  apply (IH M1 Hinv1). intros a Ha.
  destruct (step_alloc M w w1 o Hinv Hstep)
    as [->|(this & t & t' & Ht & Ho' & Hto & Hal)]; [by apply Hcov|].
  destruct (Hal a Ha) as [Hin|[Ha0 Hni]]; [by exists this, t'|].
  destruct (Hcov a Ha0) as (i & ti & Hoi & Hai).
  pose proof (world_inv_owns M w i ti Hinv Hoi) as Hmi.
  assert (i ≠ this) as Hne.
  { intros ->. destruct Ht as [Ht|[Ht _]]; congruence. }
  exists i, ti. split; [|done].
  destruct Hinv1 as (_ & Hown1 & _). apply Hown1, Hfr1; [by apply Hto|done].
Qed.

End allocation.

Section heap_properties.

Context {Key T : Type}.
Variable comp : Key → Key → bool.
Variable T_default : T.

Local Abbreviation world := (@world Key T).
Local Abbreviation tree := (@tree Key T).

(** X14.  The operations never leak a node and never share one: in
    every state reached from the empty one by constructors,
    [operator=], [insert], [erase], [operator[]] and [clear], a heap
    address is allocated exactly when it is a node of the tree of some
    live map, and then it is a node of one map only. *)
Theorem reachable_heap_is_owned (w : world) a :
  strict_weak_order comp → reachable comp T_default w →
  (is_Some (heap w !! a) ↔ ∃ this t, owns w this t ∧ a ∈ addrs t)
  ∧ (∀ i j ti tj, owns w i ti → owns w j tj →
       a ∈ addrs ti → a ∈ addrs tj → i = j).
Proof.
  intros Hswo [os Hsteps].
  destruct (steps_inv comp T_default Hswo ∅ _ _ os (world_inv_empty comp) Hsteps)
    as (M & Hinv & _).
  split; [split|].
  - revert a. eapply (steps_covered comp T_default Hswo ∅);
      [apply world_inv_empty| |exact Hsteps].
    simpl. intros a Ha. rewrite lookup_empty in Ha. by destruct Ha.
  - intros (this & t & Ho & Ha). apply owns_elim in Ho as (_ & Hr & _).
    by eapply rep_dom.
  - intros i j ti tj Hi Hj Hai Haj.
    destruct (decide (i = j)) as [|Hne]; [done|]. exfalso.
    pose proof (world_inv_owns comp M w i ti Hinv Hi) as Hmi.
    pose proof (world_inv_owns comp M w j tj Hinv Hj) as Hmj.
    destruct Hinv as (_ & _ & Hdisj). by apply (Hdisj i j ti tj Hne Hmi Hmj a).
Qed.

(** X15.  Which calls of [erase] return, and with what tree.  For the
    node [z] with colour [cz] and subtrees [l] and [r] under the path
    [c] of a red-black tree, [erase_plan] gives the colour [yoc] of the
    node that is unlinked ([z], or the leftmost node of [r] when [z] has
    two children), the subtree [x] that takes its place and the path
    [cx] above it.  When the unlinked node is red, or [x] arrives at the
    root, or [x] is red, [erase] returns and the map owns the tree with
    [x] (blackened if the unlinked node was black) at that place;
    otherwise [x] is null below a parent and the behaviour is
    undefined. *)
Theorem erase_result (w : world) this z cz l dz r c yoc x cx fuel :
  owns w this (plug (Tr z cz l dz r) c) →
  red_black (plug (Tr z cz l dz r) c) →
  (height (plug (Tr z cz l dz r) c) ≤ fuel)%nat →
  erase_plan cz l r c = (yoc, x, cx) →
  if yoc || bool_decide (cx = []) || red x
  then ∃ w', erase (S fuel) this (mkIter (Some z) (Some this)) w = Ok tt w'
         ∧ owns w' this (plug (splice yoc x) cx)
         ∧ red_black (plug (splice yoc x) cx)
         ∧ heap w' !! z = None
  else x = Leaf ∧ cx ≠ []
       ∧ erase (S fuel) this (mkIter (Some z) (Some this)) w = Undef.
Proof.
  intros Ho Hrb Hfuel Hplan.
  pose proof (erase_red_black fuel w this z cz l dz r c Ho Hrb Hfuel) as H.
  pose proof (erase_plan_red_black z cz l dz r c yoc x cx Hrb Hplan) as Hpure.
  unfold erase_zip in H. rewrite Hplan in H. unfold fix_ok in *.
  destruct (yoc || bool_decide (cx = []) || red x).
  - destruct H as (w' & He & Ho' & Hrb' & _ & (_ & _ & Hdom)).
    exists w'. split_and!; [done..|].
    apply not_elem_of_dom. rewrite Hdom. set_solver.
  - by destruct Hpure.
Qed.

End heap_properties.

(** ** The further properties on the example *)

Lemma insert_new_entry_witness :
  strict_weak_order Z.ltb
  ∧ owns ex_world 1%positive ex_tree
  ∧ red_black ex_tree
  ∧ ordered Z.ltb ex_tree
  ∧ (∀ e : Z * Z, e ∈ entries ex_tree → ¬ key_equiv Z.ltb 7%Z e.1)
  ∧ (height ex_tree < 4)%nat
  ∧ ∃ z w' t' A B n,
      insert Z.ltb 4 1%positive (7, 0)%Z ex_world
      = Ok (mkIter (Some z) (Some 1%positive), true) w'
      ∧ heap ex_world !! z = None
      ∧ owns w' 1%positive t' ∧ red_black t' ∧ ordered Z.ltb t'
      ∧ nodes ex_tree = A ++ B ∧ nodes t' = A ++ (z, (7, 0)%Z) :: B
      ∧ read_entry z w' = Ok (7, 0)%Z w'
      ∧ (∀ a e, (a, e) ∈ nodes ex_tree → read_entry a w' = Ok e w')
      ∧ size 1%positive ex_world = Ok n ex_world
      ∧ size 1%positive w' = Ok (size_t_wrap (n + 1)) w'.
Proof.
  assert (height ex_tree < 4)%nat as Hh by (simpl; lia).
  split; [apply Zltb_swo|]. split; [apply ex_owns|]. split; [apply ex_red_black|].
  split; [apply ex_ordered|]. split; [apply ex_absent_7|]. split; [exact Hh|].
  apply (insert_new_entry Z.ltb ex_world 1%positive ex_tree (7, 0)%Z 4
           Zltb_swo ex_owns ex_red_black ex_ordered ex_absent_7 Hh).
Defined.

Lemma lookup_present_witness :
  strict_weak_order Z.ltb
  ∧ owns ex_world 1%positive ex_tree
  ∧ ordered Z.ltb ex_tree
  ∧ (4%positive, (15, 4)%Z) ∈ nodes ex_tree
  ∧ key_equiv Z.ltb 15%Z 15%Z
  ∧ (height ex_tree < 4)%nat
  ∧ read_entry 4%positive ex_world = Ok (15, 4)%Z ex_world
  ∧ find Z.ltb 4 1%positive 15%Z ex_world
    = Ok (mkIter (Some 4%positive) (Some 1%positive)) ex_world
  ∧ count Z.ltb 4 1%positive 15%Z ex_world = Ok 1%Z ex_world
  ∧ at_ Z.ltb 4 1%positive 15%Z ex_world = Ok 4%positive ex_world
  ∧ subscript Z.ltb 0%Z 4 1%positive 15%Z ex_world = Ok 4%positive ex_world
  ∧ subscript_const Z.ltb 4 1%positive 15%Z ex_world = Ok 4%positive ex_world.
Proof.
  assert ((4%positive, (15, 4)%Z) ∈ nodes ex_tree) as Hin.
  { simpl. repeat first [apply list_elem_of_here | apply list_elem_of_further]. }
  assert (key_equiv Z.ltb 15%Z 15%Z) as Heq by (split; reflexivity).
  assert (height ex_tree < 4)%nat as Hh by (simpl; lia).
  split; [apply Zltb_swo|]. split; [apply ex_owns|]. split; [apply ex_ordered|].
  split; [exact Hin|]. split; [exact Heq|]. split; [exact Hh|].
  apply (lookup_present Z.ltb 0%Z ex_world 1%positive ex_tree 15%Z 4%positive (15, 4)%Z 4
           Zltb_swo ex_owns ex_ordered Hin Heq Hh).
Defined.

Lemma lookup_absent_witness :
  strict_weak_order Z.ltb
  ∧ owns ex_world 1%positive ex_tree
  ∧ (∀ e : Z * Z, e ∈ entries ex_tree → ¬ key_equiv Z.ltb 7%Z e.1)
  ∧ (height ex_tree < 4)%nat
  ∧ find Z.ltb 4 1%positive 7%Z ex_world = Ok (end_ 1%positive) ex_world
  ∧ count Z.ltb 4 1%positive 7%Z ex_world = Ok 0%Z ex_world
  ∧ subscript_const Z.ltb 4 1%positive 7%Z ex_world
    = Throw index_out_of_bound ex_world.
Proof.
  assert (height ex_tree < 4)%nat as Hh by (simpl; lia).
  split; [apply Zltb_swo|]. split; [apply ex_owns|]. split; [apply ex_absent_7|].
  split; [exact Hh|].
  apply (lookup_absent Z.ltb ex_world 1%positive ex_tree 7%Z 4
           Zltb_swo ex_owns ex_absent_7 Hh).
Defined.

Lemma insert_then_find_witness :
  strict_weak_order Z.ltb
  ∧ owns ex_world 1%positive ex_tree
  ∧ red_black ex_tree
  ∧ ordered Z.ltb ex_tree
  ∧ (node_count ex_tree + 1 < 8)%nat
  ∧ ∃ a b w' e,
      insert Z.ltb 8 1%positive (7, 0)%Z ex_world
      = Ok (mkIter (Some a) (Some 1%positive), b) w'
      ∧ find Z.ltb 8 1%positive 7%Z w' = Ok (mkIter (Some a) (Some 1%positive)) w'
      ∧ count Z.ltb 8 1%positive 7%Z w' = Ok 1%Z w'
      ∧ read_entry a w' = Ok e w'
      ∧ key_equiv Z.ltb 7%Z e.1
      ∧ (b = true → e = (7, 0)%Z)
      ∧ (b = false → w' = ex_world).
Proof.
  assert (node_count ex_tree + 1 < 8)%nat as Hc by (simpl; lia).
  split; [apply Zltb_swo|]. split; [apply ex_owns|]. split; [apply ex_red_black|].
  split; [apply ex_ordered|]. split; [exact Hc|].
  apply (insert_then_find Z.ltb ex_world 1%positive ex_tree (7, 0)%Z 8
           Zltb_swo ex_owns ex_red_black ex_ordered Hc).
Defined.

Lemma erase_then_find_witness :
  strict_weak_order Z.ltb
  ∧ owns ex_world 1%positive ex_tree
  ∧ red_black ex_tree
  ∧ ordered Z.ltb ex_tree
  ∧ nodes ex_tree
    = [(3%positive, (5, 3)%Z); (1%positive, (10, 1)%Z)]
        ++ (4%positive, (15, 4)%Z) :: [(2%positive, (20, 2)%Z)]
  ∧ (node_count ex_tree ≤ 4)%nat
  ∧ erase 5 1%positive (mkIter (Some 4%positive) (Some 1%positive)) ex_world
    = Ok tt ex_world_erased
  ∧ find Z.ltb 4 1%positive 15%Z ex_world_erased
    = Ok (end_ 1%positive) ex_world_erased
  ∧ count Z.ltb 4 1%positive 15%Z ex_world_erased = Ok 0%Z ex_world_erased
  ∧ at_ Z.ltb 4 1%positive 15%Z ex_world_erased
    = Throw index_out_of_bound ex_world_erased
  ∧ (∀ a e,
       (a, e) ∈ [(3%positive, (5, 3)%Z); (1%positive, (10, 1)%Z)]
                  ++ [(2%positive, (20, 2)%Z)] →
       find Z.ltb 4 1%positive e.1 ex_world_erased
       = Ok (mkIter (Some a) (Some 1%positive)) ex_world_erased
       ∧ read_entry a ex_world_erased = Ok e ex_world_erased).
Proof.
  assert (node_count ex_tree ≤ 4)%nat as Hc by (simpl; lia).
  assert (erase 5 1%positive (mkIter (Some 4%positive) (Some 1%positive)) ex_world
          = Ok tt ex_world_erased) as He by (vm_compute; reflexivity).
  split; [apply Zltb_swo|]. split; [apply ex_owns|]. split; [apply ex_red_black|].
  split; [apply ex_ordered|]. split; [reflexivity|]. split; [exact Hc|].
  split; [exact He|].
  apply (erase_then_find Z.ltb ex_world ex_world_erased 1%positive ex_tree
           4%positive (15, 4)%Z
           [(3%positive, (5, 3)%Z); (1%positive, (10, 1)%Z)]
           [(2%positive, (20, 2)%Z)] 4
           Zltb_swo ex_owns ex_red_black ex_ordered eq_refl Hc He).
Defined.

Lemma decr_then_incr_witness :
  owns ex_world 1%positive ex_tree
  ∧ nodes ex_tree
    = [(3%positive, (5, 3)%Z)] ++ (1%positive, (10, 1)%Z)
        :: [(4%positive, (15, 4)%Z); (2%positive, (20, 2)%Z)]
  ∧ (height ex_tree < 4)%nat
  ∧ iter_decr 4 (mkIter (Some 4%positive) (Some 1%positive)) ex_world
    = Ok (mkIter (Some 1%positive) (Some 1%positive)) ex_world
  ∧ iter_incr 4 (mkIter (Some 1%positive) (Some 1%positive)) ex_world
    = Ok (mkIter (Some 4%positive) (Some 1%positive)) ex_world
  ∧ iter_post_decr 4 (mkIter (Some 4%positive) (Some 1%positive)) ex_world
    = Ok (mkIter (Some 4%positive) (Some 1%positive),
          mkIter (Some 1%positive) (Some 1%positive)) ex_world
  ∧ iter_post_incr 4 (mkIter (Some 1%positive) (Some 1%positive)) ex_world
    = Ok (mkIter (Some 1%positive) (Some 1%positive),
          mkIter (Some 4%positive) (Some 1%positive)) ex_world.
Proof.
  assert (height ex_tree < 4)%nat as Hh by (simpl; lia).
  split; [apply ex_owns|]. split; [reflexivity|]. split; [exact Hh|].
  apply (decr_then_incr ex_world 1%positive ex_tree 1%positive (10, 1)%Z
           [(3%positive, (5, 3)%Z)]
           [(4%positive, (15, 4)%Z); (2%positive, (20, 2)%Z)] 4 ex_owns eq_refl Hh).
Defined.

Lemma begin_least_last_greatest_witness :
  owns ex_world 1%positive ex_tree
  ∧ ordered Z.ltb ex_tree
  ∧ nodes ex_tree
    = (3%positive, (5, 3)%Z)
        :: [(1%positive, (10, 1)%Z); (4%positive, (15, 4)%Z); (2%positive, (20, 2)%Z)]
  ∧ last ((3%positive, (5, 3)%Z)
            :: [(1%positive, (10, 1)%Z); (4%positive, (15, 4)%Z);
                (2%positive, (20, 2)%Z)])
    = Some (2%positive, (20, 2)%Z)
  ∧ (height ex_tree < 4)%nat
  ∧ begin_ 4 1%positive ex_world = Ok (mkIter (Some 3%positive) (Some 1%positive)) ex_world
  ∧ read_entry 3%positive ex_world = Ok (5, 3)%Z ex_world
  ∧ (∀ x : Z * Z,
       x ∈ [(1%positive, (10, 1)%Z); (4%positive, (15, 4)%Z);
            (2%positive, (20, 2)%Z)].*2 →
       key_lt Z.ltb 5%Z x.1)
  ∧ iter_decr 4 (end_ 1%positive) ex_world
    = Ok (mkIter (Some 2%positive) (Some 1%positive)) ex_world
  ∧ read_entry 2%positive ex_world = Ok (20, 2)%Z ex_world
  ∧ (∀ x (y : Z * Z), (x, y) ∈ nodes ex_tree →
       (x, y) = (2%positive, (20, 2)%Z) ∨ key_lt Z.ltb y.1 20%Z).
Proof.
  assert (height ex_tree < 4)%nat as Hh by (simpl; lia).
  split; [apply ex_owns|]. split; [apply ex_ordered|]. split; [reflexivity|].
  split; [reflexivity|]. split; [exact Hh|].
  apply (begin_least_last_greatest Z.ltb ex_world 1%positive ex_tree
           3%positive (5, 3)%Z 2%positive (20, 2)%Z
           [(1%positive, (10, 1)%Z); (4%positive, (15, 4)%Z); (2%positive, (20, 2)%Z)]
           4 ex_owns ex_ordered eq_refl eq_refl Hh).
Defined.

Lemma incr_is_successor_witness :
  strict_weak_order Z.ltb
  ∧ owns ex_world 1%positive ex_tree
  ∧ ordered Z.ltb ex_tree
  ∧ nodes ex_tree
    = [(3%positive, (5, 3)%Z)] ++ (1%positive, (10, 1)%Z)
        :: (4%positive, (15, 4)%Z) :: [(2%positive, (20, 2)%Z)]
  ∧ (height ex_tree < 4)%nat
  ∧ iter_incr 4 (mkIter (Some 1%positive) (Some 1%positive)) ex_world
    = Ok (mkIter (Some 4%positive) (Some 1%positive)) ex_world
  ∧ iter_decr 4 (mkIter (Some 4%positive) (Some 1%positive)) ex_world
    = Ok (mkIter (Some 1%positive) (Some 1%positive)) ex_world
  ∧ read_entry 1%positive ex_world = Ok (10, 1)%Z ex_world
  ∧ read_entry 4%positive ex_world = Ok (15, 4)%Z ex_world
  ∧ key_lt Z.ltb 10%Z 15%Z
  ∧ (∀ x : Z * Z, x ∈ entries ex_tree →
       ¬ (key_lt Z.ltb 10%Z x.1 ∧ key_lt Z.ltb x.1 15%Z)).
Proof.
  assert (height ex_tree < 4)%nat as Hh by (simpl; lia).
  split; [apply Zltb_swo|]. split; [apply ex_owns|]. split; [apply ex_ordered|].
  split; [reflexivity|]. split; [exact Hh|].
  apply (incr_is_successor Z.ltb ex_world 1%positive ex_tree
           1%positive (10, 1)%Z 4%positive (15, 4)%Z
           [(3%positive, (5, 3)%Z)] [(2%positive, (20, 2)%Z)] 4
           Zltb_swo ex_owns ex_ordered eq_refl Hh).
Defined.

Lemma reachable_traversal_sorted_witness :
  strict_weak_order Z.ltb
  ∧ reachable Z.ltb 0%Z ex_world2
  ∧ objs ex_world2 !! 1%positive = Some (mkMap (Some 8%positive) 4%Z)
  ∧ ∃ es : list (Z * Z),
      (∀ fuel, (2 * length es < fuel)%nat → traverse fuel 1%positive ex_world2 = Ok es ex_world2)
      ∧ StronglySorted (key_lt Z.ltb) es.*1
      ∧ (∀ e1 e2, e1 ∈ es → e2 ∈ es → key_equiv Z.ltb e1.1 e2.1 → e1 = e2)
      ∧ size 1%positive ex_world2 = Ok (size_t_wrap (Z.of_nat (length es))) ex_world2
      ∧ ((Z.of_nat (length es) < size_t_mod)%Z →
         empty 1%positive ex_world2 = Ok (bool_decide (es = [])) ex_world2).
Proof.
  assert (objs ex_world2 !! 1%positive = Some (mkMap (Some 8%positive) 4%Z)) as Hobj.
  { vm_compute. reflexivity. }
  split; [apply Zltb_swo|]. split; [apply ex_reachable2|]. split; [exact Hobj|].
  apply (reachable_traversal_sorted Z.ltb 0%Z ex_world2 1%positive
           (mkMap (Some 8%positive) 4%Z) Zltb_swo ex_reachable2 Hobj).
Defined.

Lemma lookup_logarithmic_witness :
  strict_weak_order Z.ltb
  ∧ reachable Z.ltb 0%Z ex_world
  ∧ owns ex_world 1%positive ex_tree
  ∧ ((node_count ex_tree + 1) ^ 2 < 2 ^ 5)%nat
  ∧ (∃ it, find Z.ltb 5 1%positive 15%Z ex_world = Ok it ex_world)
  ∧ (∃ n, count Z.ltb 5 1%positive 15%Z ex_world = Ok n ex_world)
  ∧ (∃ r w', insert Z.ltb 5 1%positive (7, 0)%Z ex_world = Ok r w').
Proof.
  assert ((node_count ex_tree + 1) ^ 2 < 2 ^ 5)%nat as Hc by (simpl; lia).
  split; [apply Zltb_swo|]. split; [apply ex_reachable|]. split; [apply ex_owns|].
  split; [exact Hc|].
  apply (lookup_logarithmic Z.ltb 0%Z ex_world 1%positive ex_tree 15%Z (7, 0)%Z 5
           Zltb_swo ex_reachable ex_owns Hc).
Defined.

Lemma clear_and_destructor_free_witness :
  owns ex_world 1%positive ex_tree
  ∧ (height ex_tree < 4)%nat
  ∧ (∃ w', clear 4 1%positive ex_world = Ok tt w'
       ∧ (∀ a, a ∈ addrs ex_tree → heap w' !! a = None)
       ∧ (∀ a, a ∉ addrs ex_tree → heap w' !! a = heap ex_world !! a)
       ∧ objs w' = <[1%positive := mkMap None 0]> (objs ex_world)
       ∧ size 1%positive w' = Ok 0%Z w' ∧ empty 1%positive w' = Ok true w'
       ∧ begin_ 4 1%positive w' = Ok (end_ 1%positive) w')
  ∧ (∃ w', map_dtor 4 1%positive ex_world = Ok tt w'
       ∧ (∀ a, a ∈ addrs ex_tree → heap w' !! a = None)
       ∧ (∀ a, a ∉ addrs ex_tree → heap w' !! a = heap ex_world !! a)
       ∧ objs w' = delete 1%positive (objs ex_world)).
Proof.
  assert (height ex_tree < 4)%nat as Hh by (simpl; lia).
  split; [apply ex_owns|]. split; [exact Hh|].
  apply (clear_and_destructor_free ex_world 1%positive ex_tree 4 ex_owns Hh).
Defined.

Lemma rotations_are_inverse_witness :
  zip_at ex_world 1%positive
    (Tr 1%positive false (Tr 3%positive false Leaf (5, 3)%Z Leaf) (10, 1)%Z
        (Tr 2%positive false (Tr 4%positive true Leaf (15, 4)%Z Leaf) (20, 2)%Z Leaf))
    [] 4%Z
  ∧ ∃ w1,
      leftRotate 1%positive (Some 1%positive) ex_world = Ok tt w1
      ∧ rightRotate 1%positive (Some 2%positive) w1 = Ok tt ex_world
      ∧ zip_at w1 1%positive
          (Tr 2%positive false
              (Tr 1%positive false (Tr 3%positive false Leaf (5, 3)%Z Leaf) (10, 1)%Z
                  (Tr 4%positive true Leaf (15, 4)%Z Leaf))
              (20, 2)%Z Leaf)
          [] 4%Z.
Proof.
  split; [exact ex_owns|].
  apply (rotations_are_inverse ex_world 1%positive 4%Z [] 1%positive false
           (Tr 3%positive false Leaf (5, 3)%Z Leaf) (10, 1)%Z
           2%positive false (Tr 4%positive true Leaf (15, 4)%Z Leaf) (20, 2)%Z Leaf
           ex_owns).
Defined.

Lemma reachable_heap_is_owned_witness :
  strict_weak_order Z.ltb
  ∧ reachable Z.ltb 0%Z ex_world2
  ∧ (is_Some (heap ex_world2 !! 8%positive)
     ↔ ∃ this t, owns ex_world2 this t ∧ 8%positive ∈ addrs t)
  ∧ (∀ i j ti tj, owns ex_world2 i ti → owns ex_world2 j tj →
       8%positive ∈ addrs ti → 8%positive ∈ addrs tj → i = j).
Proof.
  split; [apply Zltb_swo|]. split; [apply ex_reachable2|].
  apply (reachable_heap_is_owned Z.ltb 0%Z ex_world2 8%positive Zltb_swo ex_reachable2).
Defined.

Lemma erase_result_witness :
  owns ex_world 1%positive (plug (Tr 4%positive true Leaf (15, 4)%Z Leaf) ex_path)
  ∧ red_black (plug (Tr 4%positive true Leaf (15, 4)%Z Leaf) ex_path)
  ∧ (height (plug (Tr 4%positive true Leaf (15, 4)%Z Leaf) ex_path) ≤ 3)%nat
  ∧ erase_plan true Leaf Leaf ex_path = (true, Leaf, ex_path)
  ∧ ∃ w', erase 4 1%positive (mkIter (Some 4%positive) (Some 1%positive)) ex_world
          = Ok tt w'
      ∧ owns w' 1%positive (plug (splice true Leaf) ex_path)
      ∧ red_black (plug (splice true Leaf) ex_path)
      ∧ heap w' !! 4%positive = None.
Proof.
  assert (height (plug (Tr 4%positive true Leaf (15, 4)%Z Leaf) ex_path) ≤ 3)%nat
    as Hh by (simpl; lia).
  split; [exact ex_owns|]. split; [exact ex_red_black|]. split; [exact Hh|].
  split; [reflexivity|].
  apply (erase_result ex_world 1%positive 4%positive true Leaf (15, 4)%Z Leaf
           ex_path true Leaf ex_path 3 ex_owns ex_red_black Hh eq_refl).
Defined.

